(** * Permafrost Engine: camera and navigation

    The camera of src/camera.c, function by function, over IEEE-754
    floats, with the SDL clock as an oracle and C assertions as failures;
    and the flow-field navigation of the specification (cost grids, the
    wavefront solver, portals between chunks and the routes across them),
    of which the sources hold no code, over exact costs of the form
    (a + b sqrt 2) / 2. *)

From Stdlib Require Import ZArith Lia Bool List Reals Lra Psatz QArith.
From Stdlib Require Import Floats.SpecFloat.
From stdpp Require Import gmap list.

Local Open Scope Z_scope.

(** * Part I: definitions *)

(** * IEEE-754 numbers of the C types [float] and [double]

    Both are [spec_float] values; the operations are the Standard Library's
    executable specification of IEEE-754 arithmetic (round to nearest even),
    instantiated at binary32 and binary64. *)
Module F32.
Definition prec := 24.
Definition emax := 128.
Definition add := SFadd prec emax.
Definition sub := SFsub prec emax.
Definition mul := SFmul prec emax.
Definition ltb := SFltb.
Definition leb := SFleb.
Definition eqb := SFeqb.
(** C comparison [a > b] and [a >= b]. *)
Definition gtb (a b : spec_float) := SFltb b a.
Definition geb (a b : spec_float) := SFleb b a.
(** Conversion of an integer (int or uint32_t operand of a float
    operation) to float. *)
Definition of_Z (n : Z) : spec_float := binary_normalize prec emax n 0 false.
(** Narrowing conversion double -> float. *)
Definition of_double (d : spec_float) : spec_float :=
  match d with
  | S754_finite s m e => binary_round prec emax s m e
  | _ => d
  end.
Definition zero : spec_float := S754_zero false.
End F32.

Module F64.
Definition prec := 53.
Definition emax := 1024.
Definition add := SFadd prec emax.
Definition mul := SFmul prec emax.
Definition sqrt := SFsqrt prec emax.
Definition of_Z (n : Z) : spec_float := binary_normalize prec emax n 0 false.
(** Widening conversion float -> double (exact). *)
Definition of_float (f : spec_float) : spec_float :=
  match f with
  | S754_finite s m e => binary_round prec emax s m e
  | _ => f
  end.
End F64.

Abbreviation float := spec_float (only parsing).
Abbreviation double := spec_float (only parsing).

(** A zero or a finite number, in any representation; a finite number of
    the format of [float], which is what a C float that is neither NaN
    nor infinite holds. *)
Definition SF_is_finite (f : spec_float) : bool :=
  match f with
  | S754_zero _ | S754_finite _ _ _ => true
  | _ => false
  end.
Definition F32_finite (f : float) : bool :=
  SF_is_finite f && valid_binary F32.prec F32.emax f.

(** * src/camera.c *)
Module Camera.

(** [vec3_t] of pf_math.h: three floats. *)
Record vec3_t := mk_vec3 { x : float; y : float; z : float }.

(** [struct bound_box] of collision.h, as camera.c reads it: the corner
    [x], [z] and the extents [w], [h]. *)
Record bound_box := mk_box { bx : float; bz : float; bw : float; bh : float }.

(** [struct camera]. [prev_frame_ts] is a uint32_t, kept as a [Z] in
    [0, 2^32). *)
Record camera := mk_camera {
  speed : float;
  sensitivity : float;
  pos : vec3_t;
  front : vec3_t;
  up : vec3_t;
  pitch : float;
  yaw : float;
  prev_frame_ts : Z;
  bounded : bool;
  bounds : bound_box
}.

Definition set_pos (cam : camera) (p : vec3_t) : camera :=
  mk_camera (speed cam) (sensitivity cam) p (front cam) (up cam)
            (pitch cam) (yaw cam) (prev_frame_ts cam) (bounded cam) (bounds cam).
Definition set_pos_x (cam : camera) (v : float) : camera :=
  set_pos cam (mk_vec3 v (y (pos cam)) (z (pos cam))).
Definition set_pos_z (cam : camera) (v : float) : camera :=
  set_pos cam (mk_vec3 (x (pos cam)) (y (pos cam)) v).
Definition set_front (cam : camera) (v : vec3_t) : camera :=
  mk_camera (speed cam) (sensitivity cam) (pos cam) v (up cam)
            (pitch cam) (yaw cam) (prev_frame_ts cam) (bounded cam) (bounds cam).
Definition set_up (cam : camera) (v : vec3_t) : camera :=
  mk_camera (speed cam) (sensitivity cam) (pos cam) (front cam) v
            (pitch cam) (yaw cam) (prev_frame_ts cam) (bounded cam) (bounds cam).
Definition set_pitch (cam : camera) (v : float) : camera :=
  mk_camera (speed cam) (sensitivity cam) (pos cam) (front cam) (up cam)
            v (yaw cam) (prev_frame_ts cam) (bounded cam) (bounds cam).
Definition set_yaw (cam : camera) (v : float) : camera :=
  mk_camera (speed cam) (sensitivity cam) (pos cam) (front cam) (up cam)
            (pitch cam) v (prev_frame_ts cam) (bounded cam) (bounds cam).
Definition set_prev_frame_ts (cam : camera) (t : Z) : camera :=
  mk_camera (speed cam) (sensitivity cam) (pos cam) (front cam) (up cam)
            (pitch cam) (yaw cam) t (bounded cam) (bounds cam).
Definition set_bounds (cam : camera) (b : bool) (box : bound_box) : camera :=
  mk_camera (speed cam) (sensitivity cam) (pos cam) (front cam) (up cam)
            (pitch cam) (yaw cam) (prev_frame_ts cam) b box.

(** The macros [MIN] and [MAX] of camera.c, on floats: a comparison with a
    NaN is false, so the second operand is chosen. *)
Definition MIN (a b : float) : float := if F32.ltb a b then a else b.
Definition MAX (a b : float) : float := if F32.gtb a b then a else b.

(** ** What camera.c takes from elsewhere *)

(** pf_math.h: the vector helpers camera.c calls; their bodies are in
    pf_math.c, which is not among the sources, so they are parameters of
    the model. Each [PFM_Vec3_*] writes its last argument; here it
    returns it. *)
Class PFMath := {
  PFM_Vec3_Cross : vec3_t -> vec3_t -> vec3_t;
  PFM_Vec3_Normal : vec3_t -> vec3_t;
  PFM_Vec3_Scale : vec3_t -> float -> vec3_t;
  PFM_Vec3_Add : vec3_t -> vec3_t -> vec3_t;
  PFM_Vec3_Sub : vec3_t -> vec3_t -> vec3_t
}.

(** What the direction update needs: the macro [DEG_TO_RAD] of pf_math.h
    and [cos], [sin] of math.h, on doubles. *)
Class Trig := {
  DEG_TO_RAD : float -> double;
  cos : double -> double;
  sin : double -> double
}.

(** [pow] of math.h. ([sqrt] is the correctly rounded IEEE operation,
    [F64.sqrt].) *)
Class Pow := pow : double -> double -> double.

(** SDL's millisecond clock. A state records what the successive calls of
    [SDL_GetTicks] return and how many calls were made. *)
Record sdl := mk_sdl { readings : nat -> Z; calls : nat }.

(** Code that reads the clock and may stop at a failed [assert]. *)
Definition M (A : Type) : Type := sdl -> option (A * sdl).
Definition ret {A} (a : A) : M A := fun s => Some (a, s).
Definition bind {A B} (m : M A) (k : A -> M B) : M B :=
  fun s => match m s with
           | Some (a, s') => k a s'
           | None => None
           end.
Definition assert (b : bool) : M unit :=
  fun s => if b then Some (tt, s) else None.

Declare Scope cam_scope.
Delimit Scope cam_scope with cam.
Notation "'let*' v := m 'in' k" := (bind m (fun v => k))
  (at level 10, v name, m at level 100, k at level 200) : cam_scope.
Notation "'check' b 'in' k" := (bind (assert b) (fun _ => k))
  (at level 10, b at level 100, k at level 200) : cam_scope.
Local Open Scope cam_scope.

Definition uint32 (n : Z) : Z := n mod 2 ^ 32.

Definition SDL_GetTicks : M Z :=
  fun s => Some (uint32 (readings s (calls s)), mk_sdl (readings s) (S (calls s))).

(** ** Static functions *)

Definition camera_pos_in_bounds (cam : camera) : bool :=
  (F32.leb (x (pos cam)) (bx (bounds cam))
   && F32.geb (x (pos cam)) (F32.sub (bx (bounds cam)) (bw (bounds cam))))
  && (F32.geb (z (pos cam)) (bz (bounds cam))
      && F32.leb (z (pos cam)) (F32.add (bz (bounds cam)) (bh (bounds cam)))).

Definition camera_move_within_bounds (cam : camera) : camera :=
  let cam := set_pos_x cam (MIN (x (pos cam)) (bx (bounds cam))) in
  let cam := set_pos_x cam (MAX (x (pos cam))
                                (F32.sub (bx (bounds cam)) (bw (bounds cam)))) in
  let cam := set_pos_z cam (MAX (z (pos cam)) (bz (bounds cam))) in
  let cam := set_pos_z cam (MIN (z (pos cam))
                                (F32.add (bz (bounds cam)) (bh (bounds cam)))) in
  cam.

(** ** Extern functions *)

(** [calloc]: every field is zero. (The allocation itself is not
    modelled.) *)
Definition Camera_New : camera :=
  let o := mk_vec3 F32.zero F32.zero F32.zero in
  mk_camera F32.zero F32.zero o o o F32.zero F32.zero 0 false
            (mk_box F32.zero F32.zero F32.zero F32.zero).

Definition Camera_SetPos (cam : camera) (p : vec3_t) : M camera :=
  let cam := set_pos cam p in
  check (negb (bounded cam) || camera_pos_in_bounds cam) in
  ret cam.

Section WithMath.
Context {pfm : PFMath} {trig : Trig} {pw : Pow}.

(** The recomputation of [front] and [up] from [pitch] and [yaw], which
    [Camera_SetPitchAndYaw] and [Camera_ChangeDirection] both end with.
    The products are formed in double and stored to float. *)
Definition update_front_up (cam : camera) : camera :=
  let fx := F32.of_double
              (F64.mul (cos (DEG_TO_RAD (yaw cam))) (cos (DEG_TO_RAD (pitch cam)))) in
  let fy := F32.of_double (sin (DEG_TO_RAD (pitch cam))) in
  let fz := F32.of_double
              (F64.mul (F64.mul (sin (DEG_TO_RAD (yaw cam)))
                                (cos (DEG_TO_RAD (pitch cam))))
                       (F64.of_Z (-1))) in
  let cam := set_front cam (PFM_Vec3_Normal (mk_vec3 fx fy fz)) in
  (* a vector orthogonal to 'front' in the XZ plane *)
  let xz := mk_vec3 (z (front cam)) F32.zero (SFopp (x (front cam))) in
  let cam := set_up cam (PFM_Vec3_Cross (front cam) xz) in
  set_up cam (PFM_Vec3_Normal (up cam)).

Definition Camera_SetPitchAndYaw (cam : camera) (p yw : float) : camera :=
  let cam := set_pitch cam p in
  let cam := set_yaw cam yw in
  update_front_up cam.

(** The first statement of every tick function:
    [if(!cam->prev_frame_ts) cam->prev_frame_ts = SDL_GetTicks();] *)
Definition init_prev_frame_ts (cam : camera) : M camera :=
  if prev_frame_ts cam =? 0
  then let* t := SDL_GetTicks in ret (set_prev_frame_ts cam t)
  else ret cam.

(** The last two statements of every tick function that moved. *)
Definition clamp_and_check (cam : camera) : M camera :=
  let cam := if bounded cam then camera_move_within_bounds cam else cam in
  check (negb (bounded cam) || camera_pos_in_bounds cam) in
  ret cam.

(** [tdelta * cam->speed]: the uint32_t difference of the two time
    stamps, converted to float and multiplied. *)
Definition tdelta_speed (cam : camera) (curr : Z) : float :=
  let tdelta := uint32 (curr - prev_frame_ts cam) in
  F32.mul (F32.of_Z tdelta) (speed cam).

Definition Camera_MoveLeftTick (cam : camera) : M camera :=
  let* cam := init_prev_frame_ts cam in
  let* curr := SDL_GetTicks in
  let right := PFM_Vec3_Cross (front cam) (up cam) in
  let right := PFM_Vec3_Normal right in
  let vdelta := PFM_Vec3_Scale right (tdelta_speed cam curr) in
  let cam := set_pos cam (PFM_Vec3_Add (pos cam) vdelta) in
  clamp_and_check cam.

Definition Camera_MoveRightTick (cam : camera) : M camera :=
  let* cam := init_prev_frame_ts cam in
  let* curr := SDL_GetTicks in
  let right := PFM_Vec3_Cross (front cam) (up cam) in
  let right := PFM_Vec3_Normal right in
  let vdelta := PFM_Vec3_Scale right (tdelta_speed cam curr) in
  let cam := set_pos cam (PFM_Vec3_Sub (pos cam) vdelta) in
  clamp_and_check cam.

Definition Camera_MoveFrontTick (cam : camera) : M camera :=
  let* cam := init_prev_frame_ts cam in
  let* curr := SDL_GetTicks in
  let vdelta := PFM_Vec3_Scale (front cam) (tdelta_speed cam curr) in
  let cam := set_pos cam (PFM_Vec3_Add (pos cam) vdelta) in
  clamp_and_check cam.

Definition Camera_MoveBackTick (cam : camera) : M camera :=
  let* cam := init_prev_frame_ts cam in
  let* curr := SDL_GetTicks in
  let vdelta := PFM_Vec3_Scale (front cam) (tdelta_speed cam curr) in
  let cam := set_pos cam (PFM_Vec3_Sub (pos cam) vdelta) in
  clamp_and_check cam.

(** [sqrt(pow(dir.x,2) + pow(dir.y,2) + pow(dir.z,2))], computed in
    double and stored to the float [mag]. *)
Definition magnitude (dir : vec3_t) : float :=
  let two := F64.of_Z 2 in
  F32.of_double
    (F64.sqrt (F64.add (F64.add (pow (F64.of_float (x dir)) two)
                                (pow (F64.of_float (y dir)) two))
                       (pow (F64.of_float (z dir)) two))).

Definition Camera_MoveDirectionTick (cam : camera) (dir : vec3_t) : M camera :=
  let* cam := init_prev_frame_ts cam in
  let mag := magnitude dir in
  if F32.eqb mag F32.zero then ret cam
  else
    let dir := PFM_Vec3_Normal dir in
    let* curr := SDL_GetTicks in
    let vdelta := PFM_Vec3_Scale dir (tdelta_speed cam curr) in
    let cam := set_pos cam (PFM_Vec3_Add (pos cam) vdelta) in
    clamp_and_check cam.

Definition Camera_ChangeDirection (cam : camera) (dx dy : Z) : camera :=
  let sdx := F32.mul (F32.of_Z dx) (sensitivity cam) in
  let sdy := F32.mul (F32.of_Z dy) (sensitivity cam) in
  let cam := set_yaw cam (F32.add (yaw cam) sdx) in
  let cam := set_pitch cam (F32.sub (pitch cam) sdy) in
  let cam := set_pitch cam (if F32.ltb (pitch cam) (F32.of_Z 89)
                            then pitch cam else F32.of_Z 89) in
  let cam := set_pitch cam (if F32.gtb (pitch cam) (F32.of_Z (-89))
                            then pitch cam else F32.of_Z (-89)) in
  update_front_up cam.
End WithMath.

Definition Camera_RestrictPosWithBox (cam : camera) (box : bound_box) : M camera :=
  let cam := set_bounds cam true box in
  check (negb (bounded cam) || camera_pos_in_bounds cam) in
  ret cam.

Definition Camera_UnrestrictPos (cam : camera) : M camera :=
  let cam := set_bounds cam false (bounds cam) in
  check (negb (bounded cam) || camera_pos_in_bounds cam) in
  ret cam.

(** ** The other extern functions *)

Definition set_speed (cam : camera) (v : float) : camera :=
  mk_camera v (sensitivity cam) (pos cam) (front cam) (up cam)
            (pitch cam) (yaw cam) (prev_frame_ts cam) (bounded cam) (bounds cam).
Definition set_sensitivity (cam : camera) (v : float) : camera :=
  mk_camera (speed cam) v (pos cam) (front cam) (up cam)
            (pitch cam) (yaw cam) (prev_frame_ts cam) (bounded cam) (bounds cam).

Definition Camera_SetSpeed (cam : camera) (speed : float) : camera :=
  set_speed cam speed.
Definition Camera_SetSens (cam : camera) (sensitivity : float) : camera :=
  set_sensitivity cam sensitivity.
Definition Camera_GetYaw (cam : camera) : float := yaw cam.
Definition Camera_GetPitch (cam : camera) : float := pitch cam.
Definition Camera_GetHeight (cam : camera) : float := y (pos cam).
Definition Camera_GetPos (cam : camera) : vec3_t := pos cam.
Definition Camera_PosIsRestricted (cam : camera) : bool := bounded cam.

(** [vec2_t] of pf_math.h, as camera.c reads it: [raw[0]] and [raw[1]]. *)
Record vec2_t := mk_vec2 { raw_0 : float; raw_1 : float }.

(** pf_math.h: the 4 x 4 matrices and the functions that build them, whose
    declarations and bodies are not among the sources. Each writes its
    last argument; here it returns it, and it is given the values of the
    argument expressions, whatever it converts them to. *)
Class PFMat := {
  mat4x4_t : Type;
  PFM_Mat4x4_MakeLookAt : vec3_t -> vec3_t -> vec3_t -> mat4x4_t;
  PFM_Mat4x4_MakePerspective : float -> float -> float -> float -> mat4x4_t;
  PFM_Mat4x4_MakeOrthographic :
    float -> float -> float -> float -> float -> float -> mat4x4_t
}.

(** The constants of camera.h and config.h that camera.c names. *)
Class Config := {
  CAM_Z_NEAR_DIST : float;
  CAM_FOV_RAD : float;
  CONFIG_DRAWDIST : float
}.

Section WithRender.
Context {pfm : PFMath} {trig : Trig} {pfmat : PFMat} {config : Config}.

(** The calls camera.c makes to the renderer (render.h). *)
Inductive render_call :=
| R_GL_SetViewMatAndPos (view : mat4x4_t) (pos : vec3_t)
| R_GL_SetProj (proj : mat4x4_t).

(** OpenGL and the renderer, as far as camera.c goes: the viewport that
    [glGetIntegerv(GL_VIEWPORT, viewport)] reads, as a function of the
    array index, and the calls made to the renderer so far, the oldest
    first. A call to the renderer is recorded; the viewport stays. *)
Record gl := mk_gl { viewport : nat -> Z; rendered : list render_call }.

Definition render (g : gl) (c : render_call) : gl :=
  mk_gl (viewport g) (rendered g ++ [c]).

(** [((GLfloat)viewport[2])/viewport[3]] *)
Definition aspect_ratio (g : gl) : float :=
  SFdiv F32.prec F32.emax (F32.of_Z (viewport g 2)) (F32.of_Z (viewport g 3)).

(** The float literal [0.1f]: 13421773 * 2^-27. *)
Definition f_0_1 : float := S754_finite false 13421773 (-27).

Definition Camera_TickFinishPerspective (cam : camera) (g : gl) : M (camera * gl) :=
  let target := PFM_Vec3_Add (pos cam) (front cam) in
  let view := PFM_Mat4x4_MakeLookAt (pos cam) target (up cam) in
  let g := render g (R_GL_SetViewMatAndPos view (pos cam)) in
  let proj := PFM_Mat4x4_MakePerspective (DEG_TO_RAD (F32.of_Z 45))
                (aspect_ratio g) CAM_Z_NEAR_DIST CONFIG_DRAWDIST in
  let g := render g (R_GL_SetProj proj) in
  let* t := SDL_GetTicks in
  ret (set_prev_frame_ts cam t, g).

Definition Camera_TickFinishOrthographic (cam : camera) (bot_left top_right : vec2_t)
    (g : gl) : M (camera * gl) :=
  let target := PFM_Vec3_Add (pos cam) (front cam) in
  let view := PFM_Mat4x4_MakeLookAt (pos cam) target (up cam) in
  let g := render g (R_GL_SetViewMatAndPos view (pos cam)) in
  let proj := PFM_Mat4x4_MakeOrthographic (raw_0 bot_left) (raw_0 top_right)
                (raw_1 bot_left) (raw_1 top_right) CAM_Z_NEAR_DIST CONFIG_DRAWDIST in
  let g := render g (R_GL_SetProj proj) in
  let* t := SDL_GetTicks in
  ret (set_prev_frame_ts cam t, g).

Definition Camera_MakeViewMat (cam : camera) : mat4x4_t :=
  let target := PFM_Vec3_Add (pos cam) (front cam) in
  PFM_Mat4x4_MakeLookAt (pos cam) target (up cam).

Definition Camera_MakeProjMat (cam : camera) (g : gl) : mat4x4_t :=
  PFM_Mat4x4_MakePerspective CAM_FOV_RAD (aspect_ratio g) f_0_1 CONFIG_DRAWDIST.
End WithRender.

(** ** The invariant, and the tick functions in closed form *)

(** A box with a finite corner and extents that are not negative. *)
Definition box_finite_nonneg (b : bound_box) : bool :=
  F32_finite (bx b) && F32_finite (bz b)
  && F32.leb F32.zero (bw b) && F32.leb F32.zero (bh b).

(** The condition that every function that writes [pos], [bounded] or
    [bounds] asserts before it returns,
    [!cam->bounded || camera_pos_in_bounds(cam)]: the invariant that the
    comment on the field [bounded] states. *)
Definition bounds_invariant (cam : camera) : bool :=
  negb (bounded cam) || camera_pos_in_bounds cam.

(** A function of the camera that returns from every state in which the
    invariant holds, with the invariant holding again. *)
Definition keeps_bounds_invariant (f : camera -> M camera) : Prop :=
  forall cam s, bounds_invariant cam = true ->
    exists cam' s', f cam s = Some (cam', s') /\ bounds_invariant cam' = true.

(** The camera once a tick function has made sure of the time stamp, the
    current time it then reads, and the clock after that reading. *)
Definition tick_start (cam : camera) (s : sdl) : camera :=
  set_prev_frame_ts cam
    (if prev_frame_ts cam =? 0 then uint32 (readings s (calls s)) else prev_frame_ts cam).
Definition tick_curr (cam : camera) (s : sdl) : Z :=
  uint32 (readings s (if prev_frame_ts cam =? 0 then S (calls s) else calls s)).
Definition tick_clock (cam : camera) (s : sdl) : sdl :=
  mk_sdl (readings s) (if prev_frame_ts cam =? 0 then S (S (calls s)) else S (calls s)).

Section Moves.
Context {pfm : PFMath} {pw : Pow}.

(** The five tick functions that move the camera, by name. *)
Inductive move :=
| MoveLeft | MoveRight | MoveFront | MoveBack | MoveDirection (dir : vec3_t).

Definition Camera_MoveTick (m : move) (cam : camera) : M camera :=
  match m with
  | MoveLeft => Camera_MoveLeftTick cam
  | MoveRight => Camera_MoveRightTick cam
  | MoveFront => Camera_MoveFrontTick cam
  | MoveBack => Camera_MoveBackTick cam
  | MoveDirection dir => Camera_MoveDirectionTick cam dir
  end.

(** Whether the function gets as far as moving: all do, but
    [Camera_MoveDirectionTick] with a direction of zero magnitude. *)
Definition gets_to_move (m : move) : bool :=
  match m with
  | MoveDirection dir => negb (F32.eqb (magnitude dir) F32.zero)
  | _ => true
  end.

(** The position each of them computes before the clamp, [tdelta] being
    the milliseconds since [prev_frame_ts]. *)
Definition moved_pos (m : move) (cam : camera) (tdelta : Z) : vec3_t :=
  let scale := F32.mul (F32.of_Z tdelta) (speed cam) in
  let right := PFM_Vec3_Normal (PFM_Vec3_Cross (front cam) (up cam)) in
  match m with
  | MoveLeft => PFM_Vec3_Add (pos cam) (PFM_Vec3_Scale right scale)
  | MoveRight => PFM_Vec3_Sub (pos cam) (PFM_Vec3_Scale right scale)
  | MoveFront => PFM_Vec3_Add (pos cam) (PFM_Vec3_Scale (front cam) scale)
  | MoveBack => PFM_Vec3_Sub (pos cam) (PFM_Vec3_Scale (front cam) scale)
  | MoveDirection dir =>
      PFM_Vec3_Add (pos cam) (PFM_Vec3_Scale (PFM_Vec3_Normal dir) scale)
  end.
End Moves.

(** ** Reference implementations and examples *)

(** A reference [pf_math]: component-wise float arithmetic. *)
Definition vec3_len (v : vec3_t) : float :=
  SFsqrt F32.prec F32.emax
    (F32.add (F32.add (F32.mul (x v) (x v)) (F32.mul (y v) (y v)))
             (F32.mul (z v) (z v))).

Definition pf_math_ref : PFMath := {|
  PFM_Vec3_Cross a b :=
    mk_vec3 (F32.sub (F32.mul (y a) (z b)) (F32.mul (z a) (y b)))
            (F32.sub (F32.mul (z a) (x b)) (F32.mul (x a) (z b)))
            (F32.sub (F32.mul (x a) (y b)) (F32.mul (y a) (x b)));
  PFM_Vec3_Normal a :=
    let len := vec3_len a in
    mk_vec3 (SFdiv F32.prec F32.emax (x a) len)
            (SFdiv F32.prec F32.emax (y a) len)
            (SFdiv F32.prec F32.emax (z a) len);
  PFM_Vec3_Scale a s := mk_vec3 (F32.mul (x a) s) (F32.mul (y a) s) (F32.mul (z a) s);
  PFM_Vec3_Add a b := mk_vec3 (F32.add (x a) (x b)) (F32.add (y a) (y b)) (F32.add (z a) (z b));
  PFM_Vec3_Sub a b := mk_vec3 (F32.sub (x a) (x b)) (F32.sub (y a) (y b)) (F32.sub (z a) (z b))
|}.

(** A [pow] that is right at the exponent camera.c uses, 2: the square of
    a float widened to double is exact. *)
Definition pow_square : Pow := fun a _ => F64.mul a a.

(** The box is not empty: its lower bounds are at most its upper bounds,
    as camera.c computes them. *)
Definition box_nonempty (b : bound_box) : bool :=
  F32.leb (F32.sub (bx b) (bw b)) (bx b) && F32.leb (bz b) (F32.add (bz b) (bh b)).

(** A tick function re-establishes the bounds invariant: whenever it
    returns on a bounded camera the position is inside the box, and on a
    box that is not empty it does return. *)
Definition reestablishes_bounds (f : camera -> M camera) : Prop :=
  forall cam s, bounded cam = true ->
    (forall cam' s', f cam s = Some (cam', s') ->
       F32.leb (F32.sub (bx (bounds cam')) (bw (bounds cam'))) (x (pos cam')) = true
       /\ F32.leb (x (pos cam')) (bx (bounds cam')) = true
       /\ F32.leb (bz (bounds cam')) (z (pos cam')) = true
       /\ F32.leb (z (pos cam')) (F32.add (bz (bounds cam')) (bh (bounds cam'))) = true)
    /\ (box_nonempty (bounds cam) = true ->
        exists cam' s', f cam s = Some (cam', s') /\ bounds cam' = bounds cam).

(** A camera restricted to the box x in [0, 10], z in [0, 10] that sits
    outside of it, at x = 100, and a clock that reads 7, 8, 9, ... *)
Definition box_10 : bound_box :=
  mk_box (F32.of_Z 10) F32.zero (F32.of_Z 10) (F32.of_Z 10).
Definition cam_outside : camera :=
  mk_camera (F32.of_Z 1) (F32.of_Z 1)
            (mk_vec3 (F32.of_Z 100) F32.zero (F32.of_Z 5))
            (mk_vec3 F32.zero F32.zero (F32.of_Z 1))
            (mk_vec3 F32.zero (F32.of_Z 1) F32.zero)
            F32.zero F32.zero 0 true box_10.
Definition sdl_7 : sdl := mk_sdl (fun n => 7 + Z.of_nat n) 0.
Definition dir_zero : vec3_t := mk_vec3 F32.zero F32.zero F32.zero.
Definition dir_x : vec3_t := mk_vec3 (F32.of_Z 1) F32.zero F32.zero.

(** A camera inside the box [box_10]; an unbounded camera stamped just
    before the 32-bit clock wraps around, and a clock that has wrapped:
    it reads 2^32 + 1, 2^32 + 2, ... *)
Definition cam_inside : camera :=
  set_pos cam_outside (mk_vec3 (F32.of_Z 5) F32.zero (F32.of_Z 5)).
Definition cam_free : camera :=
  mk_camera (F32.of_Z 1) (F32.of_Z 1)
            (mk_vec3 (F32.of_Z 100) F32.zero (F32.of_Z 5))
            (mk_vec3 F32.zero F32.zero (F32.of_Z 1))
            (mk_vec3 F32.zero (F32.of_Z 1) F32.zero)
            F32.zero F32.zero (2 ^ 32 - 1) false box_10.
Definition sdl_wrapped : sdl := mk_sdl (fun n => 2 ^ 32 + 1 + Z.of_nat n) 0.

(** Stand-ins for the examples that finish a frame. [DEG_TO_RAD] is the
    product with pi / 180 in double; the examples do not call [cos] and
    [sin]. A matrix is kept as the list of the arguments it was built
    from. The constants are those with which the two projections of
    camera.c agree. *)
Definition trig_ref : Trig := {|
  DEG_TO_RAD d := F64.mul (F64.of_float d) (S754_finite false 5030569068109113 (-58));
  cos _ := S754_nan;
  sin _ := S754_nan
|}.
Definition pf_mat_ref : PFMat := {|
  mat4x4_t := list float;
  PFM_Mat4x4_MakeLookAt p t u := [x p; y p; z p; x t; y t; z t; x u; y u; z u];
  PFM_Mat4x4_MakePerspective fov aspect near far := [fov; aspect; near; far];
  PFM_Mat4x4_MakeOrthographic l r b t near far := [l; r; b; t; near; far]
|}.
Definition config_ref : Config := {|
  CAM_Z_NEAR_DIST := f_0_1;
  CAM_FOV_RAD := DEG_TO_RAD (Trig := trig_ref) (F32.of_Z 45);
  CONFIG_DRAWDIST := F32.of_Z 1000
|}.
Definition gl_640_480 : gl (pfmat := pf_mat_ref) :=
  mk_gl (fun i => nth i [0; 0; 640; 480] 0) [].
End Camera.

(** * Exact numbers (a + b * sqrt 2) / 2 *)
Module Sqrt2.
Record t := mk { rat : Z; irr : Z }.

Definition zero : t := mk 0 0.
Definition add (a b : t) : t := mk (rat a + rat b) (irr a + irr b).
Definition sub (a b : t) : t := mk (rat a - rat b) (irr a - irr b).

(** Sign test for p + q * sqrt 2 >= 0, by comparing squares. *)
Definition nonneg (a : t) : bool :=
  match 0 <=? rat a, 0 <=? irr a with
  | true, true => true
  | false, false => false
  | true, false => 2 * (irr a * irr a) <=? rat a * rat a
  | false, true => rat a * rat a <=? 2 * (irr a * irr a)
  end.

Definition leb (a b : t) : bool := nonneg (sub b a).
Definition eqb (a b : t) : bool := (rat a =? rat b) && (irr a =? irr b).
Definition ltb (a b : t) : bool := leb a b && negb (eqb a b).

(** The real number a value stands for, and the order of the values. *)
Definition to_R (a : t) : R := ((IZR (rat a) + IZR (irr a) * sqrt 2) / 2)%R.
Definition le (x y : t) : Prop := (to_R x <= to_R y)%R.
Definition lt (x y : t) : Prop := (to_R x < to_R y)%R.
End Sqrt2.

(** * Navigation: cost grids and the flow-field solver *)
Module Nav.

(** A cell of a chunk's grid: (row, column). *)
Abbreviation cell := (Z * Z)%type.

(** Modelled from the spec: the Cost Grid of section 3, a 2D array of
    cells whose cost is in 1..254 or IMPASSABLE, with its chunk id and
    dimensions. The array is the function [cost] on
    [0, rows) x [0, cols); the chunk id is the place of the chunk on the
    map, (row, column) counted in chunks. *)
Inductive cell_cost := Cost (c : Z) | IMPASSABLE.

Record CostGrid := mk_grid {
  chunk_id : Z * Z;
  rows : Z;
  cols : Z;
  cost : Z -> Z -> cell_cost
}.

Definition in_grid (g : CostGrid) (c : cell) : bool :=
  (0 <=? c.1) && (c.1 <? rows g) && (0 <=? c.2) && (c.2 <? cols g).

(** The cells of the grid, row by row. *)
Definition cells (g : CostGrid) : list cell :=
  r ← seqZ 0 (rows g); (λ c, (r, c)) <$> seqZ 0 (cols g).

(** Modelled from the spec: the invariant of section 3, cost values are
    strictly positive or IMPASSABLE. *)
Definition cost_ok (k : cell_cost) : bool :=
  match k with
  | Cost c => (1 <=? c) && (c <=? 254)
  | IMPASSABLE => true
  end.
Definition grid_ok (g : CostGrid) : bool :=
  forallb (λ c, cost_ok (cost g c.1 c.2)) (cells g).

(** The cost of a cell that can be walked on: in the grid and not
    IMPASSABLE. *)
Definition passable (g : CostGrid) (c : cell) : option Z :=
  if in_grid g c then
    match cost g c.1 c.2 with
    | Cost k => Some k
    | IMPASSABLE => None
    end
  else None.

(** The 8 neighbours, in the fixed enumeration order of the solver. *)
Inductive direction :=
  North | NorthEast | East | SouthEast | South | SouthWest | West | NorthWest.
Definition directions : list direction :=
  [North; NorthEast; East; SouthEast; South; SouthWest; West; NorthWest].
Definition offset (d : direction) : Z * Z :=
  match d with
  | North => (-1, 0) | NorthEast => (-1, 1) | East => (0, 1) | SouthEast => (1, 1)
  | South => (1, 0) | SouthWest => (1, -1) | West => (0, -1) | NorthWest => (-1, -1)
  end.
Definition diagonal (d : direction) : bool :=
  match d with
  | NorthEast | SouthEast | SouthWest | NorthWest => true
  | _ => false
  end.
Definition neighbour (c : cell) (d : direction) : cell :=
  (c.1 + (offset d).1, c.2 + (offset d).2).

(** Modelled from the spec: the step cost of section 4.3, half the sum of
    the two cells' costs, scaled by 1 for a cardinal and by sqrt 2 for a
    diagonal step; there is no step from or into a cell that is
    IMPASSABLE or outside the grid. *)
Definition step_cost (g : CostGrid) (a : cell) (d : direction) : option Sqrt2.t :=
  match passable g a, passable g (neighbour a d) with
  | Some ca, Some cb =>
      Some (if diagonal d then Sqrt2.mk 0 (ca + cb) else Sqrt2.mk (ca + cb) 0)
  | _, _ => None
  end.

(** The state of a wavefront expansion: the integration values assigned
    so far and the cells expanded so far, in the order of expansion. *)
Record wavefront := mk_wave {
  integ : gmap cell Sqrt2.t;
  expanded : list cell
}.

(** Expanding from [a], whose value is [va], into its neighbour in
    direction [d]. *)
Definition relax (g : CostGrid) (a : cell) (va : Sqrt2.t)
           (w : wavefront) (d : direction) : wavefront :=
  let b := neighbour a d in
  match step_cost g a d with
  | None => w
  | Some k =>
      if bool_decide (b ∈ expanded w) then w
      else
        let nv := Sqrt2.add va k in
        match integ w !! b with
        | Some old =>
            if Sqrt2.ltb nv old then mk_wave (<[b := nv]> (integ w)) (expanded w)
            else w
        | None => mk_wave (<[b := nv]> (integ w)) (expanded w)
        end
  end.

Definition expand (g : CostGrid) (w : wavefront) (a : cell) : wavefront :=
  match integ w !! a with
  | Some va =>
      foldl (relax g a va) (mk_wave (integ w) (expanded w ++ [a])) directions
  | None => w
  end.

(** The front: cells that have a value and were not expanded yet. *)
Definition frontier (g : CostGrid) (w : wavefront) : list (cell * Sqrt2.t) :=
  omap (λ c, if bool_decide (c ∈ expanded w) then None
             else (λ v, (c, v)) <$> integ w !! c)
       (cells g).

Definition min_entry {K} (best : option (K * Sqrt2.t)) (e : K * Sqrt2.t)
  : option (K * Sqrt2.t) :=
  match best with
  | None => Some e
  | Some b => if Sqrt2.ltb e.2 b.2 then Some e else best
  end.

(** The cell of the front with the least value; among equal values, the
    first in row order. *)
Definition pick_min (g : CostGrid) (w : wavefront) : option cell :=
  fst <$> foldl min_entry None (frontier g w).

Fixpoint run (budget : nat) (g : CostGrid) (w : wavefront) : wavefront :=
  match budget with
  | O => w
  | S n =>
      match pick_min g w with
      | Some a => run n g (expand g w a)
      | None => w
      end
  end.

(** Every target cell of the grid starts with the value 0. *)
Definition seed (g : CostGrid) (targets : list cell) : wavefront :=
  mk_wave (foldr (λ t m, if in_grid g t then <[t := Sqrt2.zero]> m else m) ∅ targets) [].

(** The expansion budget: every cell is expanded at most once. *)
Definition budget (g : CostGrid) : nat := length (cells g).

Definition solve_wavefront (g : CostGrid) (targets : list cell) : wavefront :=
  run (budget g) g (seed g targets).

(** Fields: arrays of the grid's dimensions. *)
Inductive integ_cell := Value (v : Sqrt2.t) | UNREACHABLE.

(** A direction vector; [vx] runs along the columns, [vy] along the
    rows. *)
Record vec2 := mk_vec2 { vx : Sqrt2.t; vy : Sqrt2.t }.
Definition no_path : vec2 := mk_vec2 Sqrt2.zero Sqrt2.zero.
Definition unit_toward (d : direction) : vec2 :=
  let '(dr, dc) := offset d in
  if diagonal d then mk_vec2 (Sqrt2.mk 0 dc) (Sqrt2.mk 0 dr)
  else mk_vec2 (Sqrt2.mk (2 * dc) 0) (Sqrt2.mk (2 * dr) 0).

Definition IntegrationField := list (list integ_cell).
Definition FlowField := list (list vec2).

Definition tabulate {A} (g : CostGrid) (f : cell -> A) : list (list A) :=
  (λ r, (λ c, f (r, c)) <$> seqZ 0 (cols g)) <$> seqZ 0 (rows g).

Definition field_at {A} (F : list (list A)) (c : cell) : option A :=
  if (0 <=? c.1) && (0 <=? c.2)
  then F !! Z.to_nat c.1 ≫= (λ row, row !! Z.to_nat c.2)
  else None.

Definition integ_value (i : gmap cell Sqrt2.t) (c : cell) : integ_cell :=
  match i !! c with
  | Some v => Value v
  | None => UNREACHABLE
  end.

Definition min_dir (i : gmap cell Sqrt2.t) (c : cell)
           (best : option (direction * Sqrt2.t)) (d : direction)
  : option (direction * Sqrt2.t) :=
  match i !! neighbour c d with
  | None => best
  | Some v =>
      match best with
      | None => Some (d, v)
      | Some b => if Sqrt2.ltb v b.2 then Some (d, v) else best
      end
  end.

(** The neighbour with the least integration value; among equal values
    the first in the enumeration order. *)
Definition best_neighbour (i : gmap cell Sqrt2.t) (c : cell) : option direction :=
  fst <$> foldl (min_dir i c) None directions.

Definition flow_of (i : gmap cell Sqrt2.t) (c : cell) : vec2 :=
  match i !! c with
  | None => no_path
  | Some _ =>
      match best_neighbour i c with
      | Some d => unit_toward d
      | None => no_path
      end
  end.

(** Modelled from the spec: Solve of section 4.3, which is not among the
    sources. A multi-source wavefront seeded at the target cells with the
    value 0, expanded in the order of non-decreasing value over up to 8
    neighbours; then, for each reached cell, the unit vector toward the
    neighbour of least value, and for the others the zero vector and the
    unreachable sentinel. *)
Definition Solve (g : CostGrid) (targets : list cell)
  : IntegrationField * FlowField :=
  let w := solve_wavefront g targets in
  (tabulate g (integ_value (integ w)), tabulate g (flow_of (integ w))).

(** A grid from its rows; cells outside the rows are IMPASSABLE. *)
Definition grid_of_rows (id : Z * Z) (rws : list (list cell_cost)) : CostGrid :=
  mk_grid id (Z.of_nat (length rws))
          (Z.of_nat (length (default [] (head rws))))
          (λ r c, default IMPASSABLE (rws !! Z.to_nat r ≫= (λ row, row !! Z.to_nat c))).

(** ** What the claims speak of *)

(** Walks from a target cell: each step goes to one of the 8 neighbours
    and is charged its step cost. *)
Inductive walk (g : CostGrid) : cell → cell → Sqrt2.t → Prop :=
| walk_start t : in_grid g t = true → walk g t t Sqrt2.zero
| walk_step t b d k v :
    walk g t b v → step_cost g b d = Some k →
    walk g t (neighbour b d) (Sqrt2.add v k).

(** A cell is connected to the target region when a walk leads from a
    target cell to it. *)
Definition connected (g : CostGrid) (targets : list cell) (c : cell) : Prop :=
  ∃ t v, t ∈ targets ∧ walk g t c v.

Definition opposite (d : direction) : direction :=
  match d with
  | North => South | NorthEast => SouthWest | East => West | SouthEast => NorthWest
  | South => North | SouthWest => NorthEast | West => East | NorthWest => SouthEast
  end.

(** The passable neighbours of [c] that are closer to the target than
    [c], whose value is [v]: their integration value is less than [v]. *)
Definition closer_neighbours (g : CostGrid) (F : IntegrationField)
           (c : cell) (v : Sqrt2.t) : list (cell * Sqrt2.t) :=
  omap (λ d, let n := neighbour c d in
             match passable g n, field_at F n with
             | Some _, Some (Value vn) => if Sqrt2.ltb vn v then Some (n, vn) else None
             | _, _ => None
             end)
       directions.

Definition min_closer (g : CostGrid) (F : IntegrationField)
           (c : cell) (v : Sqrt2.t) : option Sqrt2.t :=
  snd <$> foldl min_entry None (closer_neighbours g F c v).

(** Two grids with the same dimensions and the same costs. *)
Definition same_grid (g1 g2 : CostGrid) : Prop :=
  rows g1 = rows g2 ∧ cols g1 = cols g2
  ∧ ∀ c, in_grid g1 c = true → cost g1 c.1 c.2 = cost g2 c.1 c.2.

(** Two lists of the same target cells. *)
Definition same_targets (t1 t2 : list cell) : Prop := ∀ c, c ∈ t1 ↔ c ∈ t2.

(** The invariant of the expansion. *)
Record Inv (g : CostGrid) (targets : list cell) (w : wavefront) : Prop := {
  inv_seed : ∀ t, t ∈ targets → in_grid g t = true → integ w !! t = Some Sqrt2.zero;
  inv_sound : ∀ c v, integ w !! c = Some v → ∃ t, t ∈ targets ∧ walk g t c v;
  inv_valued : ∀ a, a ∈ expanded w → is_Some (integ w !! a);
  inv_nodup : NoDup (expanded w);
  inv_order : ∀ a b va vb,
    a ∈ expanded w → b ∉ expanded w →
    integ w !! a = Some va → integ w !! b = Some vb → Sqrt2.le va vb;
  inv_relaxed : ∀ a d k va,
    a ∈ expanded w → integ w !! a = Some va → step_cost g a d = Some k →
    ∃ vb, integ w !! neighbour a d = Some vb ∧ Sqrt2.le vb (Sqrt2.add va k);
  inv_sorted : ∀ (i j : nat) a b va vb,
    (i ≤ j)%nat → expanded w !! i = Some a → expanded w !! j = Some b →
    integ w !! a = Some va → integ w !! b = Some vb → Sqrt2.le va vb;
  inv_parent : ∀ c v,
    integ w !! c = Some v →
    (c ∈ targets ∧ v = Sqrt2.zero)
    ∨ ∃ a d k va, a ∈ expanded w ∧ neighbour a d = c ∧ step_cost g a d = Some k
                  ∧ integ w !! a = Some va ∧ v = Sqrt2.add va k
}.

(** What holds while the cell [a], of value [va], is expanded from the
    state [w0], after the directions [ds] were tried. *)
Record Mid (g : CostGrid) (w0 : wavefront) (a : cell) (va : Sqrt2.t)
       (ds : list direction) (w : wavefront) : Prop := {
  mid_expanded : expanded w = expanded w0 ++ [a];
  mid_frozen : ∀ c, c ∈ expanded w → integ w !! c = integ w0 !! c;
  mid_new : ∀ c v,
    integ w !! c = Some v →
    integ w0 !! c = Some v
    ∨ ∃ d k, d ∈ ds ∧ neighbour a d = c ∧ step_cost g a d = Some k
             ∧ v = Sqrt2.add va k ∧ c ∉ expanded w;
  mid_decrease : ∀ c v0,
    integ w0 !! c = Some v0 → ∃ v, integ w !! c = Some v ∧ Sqrt2.le v v0;
  mid_offered : ∀ d k,
    d ∈ ds → step_cost g a d = Some k → neighbour a d ∉ expanded w →
    ∃ vb, integ w !! neighbour a d = Some vb ∧ Sqrt2.le vb (Sqrt2.add va k)
}.

Arguments inv_seed {g targets} w _.
Arguments inv_sound {g targets} w _.
Arguments inv_valued {g targets} w _.
Arguments inv_nodup {g targets} w _.
Arguments inv_order {g targets} w _.
Arguments inv_relaxed {g targets} w _.
Arguments inv_sorted {g targets} w _.
Arguments inv_parent {g targets} w _.
Arguments mid_expanded {g w0 a va} ds w _.

(** ** Example grids *)

(** The 5 x 5 grid of section 8: uniform cost 1, column 2 IMPASSABLE
    except in row 4. *)
Definition wall_row : list cell_cost := [Cost 1; Cost 1; IMPASSABLE; Cost 1; Cost 1].
Definition gap_row : list cell_cost := [Cost 1; Cost 1; Cost 1; Cost 1; Cost 1].
Definition grid_5x5 : CostGrid :=
  grid_of_rows (0, 0) [wall_row; wall_row; wall_row; wall_row; gap_row].

(** The same grid walled off in row 4 too: columns 0 and 1 are cut off
    from the target (4, 4). *)
Definition grid_walled : CostGrid :=
  grid_of_rows (0, 0) [wall_row; wall_row; wall_row; wall_row; wall_row].
End Nav.

(** * Navigation: portals between adjacent chunks *)
Module Portals.
Import Nav.

(** Modelled from the spec: the Portal of section 3, with its endpoint
    chunk ids, its range of boundary cells ([first], [width]) and its
    crossing cost, the mean of the costs of its boundary cells. [side]
    is the side of [from_chunk] the portal lies on. *)
Record Portal := mk_portal {
  from_chunk : Z * Z;
  to_chunk : Z * Z;
  side : direction;
  first : nat;
  width : nat;
  crossing_cost : Q
}.

(** The side of [a] on which [b] lies, for chunks that share a boundary. *)
Definition adjacency (a b : CostGrid) : option direction :=
  let '(ra, ca) := chunk_id a in
  let '(rb, cb) := chunk_id b in
  if (rb =? ra) && (cb =? ca + 1) then Some East
  else if (rb =? ra) && (cb =? ca - 1) then Some West
  else if (rb =? ra + 1) && (cb =? ca) then Some South
  else if (rb =? ra - 1) && (cb =? ca) then Some North
  else None.

(** The [i]-th cell of a grid along its side [d]. *)
Definition boundary_cell (g : CostGrid) (d : direction) (i : Z) : cell :=
  match d with
  | East => (i, cols g - 1)
  | West => (i, 0)
  | South => (rows g - 1, i)
  | _ => (0, i)
  end.

Definition boundary_length (g : CostGrid) (d : direction) : Z :=
  match d with
  | East | West => rows g
  | _ => cols g
  end.

(** The shared boundary, cell pair by cell pair: the sum of the two costs
    where both cells are passable. *)
Definition crossing (a b : CostGrid) (d : direction) (i : Z) : option Z :=
  match passable a (boundary_cell a d i),
        passable b (boundary_cell b (opposite d) i) with
  | Some ca, Some cb => Some (ca + cb)
  | _, _ => None
  end.

Definition shared_boundary (a b : CostGrid) (d : direction) : list (option Z) :=
  crossing a b d <$> seqZ 0 (Z.min (boundary_length a d) (boundary_length b d)).

(** A run of passable pairs: where it starts, how many pairs, and the sum
    of the costs of its cells. *)
Definition run : Type := nat * nat * Z.

Definition extend (cur : option run) (i : nat) (k : Z) : run :=
  match cur with
  | Some (s, w, sum) => (s, S w, sum + k)
  | None => (i, 1%nat, k)
  end.

Definition close (cur : option run) : list run :=
  match cur with
  | Some r => [r]
  | None => []
  end.

(** One pass over the boundary from index [i] on; [cur] is the run that
    is open at [i]. *)
Fixpoint scan (i : nat) (cur : option run) (bd : list (option Z)) : list run :=
  match bd with
  | [] => close cur
  | Some k :: bd' => scan (S i) (Some (extend cur i k)) bd'
  | None :: bd' => close cur ++ scan (S i) None bd'
  end.

Definition portal_of_run (a b : CostGrid) (d : direction) (r : run) : Portal :=
  let '(s, w, sum) := r in
  mk_portal (chunk_id a) (chunk_id b) d s w (sum # Pos.of_nat (2 * w)).

(** Modelled from the spec: BuildPortals of section 4.2, which is not
    among the sources. The shared boundary is scanned, the cells passable
    on both sides are grouped into maximal contiguous runs, and each run
    becomes one portal; there is no portal unless both grids exist and
    the chunks are adjacent. *)
Definition BuildPortals (a b : option CostGrid) : list Portal :=
  match a, b with
  | Some ga, Some gb =>
      match adjacency ga gb with
      | Some d => portal_of_run ga gb d <$> scan 0 None (shared_boundary ga gb d)
      | None => []
      end
  | _, _ => []
  end.

(** The pair at index [j] of a boundary is passable on both sides. *)
Definition open_at (bd : list (option Z)) (j : nat) : Prop :=
  ∃ k, bd !! j = Some (Some k).

(** [s], [w] is a maximal contiguous run of the boundary: [w] passable
    pairs from index [s] on, with no passable pair just before or just
    after. *)
Definition maximal_run (bd : list (option Z)) (s w : nat) : Prop :=
  (0 < w)%nat
  ∧ (∀ j, (s ≤ j < s + w)%nat → open_at bd j)
  ∧ (s = 0%nat ∨ ¬ open_at bd (s - 1))
  ∧ ¬ open_at bd (s + w).

(** The pair of facing cells at index [i] of the boundary between [a] and
    [b], which lies on the side [d] of [a], is passable on both sides:
    the cell of [a] and the cell of [b] are in their grids and neither is
    IMPASSABLE. *)
Definition passable_pair (a b : CostGrid) (d : direction) (i : nat) : Prop :=
  is_Some (passable a (boundary_cell a d (Z.of_nat i)))
  ∧ is_Some (passable b (boundary_cell b (opposite d) (Z.of_nat i))).

(** [s], [w] is a maximal contiguous run of pairs passable on both
    sides: [w] such pairs from index [s] on, and the pair just before
    and the pair just after, if there are any, are not. *)
Definition maximal_passable_run (a b : CostGrid) (d : direction) (s w : nat) : Prop :=
  (0 < w)%nat
  ∧ (∀ j, (s ≤ j < s + w)%nat → passable_pair a b d j)
  ∧ (s = 0%nat ∨ ¬ passable_pair a b d (s - 1))
  ∧ ¬ passable_pair a b d (s + w).

(** ** The chunk graph and the coarse route through it *)

(** Modelled from the spec: the Chunk Graph of section 3, chunk ids as
    nodes and portals as edges, several of them between one pair of
    neighbours. *)
Record ChunkGraph := mk_graph {
  nodes : list (Z * Z);
  edges : list Portal
}.

Definition build_graph (a b : CostGrid) : ChunkGraph :=
  mk_graph [chunk_id a; chunk_id b] (BuildPortals (Some a) (Some b)).

(** The distance between the centres of two adjacent chunks of one size:
    one chunk, along the axis they are adjacent on. *)
Definition centre_distance (a : CostGrid) (d : direction) : Z :=
  match d with
  | East | West => cols a
  | _ => rows a
  end.

(** Modelled from the spec: the edge weight of section 4.2, the distance
    between the chunk centres scaled by the portal's crossing cost. *)
Definition edge_weight (a : CostGrid) (p : Portal) : Q :=
  (inject_Z (centre_distance a (side p)) * crossing_cost p)%Q.

Definition lighter (a : CostGrid) (best : option Portal) (p : Portal) : option Portal :=
  match best with
  | None => Some p
  | Some q => if Qle_bool (edge_weight a q) (edge_weight a p) then best else Some p
  end.

(** Modelled from the spec: the route resolution of section 4.6 on the
    graph of two adjacent chunks, from the chunk [a] to the chunk [b]:
    the route crosses by the edge of least weight, the first of them
    among equals; without an edge there is no route (NoRouteFound). *)
Definition coarse_route (a b : CostGrid) : option Portal :=
  foldl (lighter a) None (edges (build_graph a b)).

(** The two grids side by side as one grid, [b] on the side [d] of
    [a]. *)
Definition join (a b : CostGrid) (d : direction) : CostGrid :=
  match d with
  | East =>
      mk_grid (chunk_id a) (rows a) (cols a + cols b)
              (λ r c, if c <? cols a then cost a r c else cost b r (c - cols a))
  | West =>
      mk_grid (chunk_id b) (rows a) (cols b + cols a)
              (λ r c, if c <? cols b then cost b r c else cost a r (c - cols b))
  | South =>
      mk_grid (chunk_id a) (rows a + rows b) (cols a)
              (λ r c, if r <? rows a then cost a r c else cost b (r - rows a) c)
  | _ =>
      mk_grid (chunk_id b) (rows b + rows a) (cols a)
              (λ r c, if r <? rows b then cost b r c else cost a (r - rows b) c)
  end.

Definition shift (off : Z * Z) (c : cell) : cell := (c.1 + off.1, c.2 + off.2).

(** Where the cells of [a] and of [b] lie in [join a b d]. *)
Definition offset_a (a b : CostGrid) (d : direction) : Z * Z :=
  match d with
  | East | South => (0, 0)
  | West => (0, cols b)
  | _ => (rows b, 0)
  end.
Definition offset_b (a b : CostGrid) (d : direction) : Z * Z :=
  match d with
  | East => (0, cols a)
  | South => (rows a, 0)
  | _ => (0, 0)
  end.

(** Modelled from the spec: the cost of a route from the cell [s] of
    chunk [a] to the cell [dst] of chunk [b] that crosses at the [i]-th
    cell of the boundary, leg by leg as in section 4.6: the value at [s]
    of the field of [a] whose target is the crossing cell, the step
    across the boundary, and the value at the facing cell of the field of
    [b] whose target is [dst]. *)
Definition route_cost (a b : CostGrid) (d : direction) (i : Z) (s dst : cell)
  : option Sqrt2.t :=
  match field_at (Solve a [boundary_cell a d i]).1 s,
        crossing a b d i,
        field_at (Solve b [dst]).1 (boundary_cell b (opposite d) i) with
  | Some (Value va), Some k, Some (Value vb) =>
      Some (Sqrt2.add (Sqrt2.add va (Sqrt2.mk k 0)) vb)
  | _, _, _ => None
  end.

(** The cells of a portal, as indices of the boundary. *)
Definition portal_range (p : Portal) : list Z :=
  seqZ (Z.of_nat (first p)) (Z.of_nat (width p)).

(** The cell of the portal nearest to [s]: where the field of [a] toward
    the portal leads. *)
Definition nearest_crossing (a : CostGrid) (p : Portal) (s : cell) : option Z :=
  fst <$> foldl min_entry None
    (omap (λ i, match field_at (Solve a [boundary_cell a (side p) i]).1 s with
                | Some (Value v) => Some (i, v)
                | _ => None
                end)
          (portal_range p)).

(** Modelled from the spec: the concatenated cost of the route through
    the portal [p], the legs of section 4.6 one after the other. *)
Definition concatenated_cost (a b : CostGrid) (p : Portal) (s dst : cell)
  : option Sqrt2.t :=
  match nearest_crossing a p s with
  | Some i => route_cost a b (side p) i s dst
  | None => None
  end.

(** Chunks of one size. *)
Definition same_size (a b : CostGrid) : Prop := rows a = rows b ∧ cols a = cols b.

(** What [cur] says of the boundary scanned so far. *)
Definition cur_ok (pre : list (option Z)) (cur : option run) : Prop :=
  match cur with
  | Some (s, w, _) =>
      (0 < w)%nat ∧ (s + w = length pre)%nat
      ∧ (∀ j, (s ≤ j < s + w)%nat → open_at pre j)
      ∧ (s = 0%nat ∨ ¬ open_at pre (s - 1))
  | None => pre = [] ∨ ∃ pre', pre = pre' ++ [None]
  end.

(** [g] lies in [g'] at the offset [off]. *)
Definition embeds (g g' : CostGrid) (off : Z * Z) : Prop :=
  ∀ c, in_grid g c = true →
       in_grid g' (shift off c) = true
       ∧ cost g' (shift off c).1 (shift off c).2 = cost g c.1 c.2.

(** ** Example chunks *)

(** Two adjacent 4 x 4 chunks of uniform cost 1. On the east side of
    [chunk_west_1_2] the rows 0 and 2, 3 are passable, a run of length 1
    and one of length 2; on that of [chunk_west_2_1] the rows 0, 1 and
    3. The west side of [chunk_east] is passable throughout. *)
Definition open_row : list cell_cost := [Cost 1; Cost 1; Cost 1; Cost 1].
Definition shut_row : list cell_cost := [Cost 1; Cost 1; Cost 1; IMPASSABLE].
Definition chunk_west_1_2 : CostGrid :=
  grid_of_rows (0, 0) [open_row; shut_row; open_row; open_row].
Definition chunk_west_2_1 : CostGrid :=
  grid_of_rows (0, 0) [open_row; open_row; shut_row; open_row].
Definition chunk_east : CostGrid :=
  grid_of_rows (0, 1) [open_row; open_row; open_row; open_row].

(** Chunks that differ on the other side of the boundary: a west chunk
    whose east side is passable throughout, an east chunk whose west side
    is passable in the rows 0 and 2, 3, and one whose west side is
    IMPASSABLE throughout. *)
Definition blocked_row : list cell_cost := [IMPASSABLE; Cost 1; Cost 1; Cost 1].
Definition chunk_west_open : CostGrid :=
  grid_of_rows (0, 0) [open_row; open_row; open_row; open_row].
Definition chunk_east_1_2 : CostGrid :=
  grid_of_rows (0, 1) [open_row; blocked_row; open_row; open_row].
Definition chunk_east_shut : CostGrid :=
  grid_of_rows (0, 1) [blocked_row; blocked_row; blocked_row; blocked_row].
End Portals.

(** * Part II: lemmas and theorems *)

(** * Facts on camera.c *)
Section CameraFacts.
Import Camera.
Local Open Scope cam_scope.

Lemma SFltb_SFleb a b : SFltb a b = true -> SFleb a b = true.
Proof. unfold SFltb, SFleb. destruct (SFcompare a b) as [[]|]; congruence. Qed.

Lemma SFcompare_refl a : a <> S754_nan -> SFcompare a a = Some Eq.
Proof.
  destruct a as [s|s| |s m e]; try congruence; intros _; simpl.
  - reflexivity.
  - destruct s; reflexivity.
  - rewrite Z.compare_refl, Pos.compare_cont_refl. destruct s; reflexivity.
Qed.

Lemma SFleb_refl_l a b : SFleb a b = true -> SFleb a a = true.
Proof.
  unfold SFleb. intros Hab.
  rewrite SFcompare_refl; [reflexivity|].
  intros ->. discriminate.
Qed.

Lemma SFleb_refl_r a b : SFleb a b = true -> SFleb b b = true.
Proof.
  unfold SFleb. intros Hab.
  rewrite SFcompare_refl; [reflexivity|].
  intros ->. destruct a; discriminate.
Qed.

Lemma MIN_le_r a b : SFleb b b = true -> SFleb (MIN a b) b = true.
Proof.
  unfold MIN, F32.ltb. intros Hb.
  destruct (SFltb a b) eqn:E; [now apply SFltb_SFleb | exact Hb].
Qed.

Lemma MAX_ge_r a b : SFleb b b = true -> SFleb b (MAX a b) = true.
Proof.
  unfold MAX, F32.gtb. intros Hb.
  destruct (SFltb b a) eqn:E; [now apply SFltb_SFleb | exact Hb].
Qed.

Lemma MAX_le a b c : SFleb a c = true -> SFleb b c = true -> SFleb (MAX a b) c = true.
Proof. unfold MAX. intros. now destruct (F32.gtb a b). Qed.

Lemma MIN_ge a b c : SFleb c a = true -> SFleb c b = true -> SFleb c (MIN a b) = true.
Proof. unfold MIN. intros. now destruct (F32.ltb a b). Qed.

(** The clamp puts any position, NaN included, inside a box that is not
    empty. *)
Lemma camera_move_within_bounds_in_bounds cam :
  box_nonempty (bounds cam) = true ->
  camera_pos_in_bounds (camera_move_within_bounds cam) = true.
Proof.
  unfold box_nonempty, F32.leb. intros [Hx Hz]%andb_prop.
  unfold camera_pos_in_bounds, camera_move_within_bounds, F32.leb, F32.geb; simpl.
  rewrite !andb_true_iff. repeat split.
  - apply MAX_le; [|exact Hx]. apply MIN_le_r. now apply SFleb_refl_r in Hx.
  - apply MAX_ge_r. now apply SFleb_refl_l in Hx.
  - apply MIN_ge; [|exact Hz]. apply MAX_ge_r. now apply SFleb_refl_l in Hz.
  - apply MIN_le_r. now apply SFleb_refl_r in Hz.
Qed.

Lemma in_bounds_unfold cam :
  camera_pos_in_bounds cam = true ->
  F32.leb (F32.sub (bx (bounds cam)) (bw (bounds cam))) (x (pos cam)) = true
  /\ F32.leb (x (pos cam)) (bx (bounds cam)) = true
  /\ F32.leb (bz (bounds cam)) (z (pos cam)) = true
  /\ F32.leb (z (pos cam)) (F32.add (bz (bounds cam)) (bh (bounds cam))) = true.
Proof.
  unfold camera_pos_in_bounds, F32.geb.
  rewrite !andb_true_iff. tauto.
Qed.

Lemma init_prev_frame_ts_spec cam s :
  exists s',
    init_prev_frame_ts cam s =
      Some (set_prev_frame_ts cam
              (if prev_frame_ts cam =? 0 then uint32 (readings s (calls s))
               else prev_frame_ts cam), s').
Proof.
  unfold init_prev_frame_ts.
  destruct (prev_frame_ts cam =? 0) eqn:E.
  - eexists. reflexivity.
  - exists s. destruct cam; reflexivity.
Qed.

Lemma clamp_and_check_spec cam s :
  bounded cam = true ->
  (forall cam' s', clamp_and_check cam s = Some (cam', s') ->
     camera_pos_in_bounds cam' = true)
  /\ (box_nonempty (bounds cam) = true ->
      exists cam', clamp_and_check cam s = Some (cam', s) /\ bounds cam' = bounds cam).
Proof.
  intros Hb. unfold clamp_and_check, bind, assert, ret. rewrite Hb.
  change (bounded (camera_move_within_bounds cam)) with (bounded cam).
  rewrite Hb. cbn [negb orb]. split.
  - intros cam' s'.
    destruct (camera_pos_in_bounds (camera_move_within_bounds cam)) eqn:E; [|discriminate].
    intros [= <- _]. exact E.
  - intros Hne. rewrite camera_move_within_bounds_in_bounds by exact Hne.
    eexists. split; reflexivity.
Qed.

(** Every tick function that moves has one shape: set the time stamp if
    it is zero, read the clock, move, clamp, check. *)
Lemma tick_shape (move : camera -> Z -> vec3_t) :
  reestablishes_bounds
    (fun cam => let* cam := init_prev_frame_ts cam in
                let* curr := SDL_GetTicks in
                clamp_and_check (set_pos cam (move cam curr))).
Proof.
  intros cam s Hb. unfold bind, SDL_GetTicks.
  destruct (init_prev_frame_ts_spec cam s) as [s1 ->].
  set (cam1 := set_prev_frame_ts cam _).
  set (curr := uint32 _). set (s2 := mk_sdl _ _).
  assert (Hb1 : bounded (set_pos cam1 (move cam1 curr)) = true) by exact Hb.
  destruct (clamp_and_check_spec _ s2 Hb1) as [Hret Htot].
  split.
  - intros cam' s' Hrun. apply in_bounds_unfold. eapply Hret. exact Hrun.
  - intros Hne. destruct (Htot Hne) as [cam' [Hrun Hbd]].
    exists cam', s2. split; [exact Hrun | exact Hbd].
Qed.

Context `{PFMath} `{Pow}.

Lemma Camera_MoveLeftTick_bounds : reestablishes_bounds Camera_MoveLeftTick.
Proof.
  exact (tick_shape (fun cam curr =>
    PFM_Vec3_Add (pos cam)
      (PFM_Vec3_Scale (PFM_Vec3_Normal (PFM_Vec3_Cross (front cam) (up cam)))
                      (tdelta_speed cam curr)))).
Qed.

Lemma Camera_MoveRightTick_bounds : reestablishes_bounds Camera_MoveRightTick.
Proof.
  exact (tick_shape (fun cam curr =>
    PFM_Vec3_Sub (pos cam)
      (PFM_Vec3_Scale (PFM_Vec3_Normal (PFM_Vec3_Cross (front cam) (up cam)))
                      (tdelta_speed cam curr)))).
Qed.

Lemma Camera_MoveFrontTick_bounds : reestablishes_bounds Camera_MoveFrontTick.
Proof.
  exact (tick_shape (fun cam curr =>
    PFM_Vec3_Add (pos cam) (PFM_Vec3_Scale (front cam) (tdelta_speed cam curr)))).
Qed.

Lemma Camera_MoveBackTick_bounds : reestablishes_bounds Camera_MoveBackTick.
Proof.
  exact (tick_shape (fun cam curr =>
    PFM_Vec3_Sub (pos cam) (PFM_Vec3_Scale (front cam) (tdelta_speed cam curr)))).
Qed.

Lemma Camera_MoveDirectionTick_bounds dir :
  F32.eqb (magnitude dir) F32.zero = false ->
  reestablishes_bounds (fun cam => Camera_MoveDirectionTick cam dir).
Proof.
  intros Hmag cam s.
  pose proof (tick_shape (fun cam curr =>
    PFM_Vec3_Add (pos cam)
      (PFM_Vec3_Scale (PFM_Vec3_Normal dir) (tdelta_speed cam curr))) cam s) as Hs.
  unfold Camera_MoveDirectionTick. rewrite Hmag. exact Hs.
Qed.

(** With a direction of zero magnitude [Camera_MoveDirectionTick] returns
    before it moves, clamps or checks. *)
Lemma Camera_MoveDirectionTick_zero cam dir s :
  F32.eqb (magnitude dir) F32.zero = true ->
  exists s',
    Camera_MoveDirectionTick cam dir s =
      Some (set_prev_frame_ts cam
              (if prev_frame_ts cam =? 0 then uint32 (readings s (calls s))
               else prev_frame_ts cam), s').
Proof.
  intros Hmag. unfold Camera_MoveDirectionTick, bind.
  destruct (init_prev_frame_ts_spec cam s) as [s1 ->].
  rewrite Hmag. exists s1. reflexivity.
Qed.

End CameraFacts.

Section CameraClaims.
Import Camera.

(** C8, as amended. On a bounded camera, and wherever the position was
    before the call (NaN included): whenever [Camera_MoveLeftTick],
    [Camera_MoveRightTick], [Camera_MoveFrontTick], [Camera_MoveBackTick],
    or [Camera_MoveDirectionTick] with a direction of non-zero magnitude
    returns, bounds.x - bounds.w <= pos.x <= bounds.x and
    bounds.z <= pos.z <= bounds.z + bounds.h hold; and they do return when
    the box is not empty (bounds.x - bounds.w <= bounds.x and
    bounds.z <= bounds.z + bounds.h), the clamp having put the position in
    the box. With a direction of zero magnitude
    [Camera_MoveDirectionTick] returns the position it was given. *)
Theorem tick_moves_reestablish_bounds `{PFMath} `{Pow} :
  reestablishes_bounds Camera_MoveLeftTick
  /\ reestablishes_bounds Camera_MoveRightTick
  /\ reestablishes_bounds Camera_MoveFrontTick
  /\ reestablishes_bounds Camera_MoveBackTick
  /\ (forall dir, F32.eqb (magnitude dir) F32.zero = false ->
      reestablishes_bounds (fun cam => Camera_MoveDirectionTick cam dir))
  /\ (forall dir cam s, F32.eqb (magnitude dir) F32.zero = true ->
      exists cam' s', Camera_MoveDirectionTick cam dir s = Some (cam', s')
                      /\ pos cam' = pos cam /\ bounds cam' = bounds cam).
Proof.
  split; [apply Camera_MoveLeftTick_bounds|].
  split; [apply Camera_MoveRightTick_bounds|].
  split; [apply Camera_MoveFrontTick_bounds|].
  split; [apply Camera_MoveBackTick_bounds|].
  split; [apply Camera_MoveDirectionTick_bounds|].
  intros dir cam s Hmag.
  destruct (Camera_MoveDirectionTick_zero cam dir s Hmag) as [s' Hrun].
  eexists _, s'. split; [exact Hrun|]. split; reflexivity.
Qed.

(** The camera at x = 100 is brought back to the box [0, 10] by a move
    along a direction of magnitude 1. *)
Lemma tick_moves_reestablish_bounds_witness :
  F32.eqb (magnitude (pw := pow_square) dir_x) F32.zero = false
  /\ bounded cam_outside = true
  /\ box_nonempty (bounds cam_outside) = true
  /\ exists cam' s',
       Camera_MoveDirectionTick (pfm := pf_math_ref) (pw := pow_square)
         cam_outside dir_x sdl_7 = Some (cam', s')
       /\ F32.leb (F32.sub (bx (bounds cam')) (bw (bounds cam'))) (x (pos cam')) = true
       /\ F32.leb (x (pos cam')) (bx (bounds cam')) = true.
Proof.
  split; [vm_compute; reflexivity|].
  split; [reflexivity|].
  split; [vm_compute; reflexivity|].
  destruct (@tick_moves_reestablish_bounds pf_math_ref pow_square)
    as (_ & _ & _ & _ & Hdir & _).
  destruct (Hdir dir_x ltac:(vm_compute; reflexivity) cam_outside sdl_7 eq_refl)
    as [Hret Htot].
  destruct (Htot ltac:(vm_compute; reflexivity)) as (cam' & s' & Hrun & _).
  exists cam', s'. split; [exact Hrun|].
  destruct (Hret cam' s' Hrun) as (Hlo & Hhi & _). split; assumption.
Defined.

(** C8, as stated, fails: the camera at x = 100, outside its box [0, 10]
    (w = h = 10), stays at x = 100 when [Camera_MoveDirectionTick] is given
    the zero vector. *)
Lemma move_direction_zero_keeps_outside :
  bounded cam_outside = true
  /\ F32.leb F32.zero (bw (bounds cam_outside)) = true
  /\ F32.leb F32.zero (bh (bounds cam_outside)) = true
  /\ Camera_MoveDirectionTick (pfm := pf_math_ref) (pw := pow_square)
       cam_outside dir_zero sdl_7
     = Some (set_prev_frame_ts cam_outside 7, mk_sdl (readings sdl_7) 1)
  /\ x (pos (set_prev_frame_ts cam_outside 7)) = F32.of_Z 100
  /\ F32.leb (x (pos (set_prev_frame_ts cam_outside 7)))
             (bx (bounds (set_prev_frame_ts cam_outside 7))) = false.
Proof. repeat split; vm_compute; reflexivity. Qed.

(** C9. After [Camera_ChangeDirection] the pitch lies in [-89, 89],
    whatever it was before (NaN and infinities included) and whatever
    (dx, dy) is; [Camera_SetPitchAndYaw] stores the pitch it is given,
    unclamped; the yaw is the unclamped sum yaw + dx * sensitivity. *)
Theorem Camera_ChangeDirection_pitch_clamped `{PFMath} `{Trig} :
  forall (cam : camera) (dx dy : Z),
    (F32.leb (F32.of_Z (-89)) (pitch (Camera_ChangeDirection cam dx dy)) = true
     /\ F32.leb (pitch (Camera_ChangeDirection cam dx dy)) (F32.of_Z 89) = true)
    /\ yaw (Camera_ChangeDirection cam dx dy)
       = F32.add (yaw cam) (F32.mul (F32.of_Z dx) (sensitivity cam))
    /\ forall p yw : float,
         pitch (Camera_SetPitchAndYaw cam p yw) = p
         /\ yaw (Camera_SetPitchAndYaw cam p yw) = yw
         /\ F32.leb (F32.of_Z (-89))
              (pitch (Camera_ChangeDirection (Camera_SetPitchAndYaw cam p yw) dx dy)) = true
         /\ F32.leb
              (pitch (Camera_ChangeDirection (Camera_SetPitchAndYaw cam p yw) dx dy))
              (F32.of_Z 89) = true.
Proof.
  assert (Hclamp : forall (cam : camera) (dx dy : Z),
    F32.leb (F32.of_Z (-89)) (pitch (Camera_ChangeDirection cam dx dy)) = true
    /\ F32.leb (pitch (Camera_ChangeDirection cam dx dy)) (F32.of_Z 89) = true).
  { intros cam dx dy.
    unfold Camera_ChangeDirection, update_front_up. cbn [pitch set_up set_front set_pitch set_yaw].
    set (p0 := F32.sub (pitch cam) _).
    unfold F32.ltb, F32.gtb, F32.leb.
    destruct (SFltb p0 (F32.of_Z 89)) eqn:E1.
    - destruct (SFltb (F32.of_Z (-89)) p0) eqn:E2.
      + split; now apply SFltb_SFleb.
      + split; reflexivity.
    - destruct (SFltb (F32.of_Z (-89)) (F32.of_Z 89)) eqn:E2.
      + split; reflexivity.
      + discriminate E2. }
  intros cam dx dy. split; [apply Hclamp|]. split; [reflexivity|].
  intros p yw. split; [reflexivity|]. split; [reflexivity|]. apply Hclamp.
Qed.

(** C10. With a direction of zero magnitude [Camera_MoveDirectionTick]
    returns a camera whose pos, front, up, pitch, yaw, speed, sensitivity,
    bounded and bounds are those it was given; prev_frame_ts is the clock
    reading if it was zero and is unchanged otherwise. *)
Theorem Camera_MoveDirectionTick_zero_frame `{PFMath} `{Pow} :
  forall (cam : camera) (dir : vec3_t) (s : sdl),
    F32.eqb (magnitude dir) F32.zero = true ->
    exists cam' s',
      Camera_MoveDirectionTick cam dir s = Some (cam', s')
      /\ pos cam' = pos cam /\ front cam' = front cam /\ up cam' = up cam
      /\ pitch cam' = pitch cam /\ yaw cam' = yaw cam
      /\ speed cam' = speed cam /\ sensitivity cam' = sensitivity cam
      /\ bounded cam' = bounded cam /\ bounds cam' = bounds cam
      /\ prev_frame_ts cam'
         = (if prev_frame_ts cam =? 0 then uint32 (readings s (calls s))
            else prev_frame_ts cam).
Proof.
  intros cam dir s Hmag.
  destruct (Camera_MoveDirectionTick_zero cam dir s Hmag) as [s' Hrun].
  eexists _, s'. split; [exact Hrun|]. repeat split; reflexivity.
Qed.

(** The zero vector has magnitude zero; the time stamp 0 becomes the
    clock's 7. *)
Lemma Camera_MoveDirectionTick_zero_frame_witness :
  F32.eqb (magnitude (pw := pow_square) dir_zero) F32.zero = true
  /\ exists cam' s',
       Camera_MoveDirectionTick (pfm := pf_math_ref) (pw := pow_square)
         cam_outside dir_zero sdl_7 = Some (cam', s')
       /\ pos cam' = pos cam_outside /\ prev_frame_ts cam' = 7.
Proof.
  split; [vm_compute; reflexivity|].
  destruct (@Camera_MoveDirectionTick_zero_frame pf_math_ref pow_square
              cam_outside dir_zero sdl_7 ltac:(vm_compute; reflexivity))
    as (cam' & s' & Hrun & Hpos & _ & _ & _ & _ & _ & _ & _ & _ & Hts).
  exists cam', s'. split; [exact Hrun|]. split; [exact Hpos|exact Hts].
Defined.
End CameraClaims.

(** * The order of floats *)
Section FloatOrder.

Ltac sf_step :=
  match goal with
  | |- context [Z.compare ?a ?b] => destruct (Z.compare_spec a b)
  | H : context [Z.compare ?a ?b] |- _ => destruct (Z.compare_spec a b)
  | |- context [Pos.compare_cont Eq ?a ?b] =>
      change (Pos.compare_cont Eq a b) with (Pos.compare a b) in *;
      destruct (Pos.compare_spec a b)
  | H : context [Pos.compare_cont Eq ?a ?b] |- _ =>
      change (Pos.compare_cont Eq a b) with (Pos.compare a b) in *;
      destruct (Pos.compare_spec a b)
  end.

(** Comparisons of floats decided by cases on the operands: the class,
    the sign, and the order of the exponents and of the mantissas. *)
Ltac sf_order :=
  unfold Camera.MAX, Camera.MIN, F32.ltb, F32.gtb, F32.leb, F32.eqb, SFleb, SFltb, SFeqb;
  repeat match goal with
         | x : spec_float |- _ => destruct x as [[]|[]| |[] ? ?]
         end;
  simpl; try discriminate; try reflexivity; intros;
  repeat (sf_step; subst; simpl in *; try discriminate; try lia);
  try reflexivity; try lia; try congruence.

Lemma SFleb_trans (a b c : spec_float) :
  SFleb a b = true -> SFleb b c = true -> SFleb a c = true.
Proof. sf_order. Qed.

Lemma SFleb_nan_r (a : spec_float) : SFleb a S754_nan = false.
Proof. now destruct a. Qed.

Lemma F32_sub_nan_r (a : spec_float) : F32.sub a S754_nan = S754_nan.
Proof. now destruct a. Qed.

Lemma F32_add_nan_r (a : spec_float) : F32.add a S754_nan = S754_nan.
Proof. now destruct a. Qed.

(** [MAX (MIN v hi) lo], as the clamp computes x: inside the range the
    value is kept, above it or NaN it becomes [hi], below it [lo]. *)
Lemma clamp_hi_lo (v lo hi : spec_float) :
  SFleb lo hi = true ->
  (SFleb lo v = true -> SFleb v hi = true ->
   SFeqb (Camera.MAX (Camera.MIN v hi) lo) v = true)
  /\ (SFltb lo v = true -> SFltb v hi = true -> Camera.MAX (Camera.MIN v hi) lo = v)
  /\ (SFleb v hi = false -> SFeqb (Camera.MAX (Camera.MIN v hi) lo) hi = true)
  /\ (SFleb v hi = true -> SFleb lo v = false ->
      Camera.MAX (Camera.MIN v hi) lo = lo).
Proof. intros Hbox. repeat split; revert Hbox; sf_order. Qed.

(** [MIN (MAX v lo) hi], as the clamp computes z: inside the range the
    value is kept, below it or NaN it becomes [lo], above it [hi]. *)
Lemma clamp_lo_hi (v lo hi : spec_float) :
  SFleb lo hi = true ->
  (SFleb lo v = true -> SFleb v hi = true ->
   SFeqb (Camera.MIN (Camera.MAX v lo) hi) v = true)
  /\ (SFltb lo v = true -> SFltb v hi = true -> Camera.MIN (Camera.MAX v lo) hi = v)
  /\ (SFleb lo v = false -> SFeqb (Camera.MIN (Camera.MAX v lo) hi) lo = true)
  /\ (SFleb lo v = true -> SFleb v hi = false ->
      Camera.MIN (Camera.MAX v lo) hi = hi).
Proof. intros Hbox. repeat split; revert Hbox; sf_order. Qed.

Lemma SFltb_irrefl (a : spec_float) : SFltb a a = false.
Proof.
  unfold SFltb. destruct a as [[]|[]| |[] m e]; simpl; try reflexivity;
    rewrite Z.compare_refl, Pos.compare_cont_refl; reflexivity.
Qed.

Ltac ltb_cases :=
  repeat match goal with
         | H : SFltb ?a ?b = _ |- context [SFltb ?a ?b] => rewrite H
         | |- context [SFltb ?a ?a] => rewrite (SFltb_irrefl a)
         | |- context [if SFltb ?a ?b then _ else _] =>
             is_var a; is_var b; destruct (SFltb a b) eqn:?
         end;
  try reflexivity; try congruence.

(** Clamping a clamped value changes nothing, whatever the three floats
    are. *)
Lemma clamp_hi_lo_idem (v lo hi : spec_float) :
  Camera.MAX (Camera.MIN (Camera.MAX (Camera.MIN v hi) lo) hi) lo
  = Camera.MAX (Camera.MIN v hi) lo.
Proof. unfold Camera.MAX, Camera.MIN, F32.gtb, F32.ltb. ltb_cases. Qed.

Lemma clamp_lo_hi_idem (v lo hi : spec_float) :
  Camera.MIN (Camera.MAX (Camera.MIN (Camera.MAX v lo) hi) lo) hi
  = Camera.MIN (Camera.MAX v lo) hi.
Proof. unfold Camera.MAX, Camera.MIN, F32.gtb, F32.ltb. ltb_cases. Qed.

End FloatOrder.

(** * Rounding to a format

    [binary_round] from the Standard Library's specification of IEEE-754
    arithmetic, for any precision: what it computes, and that it is
    monotone against the numbers of the format. *)
Section Rounding.
Variables prec emax : Z.
Hypothesis Hprec : 0 < prec.

Lemma digits2_pos_size p : digits2_pos p = Pos.size p.
Proof. induction p; simpl; congruence. Qed.

Lemma digits2_bounds p :
  2 ^ (Zpos (digits2_pos p) - 1) <= Zpos p < 2 ^ Zpos (digits2_pos p).
Proof.
  rewrite digits2_pos_size. split.
  - pose proof (Pos.size_le p) as H.
    assert (H' : 2 ^ Zpos (Pos.size p) <= 2 * Zpos p).
    { rewrite <- Pos2Z.inj_pow. change (2 * Zpos p) with (Zpos p~0). exact H. }
    replace (Zpos (Pos.size p)) with (Zpos (Pos.size p) - 1 + 1) in H' by lia.
    rewrite Z.pow_add_r in H' by lia. lia.
  - pose proof (Pos.size_gt p) as H. rewrite <- Pos2Z.inj_pow. exact H.
Qed.

Lemma digits2_le p q k :
  0 <= k -> Zpos p <= Zpos q * 2 ^ k ->
  Zpos (digits2_pos p) <= Zpos (digits2_pos q) + k.
Proof.
  intros Hk Hle.
  pose proof (digits2_bounds p) as [Hp _]. pose proof (digits2_bounds q) as [_ Hq].
  assert (H : 2 ^ (Zpos (digits2_pos p) - 1) < 2 ^ (Zpos (digits2_pos q) + k)).
  { rewrite Z.pow_add_r by lia. 
    assert (0 < 2 ^ k) by (apply Z.pow_pos_nonneg; lia). nia. }
  apply Z.pow_lt_mono_r_iff in H; lia.
Qed.

Lemma digits2_ge p q k :
  0 <= k -> Zpos q * 2 ^ k <= Zpos p ->
  Zpos (digits2_pos q) + k <= Zpos (digits2_pos p).
Proof.
  intros Hk Hle.
  pose proof (digits2_bounds p) as [_ Hp]. pose proof (digits2_bounds q) as [Hq _].
  assert (H : 2 ^ (Zpos (digits2_pos q) - 1 + k) < 2 ^ (Zpos (digits2_pos p))).
  { rewrite Z.pow_add_r by lia.
    assert (0 < 2 ^ k) by (apply Z.pow_pos_nonneg; lia). nia. }
  apply Z.pow_lt_mono_r_iff in H; lia.
Qed.


Lemma iter_pos_nat {A} (f : A -> A) p x :
  SpecFloat.iter_pos f p x = Nat.iter (Pos.to_nat p) f x.
Proof.
  revert x. induction p as [p IH|p IH|]; intros x; cbn [SpecFloat.iter_pos].
  - rewrite !IH. rewrite Pos2Nat.inj_xI.
    replace (S (2 * Pos.to_nat p))%nat with (Pos.to_nat p + S (Pos.to_nat p))%nat by lia.
    rewrite Nat.iter_add, Nat.iter_succ_r. reflexivity.
  - rewrite !IH. rewrite Pos2Nat.inj_xO.
    replace (2 * Pos.to_nat p)%nat with (Pos.to_nat p + Pos.to_nat p)%nat by lia.
    rewrite Nat.iter_add. reflexivity.
  - reflexivity.
Qed.

Lemma shr_1_nonneg m r s :
  0 <= m ->
  shr_1 (Build_shr_record m r s) = Build_shr_record (m / 2) (Z.odd m) (r || s).
Proof.
  intros Hm. destruct m as [|[p|p|]|p]; try lia; simpl.
  - reflexivity.
  - f_equal. change (Zpos p~1) with (1 + 2 * Zpos p).
    rewrite Z.add_comm, Z.mul_comm, Z.div_add_l by lia. reflexivity.
  - f_equal. change (Zpos p~0) with (2 * Zpos p).
    now rewrite Z.mul_comm, Z.div_mul by lia.
  - reflexivity.
Qed.

(** [n] shifts to the right: the quotient, and whether anything was
    lost. *)
Lemma shr_iter m n :
  0 <= m ->
  let mrs := Nat.iter n shr_1 (Build_shr_record m false false) in
  shr_m mrs = m / 2 ^ Z.of_nat n
  /\ (shr_r mrs || shr_s mrs = false <-> (2 ^ Z.of_nat n | m)).
Proof.
  intros Hm. induction n as [|n IH].
  - simpl. split; [now rewrite Z.div_1_r|]. split; [intros _; apply Z.divide_1_l|reflexivity].
  - cbv zeta in *. rewrite Nat.iter_succ.
    destruct (Nat.iter n shr_1 _) as [mn rn sn]. cbn [shr_m shr_r shr_s] in IH.
    destruct IH as [IHm IHrs].
    assert (Hpow : 0 < 2 ^ Z.of_nat n) by (apply Z.pow_pos_nonneg; lia).
    assert (Hmn : 0 <= mn) by (rewrite IHm; apply Z.div_pos; lia).
    rewrite (shr_1_nonneg mn rn sn Hmn). cbn [shr_m shr_r shr_s].
    rewrite Nat2Z.inj_succ, Z.pow_succ_r by lia. split.
    + rewrite IHm, Z.div_div by lia. now rewrite (Z.mul_comm 2).
    + rewrite orb_false_iff, IHrs. rewrite <- Z.negb_even, negb_false_iff.
      rewrite IHm. split.
      * intros [Hev [q Hq]]. rewrite Hq, Z.div_mul in Hev by lia.
        apply Z.even_spec in Hev as [k Hk]. exists k. rewrite Hq, Hk. ring.
      * intros [k Hk]. split.
        -- rewrite Hk. replace (k * (2 * 2 ^ Z.of_nat n)) with (k * 2 * 2 ^ Z.of_nat n) by ring.
           rewrite Z.div_mul by lia. rewrite Z.even_mul. cbn. apply orb_true_r.
        -- exists (k * 2). rewrite Hk. ring.
Qed.

Lemma shr_spec m e n :
  0 <= m -> 0 <= n ->
  let '(mrs, e') := shr (Build_shr_record m false false) e n in
  e' = e + n /\ shr_m mrs = m / 2 ^ n
  /\ (loc_of_shr_record mrs = loc_Exact <-> (2 ^ n | m)).
Proof.
  intros Hm Hn. destruct n as [|p|p]; try lia; cbn [shr].
  - split; [lia|]. split; [now rewrite Z.div_1_r|].
    split; [intros _; apply Z.divide_1_l|reflexivity].
  - split; [reflexivity|]. rewrite iter_pos_nat.
    destruct (shr_iter m (Pos.to_nat p) Hm) as [Hq Hrs]. rewrite positive_nat_Z in Hq, Hrs.
    split; [exact Hq|]. rewrite <- Hrs.
    destruct (Nat.iter _ _ _) as [mn [] []]; cbn; split; congruence.
Qed.

Lemma round_nearest_even_bounds m l :
  m <= round_nearest_even m l <= m + 1
  /\ (l = loc_Exact -> round_nearest_even m l = m).
Proof.
  destruct l as [|[]]; cbn; try destruct (Z.even m); split; try lia; try reflexivity;
    discriminate.
Qed.


Lemma digits2_iter_xO p d :
  Zpos (digits2_pos (Pos.iter xO p d)) = Zpos (digits2_pos p) + Zpos d
  /\ Zpos (Pos.iter xO p d) = Zpos p * 2 ^ Zpos d.
Proof.
  induction d as [|d IH] using Pos.peano_ind.
  - cbn [Pos.iter digits2_pos]. split; [lia|]. change (2 ^ 1) with 2. lia.
  - rewrite Pos.iter_succ. cbn [digits2_pos]. destruct IH as [IH1 IH2].
    split; [rewrite Pos2Z.inj_succ; lia|].
    rewrite (Pos2Z.inj_succ d), Z.pow_succ_r by lia.
    change (Zpos (Pos.iter xO p d)~0) with (2 * Zpos (Pos.iter xO p d)).
    rewrite IH2. ring.
Qed.

(** The first step of [binary_round]: the mantissa is shifted to the left
    down to the exponent of its format, if it lies above. *)
Lemma shl_align_fexp_spec m e :
  let e1 := fexp prec emax (Zpos (digits2_pos m) + e) in
  let '(mz, ez) := shl_align m e e1 in
  ez = Z.min e e1
  /\ Zpos mz = Zpos m * 2 ^ (e - ez)
  /\ Zpos (digits2_pos mz) + ez = Zpos (digits2_pos m) + e.
Proof.
  cbv zeta. set (e1 := fexp _ _ _). unfold shl_align.
  destruct (e1 - e) as [|d|d] eqn:E.
  - replace (Z.min e e1) with e by lia. rewrite Z.sub_diag. cbn. lia.
  - replace (Z.min e e1) with e by lia. rewrite Z.sub_diag. cbn. lia.
  - replace (Z.min e e1) with e1 by lia.
    destruct (digits2_iter_xO m d) as [Hd Hv]. replace (e - e1) with (Zpos d) by lia.
    split; [reflexivity|]. split; [exact Hv|]. lia.
Qed.

Lemma fexp_ge_emin e : emin prec emax <= fexp prec emax e.
Proof. unfold fexp. lia. Qed.

Lemma fexp_mono e e' : e <= e' -> fexp prec emax e <= fexp prec emax e'.
Proof. unfold fexp. lia. Qed.

Lemma Zdigits2_small m : 0 < m < 2 ^ prec -> Zdigits2 m <= prec.
Proof.
  intros [H0 Hm]. destruct m as [|p|p]; try lia. cbn [Zdigits2].
  pose proof (digits2_bounds p) as [Hp _].
  assert (H : 2 ^ (Zpos (digits2_pos p) - 1) < 2 ^ prec) by lia.
  apply Z.pow_lt_mono_r_iff in H; lia.
Qed.

Lemma Zdigits2_pow : Zdigits2 (2 ^ prec) = prec + 1.
Proof.
  assert (Hpos : 0 < 2 ^ prec) by (apply Z.pow_pos_nonneg; lia).
  destruct (2 ^ prec) as [|p|p] eqn:E; try lia. cbn [Zdigits2].
  pose proof (digits2_bounds p) as [Hlo Hhi]. rewrite <- E in Hlo, Hhi.
  apply Z.pow_le_mono_r_iff in Hlo; [|lia|lia].
  apply Z.pow_lt_mono_r_iff in Hhi; lia.
Qed.

(** What [binary_round] computes: the mantissa [m2] is the quotient [m1]
    of the shifted mantissa, or the next integer; the result is a zero,
    a finite number or an infinity of the sign [s], never NaN. *)
Lemma binary_round_cases s m e :
  let e1 := fexp prec emax (Zpos (digits2_pos m) + e) in
  let ez := Z.min e e1 in
  let mz := Zpos m * 2 ^ (e - ez) in
  let m1 := mz / 2 ^ (e1 - ez) in
  exists m2,
    m1 <= m2 <= m1 + 1
    /\ ((2 ^ (e1 - ez) | mz) -> m2 = m1)
    /\ m2 <= 2 ^ prec
    /\ binary_round prec emax s m e =
       if m2 =? 0 then S754_zero s
       else if m2 <? 2 ^ prec
            then if e1 <=? emax - prec then S754_finite s (Z.to_pos m2) e1
                 else S754_infinity s
            else if e1 + 1 <=? emax - prec
                 then S754_finite s (Z.to_pos (2 ^ (prec - 1))) (e1 + 1)
                 else S754_infinity s.
Proof.
  cbv zeta. set (e1 := fexp prec emax (Zpos (digits2_pos m) + e)).
  unfold binary_round. fold e1.
  pose proof (shl_align_fexp_spec m e) as Hal. cbv zeta in Hal. fold e1 in Hal.
  destruct (shl_align m e e1) as [mz ez]. destruct Hal as (Hez & Hmz & Hdig).
  rewrite <- Hez, <- Hmz.
  unfold binary_round_aux, shr_fexp. cbn [Zdigits2 shr_record_of_loc].
  rewrite Hdig. fold e1.
  assert (Hn : 0 <= e1 - ez) by lia.
  pose proof (shr_spec (Zpos mz) ez (e1 - ez) ltac:(lia) Hn) as Hshr.
  destruct (shr _ ez (e1 - ez)) as [mrs e'].
  destruct Hshr as (He' & Hm1 & Hexact).
  replace e' with e1 by lia. clear He' e'.
  set (m1 := Zpos mz / 2 ^ (e1 - ez)) in *.
  set (m2 := round_nearest_even (shr_m mrs) (loc_of_shr_record mrs)).
  destruct (round_nearest_even_bounds (shr_m mrs) (loc_of_shr_record mrs)) as [Hb Hex].
  fold m2 in Hb, Hex. rewrite Hm1 in Hb, Hex.
  assert (Hpow : 0 < 2 ^ (e1 - ez)) by (apply Z.pow_pos_nonneg; lia).
  assert (Hm1lo : 0 <= m1) by (apply Z.div_pos; lia).
  assert (Hm1hi : m1 < 2 ^ prec).
  { apply Z.div_lt_upper_bound; [lia|].
    pose proof (digits2_bounds mz) as [_ Hhi].
    assert (Hd : Zpos (digits2_pos mz) <= e1 - ez + prec) by (unfold e1, fexp; lia).
    rewrite <- Z.pow_add_r by lia.
    eapply Z.lt_le_trans; [exact Hhi|]. apply Z.pow_le_mono_r; lia. }
  exists m2. split; [exact Hb|]. split; [intros Hdiv; apply Hex, Hexact, Hdiv|].
  split; [lia|].
  pose proof (fexp_ge_emin (Zpos (digits2_pos m) + e)) as Hemin. fold e1 in Hemin.
  destruct (m2 =? 0) eqn:E0.
  - apply Z.eqb_eq in E0. rewrite E0. cbn [Zdigits2].
    assert (Hn2 : fexp prec emax (0 + e1) - e1 <= 0) by (unfold fexp; lia).
    destruct (fexp prec emax (0 + e1) - e1) as [|q|q] eqn:En2; try lia; reflexivity.
  - apply Z.eqb_neq in E0. destruct (m2 <? 2 ^ prec) eqn:E1.
    + apply Z.ltb_lt in E1.
      pose proof (Zdigits2_small m2 ltac:(lia)) as Hd2.
      assert (Hn2 : fexp prec emax (Zdigits2 m2 + e1) - e1 <= 0) by (unfold fexp; lia).
      destruct (fexp prec emax (Zdigits2 m2 + e1) - e1) as [|q|q] eqn:En2; try lia;
        cbn [shr shr_m]; destruct m2 as [|q2|q2]; try lia; reflexivity.
    + apply Z.ltb_ge in E1. assert (Hm2 : m2 = 2 ^ prec) by lia.
      rewrite Hm2, Zdigits2_pow.
      assert (Hn2 : fexp prec emax (prec + 1 + e1) - e1 = 1) by (unfold fexp; lia).
      rewrite Hn2.
      pose proof (shr_spec (2 ^ prec) e1 1 ltac:(lia) ltac:(lia)) as Hshr.
      destruct (shr _ e1 1) as [mrs2 e2]. destruct Hshr as (He2 & Hm3 & _).
      rewrite He2, Hm3.
      replace (2 ^ prec / 2 ^ 1) with (2 ^ (prec - 1)).
      2:{ replace prec with (prec - 1 + 1) at 2 by lia.
          rewrite Z.pow_add_r by lia. now rewrite Z.div_mul by (cbn; lia). }
      assert (Hp : 0 < 2 ^ (prec - 1)) by (apply Z.pow_pos_nonneg; lia).
      destruct (2 ^ (prec - 1)) as [|q|q] eqn:Eq; try lia. reflexivity.
Qed.


Lemma pos_le_Z (p q : positive) : Zpos p <= Zpos q -> (p <= q)%positive.
Proof. intros H. exact H. Qed.

Lemma bounded_canonical mx ex :
  bounded prec emax mx ex = true ->
  fexp prec emax (Zpos (digits2_pos mx) + ex) = ex /\ ex <= emax - prec
  /\ Zpos mx < 2 ^ prec.
Proof.
  unfold bounded, canonical_mantissa. intros [Hc Hb]%andb_prop.
  apply Z.eqb_eq in Hc. apply Z.leb_le in Hb. split; [exact Hc|]. split; [exact Hb|].
  pose proof (digits2_bounds mx) as [_ Hhi].
  eapply Z.lt_le_trans; [exact Hhi|]. apply Z.pow_le_mono_r; [lia|].
  unfold fexp in Hc. lia.
Qed.

(** Rounding a magnitude that is at most that of a number of the format
    gives at most that number. *)
Lemma binary_round_below s m e mx ex :
  bounded prec emax mx ex = true -> e <= ex ->
  Zpos m <= Zpos mx * 2 ^ (ex - e) ->
  binary_round prec emax s m e = S754_zero s
  \/ exists m' e',
       binary_round prec emax s m e = S754_finite s m' e'
       /\ (e' < ex \/ e' = ex /\ (m' <= mx)%positive).
Proof.
  intros (Hcan & Hmax & Hmx)%bounded_canonical He Hle.
  destruct (binary_round_cases s m e) as (m2 & Hb & Hex & Hm2 & ->).
  set (e1 := fexp prec emax (Zpos (digits2_pos m) + e)) in *.
  set (ez := Z.min e e1) in *.
  set (mz := Zpos m * 2 ^ (e - ez)) in *.
  set (m1 := mz / 2 ^ (e1 - ez)) in *.
  assert (He1 : e1 <= ex).
  { rewrite <- Hcan. apply fexp_mono.
    pose proof (digits2_le m mx (ex - e) ltac:(lia) Hle). lia. }
  assert (Hpz : 0 < 2 ^ (e - ez)) by (apply Z.pow_pos_nonneg; lia).
  assert (Hpn : 0 < 2 ^ (e1 - ez)) by (apply Z.pow_pos_nonneg; lia).
  assert (Hm1 : 0 <= m1) by (apply Z.div_pos; lia).
  destruct (m2 =? 0) eqn:E0; [now left|]. apply Z.eqb_neq in E0. right.
  destruct (Z.eq_dec e1 ex) as [Heq|Hne].
  - (* the same exponent: the mantissa is at most mx *)
    assert (Hmz : mz <= Zpos mx * 2 ^ (e1 - ez)).
    { unfold mz. rewrite Heq. replace (ex - ez) with (ex - e + (e - ez)) by lia.
      rewrite Z.pow_add_r by lia. nia. }
    assert (Hm2le : m2 <= Zpos mx).
    { destruct (Z.eq_dec mz (Zpos mx * 2 ^ (e1 - ez))) as [Hz|Hz].
      - rewrite Hex by (exists (Zpos mx); exact Hz).
        unfold m1. rewrite Hz, Z.div_mul by lia. lia.
      - assert (m1 < Zpos mx) by (apply Z.div_lt_upper_bound; lia). lia. }
    assert (E1 : (m2 <? 2 ^ prec) = true) by (apply Z.ltb_lt; lia). rewrite E1.
    assert (E2 : (e1 <=? emax - prec) = true) by (apply Z.leb_le; lia). rewrite E2.
    eexists _, _. split; [reflexivity|]. right. split; [exact Heq|].
    apply pos_le_Z. rewrite Z2Pos.id by lia. exact Hm2le.
  - destruct (m2 <? 2 ^ prec) eqn:E1.
    + assert (E2 : (e1 <=? emax - prec) = true) by (apply Z.leb_le; lia). rewrite E2.
      eexists _, _. split; [reflexivity|]. left. lia.
    + assert (E2 : (e1 + 1 <=? emax - prec) = true) by (apply Z.leb_le; lia). rewrite E2.
      eexists _, _. split; [reflexivity|].
      destruct (Z.eq_dec (e1 + 1) ex) as [Heq|Hne']; [right|left; lia].
      split; [exact Heq|].
      assert (Hp : 0 < 2 ^ (prec - 1)) by (apply Z.pow_pos_nonneg; lia).
      apply pos_le_Z. rewrite Z2Pos.id by lia.
      pose proof (digits2_bounds mx) as [Hlo _].
      pose proof (fexp_ge_emin (Zpos (digits2_pos m) + e)) as Hemin. fold e1 in Hemin.
      assert (Hd : Zpos (digits2_pos mx) = prec) by (unfold fexp in Hcan; lia).
      rewrite Hd in Hlo. exact Hlo.
Qed.

(** Rounding a magnitude that is at least that of a number of the format
    gives at least that number. *)
Lemma binary_round_above s m e mx ex :
  bounded prec emax mx ex = true -> e <= ex ->
  Zpos mx * 2 ^ (ex - e) <= Zpos m ->
  binary_round prec emax s m e = S754_infinity s
  \/ exists m' e',
       binary_round prec emax s m e = S754_finite s m' e'
       /\ (ex < e' \/ e' = ex /\ (mx <= m')%positive).
Proof.
  intros (Hcan & Hmax & Hmx)%bounded_canonical He Hle.
  destruct (binary_round_cases s m e) as (m2 & Hb & Hex & Hm2 & ->).
  set (e1 := fexp prec emax (Zpos (digits2_pos m) + e)) in *.
  set (ez := Z.min e e1) in *.
  set (mz := Zpos m * 2 ^ (e - ez)) in *.
  set (m1 := mz / 2 ^ (e1 - ez)) in *.
  pose proof (digits2_ge m mx (ex - e) ltac:(lia) Hle) as Hdig.
  assert (He1 : ex <= e1) by (rewrite <- Hcan; apply fexp_mono; lia).
  assert (Hpz : 0 < 2 ^ (e - ez)) by (apply Z.pow_pos_nonneg; lia).
  assert (Hpn : 0 < 2 ^ (e1 - ez)) by (apply Z.pow_pos_nonneg; lia).
  assert (Hm2pos : 0 < m2 /\ (e1 = ex -> Zpos mx <= m2)).
  { destruct (Z.eq_dec e1 ex) as [Heq|Hne].
    - assert (Hmz : Zpos mx * 2 ^ (e1 - ez) <= mz).
      { unfold mz. rewrite Heq. replace (ex - ez) with (ex - e + (e - ez)) by lia.
        rewrite Z.pow_add_r by lia. nia. }
      assert (Zpos mx <= m1) by (apply Z.div_le_lower_bound; lia). lia.
    - split; [|lia].
      pose proof (fexp_ge_emin (Zpos (digits2_pos mx) + ex)) as Hemin. rewrite Hcan in Hemin.
      assert (Hd : e1 = Zpos (digits2_pos m) + e - prec) by (unfold e1, fexp in *; lia).
      assert (Hmzlo : 2 ^ (prec - 1) * 2 ^ (e1 - ez) <= mz).
      { unfold mz. pose proof (digits2_bounds m) as [Hlo _].
        rewrite <- Z.pow_add_r by lia.
        replace (prec - 1 + (e1 - ez)) with (Zpos (digits2_pos m) - 1 + (e - ez)) by lia.
        rewrite Z.pow_add_r by lia. nia. }
      assert (Hp : 0 < 2 ^ (prec - 1)) by (apply Z.pow_pos_nonneg; lia).
      assert (2 ^ (prec - 1) <= m1) by (apply Z.div_le_lower_bound; lia). lia. }
  destruct Hm2pos as [Hpos Hsame].
  assert (E0 : (m2 =? 0) = false) by (apply Z.eqb_neq; lia). rewrite E0.
  destruct (m2 <? 2 ^ prec) eqn:E1.
  - destruct (e1 <=? emax - prec); [right|now left].
    eexists _, _. split; [reflexivity|].
    destruct (Z.eq_dec e1 ex) as [Heq|Hne]; [right|left; lia].
    split; [exact Heq|]. apply pos_le_Z. rewrite Z2Pos.id by lia. now apply Hsame.
  - destruct (e1 + 1 <=? emax - prec); [right|now left].
    eexists _, _. split; [reflexivity|]. left. lia.
Qed.

(** [binary_round] never gives NaN and keeps the sign. *)
Lemma binary_round_sign s m e :
  binary_round prec emax s m e = S754_zero s
  \/ binary_round prec emax s m e = S754_infinity s
  \/ exists m' e', binary_round prec emax s m e = S754_finite s m' e'.
Proof.
  destruct (binary_round_cases s m e) as (m2 & _ & _ & _ & ->).
  destruct (_ =? 0); [now left|].
  destruct (_ <? _); destruct (_ <=? _); eauto.
Qed.


Lemma shl_align_le mx ex ez :
  ez <= ex -> Zpos (fst (shl_align mx ex ez)) = Zpos mx * 2 ^ (ex - ez).
Proof.
  intros Hle. unfold shl_align. destruct (ez - ex) as [|d|d] eqn:E; try lia; cbn [fst].
  - replace (ex - ez) with 0 by lia. cbn. lia.
  - destruct (digits2_iter_xO mx d) as [_ Hv]. rewrite Hv. f_equal. f_equal. lia.
Qed.

(** The order of two finite numbers of one sign. *)
Lemma SFleb_finite_pos m e m' e' :
  e < e' \/ e = e' /\ (m <= m')%positive ->
  SFleb (S754_finite false m e) (S754_finite false m' e') = true.
Proof.
  unfold SFleb. cbn. intros [Hlt|[-> Hle]].
  - now rewrite (proj2 (Z.compare_lt_iff e e') Hlt).
  - rewrite Z.compare_refl. change (Pos.compare_cont Eq m m') with (Pos.compare m m').
    unfold Pos.le in Hle. now destruct (Pos.compare m m').
Qed.

Lemma SFleb_finite_neg m e m' e' :
  e < e' \/ e = e' /\ (m <= m')%positive ->
  SFleb (S754_finite true m' e') (S754_finite true m e) = true.
Proof.
  unfold SFleb. cbn. intros [Hlt|[-> Hle]].
  - now rewrite (proj2 (Z.compare_gt_iff e' e) Hlt).
  - rewrite Z.compare_refl. change (Pos.compare_cont Eq m' m) with (Pos.compare m' m).
    rewrite Pos.compare_antisym. unfold Pos.le in Hle. now destruct (Pos.compare m m').
Qed.

(** Taking a number that is not negative away from a finite number does
    not make it larger. *)
Lemma SFsub_nonneg_le x w :
  valid_binary prec emax x = true -> SF_is_finite x = true ->
  SFleb (S754_zero false) w = true ->
  SFleb (SFsub prec emax x w) x = true.
Proof.
  intros Hvalid Hfin Hw.
  destruct x as [sx|sx| |sx mx ex]; try discriminate Hfin; clear Hfin.
  - (* x is a zero *)
    destruct w as [sw|[]| |[] mw ew]; try discriminate Hw; try reflexivity.
    now destruct sx, sw.
  - destruct w as [sw|[]| |[] mw ew]; try discriminate Hw; clear Hw.
    + (* w is a zero *)
      cbn [SFsub].
      destruct sx; [apply SFleb_finite_neg|apply SFleb_finite_pos];
        right; (split; [reflexivity|apply Pos.le_refl]).
    + (* w is +infinity *) reflexivity.
    + (* both are finite *)
      cbn [valid_binary] in Hvalid. cbn [SFsub].
      set (ez := Z.min ex ew).
      rewrite (shl_align_le mx ex ez), (shl_align_le mw ew ez) by lia.
      set (Mx := Zpos mx * 2 ^ (ex - ez)). set (Mw := Zpos mw * 2 ^ (ew - ez)).
      assert (HMx : 0 < Mx).
      { unfold Mx. assert (0 < 2 ^ (ex - ez)) by (apply Z.pow_pos_nonneg; lia). lia. }
      assert (HMw : 0 < Mw).
      { unfold Mw. assert (0 < 2 ^ (ew - ez)) by (apply Z.pow_pos_nonneg; lia). lia. }
      destruct sx; cbn [cond_Zopp]; unfold binary_normalize.
      * (* x is negative: the magnitude grows *)
        destruct (- Mx - Mw) as [|p|p] eqn:E; try lia.
        destruct (binary_round_above true p ez mx ex Hvalid ltac:(lia) ltac:(fold Mx; lia))
          as [->|(m' & e' & -> & Hord)]; [reflexivity|].
        apply SFleb_finite_neg. destruct Hord as [?|[-> ?]]; [now left|now right].
      * destruct (Mx - Mw) as [|p|p] eqn:E.
        -- reflexivity.
        -- destruct (binary_round_below false p ez mx ex Hvalid ltac:(lia) ltac:(fold Mx; lia))
             as [->|(m' & e' & -> & Hord)]; [reflexivity|].
           now apply SFleb_finite_pos.
        -- destruct (binary_round_sign true p ez) as [->|[->|(m' & e' & ->)]]; reflexivity.
Qed.

(** Adding a number that is not negative to a finite number does not make
    it smaller. *)
Lemma SFadd_nonneg_ge x h :
  valid_binary prec emax x = true -> SF_is_finite x = true ->
  SFleb (S754_zero false) h = true ->
  SFleb x (SFadd prec emax x h) = true.
Proof.
  intros Hvalid Hfin Hh.
  destruct x as [sx|sx| |sx mx ex]; try discriminate Hfin; clear Hfin.
  - destruct h as [sh|[]| |[] mh eh]; try discriminate Hh; try reflexivity.
    now destruct sx, sh.
  - destruct h as [sh|[]| |[] mh eh]; try discriminate Hh; clear Hh.
    + cbn [SFadd].
      destruct sx; [apply SFleb_finite_neg|apply SFleb_finite_pos];
        right; (split; [reflexivity|apply Pos.le_refl]).
    + now destruct sx.
    + cbn [valid_binary] in Hvalid. cbn [SFadd].
      set (ez := Z.min ex eh).
      rewrite (shl_align_le mx ex ez), (shl_align_le mh eh ez) by lia.
      set (Mx := Zpos mx * 2 ^ (ex - ez)). set (Mh := Zpos mh * 2 ^ (eh - ez)).
      assert (HMx : 0 < Mx).
      { unfold Mx. assert (0 < 2 ^ (ex - ez)) by (apply Z.pow_pos_nonneg; lia). lia. }
      assert (HMh : 0 < Mh).
      { unfold Mh. assert (0 < 2 ^ (eh - ez)) by (apply Z.pow_pos_nonneg; lia). lia. }
      destruct sx; cbn [cond_Zopp]; unfold binary_normalize.
      * destruct (- Mx + Mh) as [|p|p] eqn:E.
        -- reflexivity.
        -- destruct (binary_round_sign false p ez) as [->|[->|(m' & e' & ->)]]; reflexivity.
        -- destruct (binary_round_below true p ez mx ex Hvalid ltac:(lia) ltac:(fold Mx; lia))
             as [->|(m' & e' & -> & Hord)]; [reflexivity|].
           now apply SFleb_finite_neg.
      * destruct (Mx + Mh) as [|p|p] eqn:E; try lia.
        destruct (binary_round_above false p ez mx ex Hvalid ltac:(lia) ltac:(fold Mx; lia))
          as [->|(m' & e' & -> & Hord)]; [reflexivity|].
        apply SFleb_finite_pos. destruct Hord as [?|[-> ?]]; [now left|now right].
Qed.

End Rounding.

(** * The camera's functions in closed form *)
Section CameraShapes.
Import Camera.
Local Open Scope cam_scope.

(** A position inside a box shows that the box is not empty. *)
Lemma in_bounds_box_nonempty cam :
  camera_pos_in_bounds cam = true -> box_nonempty (bounds cam) = true.
Proof.
  intros (Hlo & Hhi & Hzlo & Hzhi)%in_bounds_unfold. unfold box_nonempty, F32.leb in *.
  apply andb_true_iff. split; eapply SFleb_trans; eassumption.
Qed.

(** A finite corner and extents that are not negative make a box that is
    not empty: rounding bounds.x - bounds.w cannot end above bounds.x, nor
    bounds.z + bounds.h below bounds.z. *)
Lemma box_finite_nonneg_nonempty b :
  box_finite_nonneg b = true -> box_nonempty b = true.
Proof.
  unfold box_finite_nonneg, F32_finite, box_nonempty, F32.leb, F32.sub, F32.add.
  rewrite !andb_true_iff. intros [[[[Hfx Hvx] [Hfz Hvz]] Hw] Hh].
  split.
  - apply SFsub_nonneg_le; [unfold F32.prec; lia | assumption..].
  - apply SFadd_nonneg_ge; [unfold F32.prec; lia | assumption..].
Qed.

(** The clamp in closed form. *)
Lemma camera_move_within_bounds_eq cam :
  camera_move_within_bounds cam
  = set_pos cam
      (mk_vec3 (MAX (MIN (x (pos cam)) (bx (bounds cam)))
                    (F32.sub (bx (bounds cam)) (bw (bounds cam))))
               (y (pos cam))
               (MIN (MAX (z (pos cam)) (bz (bounds cam)))
                    (F32.add (bz (bounds cam)) (bh (bounds cam))))).
Proof. reflexivity. Qed.

Lemma clamp_and_check_eq cam s :
  clamp_and_check cam s =
    if bounded cam
    then if camera_pos_in_bounds (camera_move_within_bounds cam)
         then Some (camera_move_within_bounds cam, s) else None
    else Some (cam, s).
Proof.
  unfold clamp_and_check, bind, assert, ret.
  destruct (bounded cam) eqn:Hb.
  - change (bounded (camera_move_within_bounds cam)) with (bounded cam). rewrite Hb.
    cbn [negb orb]. now destruct (camera_pos_in_bounds _).
  - rewrite Hb. reflexivity.
Qed.

Lemma clamp_and_check_frame cam s cam' s' :
  clamp_and_check cam s = Some (cam', s') ->
  s' = s /\ set_pos cam' (pos cam) = cam.
Proof.
  rewrite clamp_and_check_eq.
  destruct (bounded cam); [destruct (camera_pos_in_bounds _)|]; intros [= <- <-];
    (split; [reflexivity|]); destruct cam as [? ? [? ? ?] ? ? ? ? ? ? ?]; reflexivity.
Qed.

Lemma tick_shape_eq (move : camera -> Z -> vec3_t) cam s :
  (let* cam := init_prev_frame_ts cam in
   let* curr := SDL_GetTicks in
   clamp_and_check (set_pos cam (move cam curr))) s
  = clamp_and_check (set_pos (tick_start cam s) (move (tick_start cam s) (tick_curr cam s)))
                    (tick_clock cam s).
Proof.
  unfold bind, init_prev_frame_ts, tick_start, tick_curr, tick_clock, SDL_GetTicks, ret, bind.
  destruct (prev_frame_ts cam =? 0) eqn:E; cbn.
  - reflexivity.
  - destruct cam; reflexivity.
Qed.

Lemma uint32_elapsed (t0 elapsed : Z) :
  0 <= elapsed < 2 ^ 32 -> uint32 (uint32 (t0 + elapsed) - uint32 t0) = elapsed.
Proof.
  intros He. unfold uint32.
  rewrite <- Zminus_mod. replace (t0 + elapsed - t0) with elapsed by lia.
  apply Z.mod_small. exact He.
Qed.

(** The time a tick function measures, from what the clock reads. *)
Lemma tick_elapsed cam s (t0 elapsed : Z) :
  0 <= elapsed < 2 ^ 32 ->
  (prev_frame_ts cam <> 0 /\ prev_frame_ts cam = uint32 t0
   /\ readings s (calls s) = t0 + elapsed
   \/ prev_frame_ts cam = 0 /\ readings s (calls s) = t0
      /\ readings s (S (calls s)) = t0 + elapsed) ->
  tick_start cam s = set_prev_frame_ts cam (uint32 t0)
  /\ uint32 (tick_curr cam s - prev_frame_ts (tick_start cam s)) = elapsed.
Proof.
  intros He Hclock. unfold tick_start, tick_curr. cbn [prev_frame_ts set_prev_frame_ts].
  destruct Hclock as [(Hnz & Hp & Hr)|(Hz & Hr0 & Hr1)].
  - apply Z.eqb_neq in Hnz. rewrite Hnz, Hr, Hp. split; [reflexivity|].
    now apply uint32_elapsed.
  - rewrite Hz. cbn [Z.eqb]. rewrite Hr0, Hr1. split; [reflexivity|].
    now apply uint32_elapsed.
Qed.

Context {pfm : PFMath} {pw : Pow}.

Lemma moved_pos_prev_frame_ts m cam t tdelta :
  moved_pos m (set_prev_frame_ts cam t) tdelta = moved_pos m cam tdelta.
Proof. destruct m; reflexivity. Qed.

(** A tick function that gets to move: stamp, read the clock, move,
    clamp, check. *)
Lemma Camera_MoveTick_eq m cam s :
  gets_to_move m = true ->
  Camera_MoveTick m cam s
  = clamp_and_check
      (set_pos (tick_start cam s)
               (moved_pos m cam
                          (uint32 (tick_curr cam s - prev_frame_ts (tick_start cam s)))))
      (tick_clock cam s).
Proof.
  intros Hm. rewrite <- (moved_pos_prev_frame_ts m cam (prev_frame_ts (tick_start cam s))).
  change (set_prev_frame_ts cam (prev_frame_ts (tick_start cam s))) with (tick_start cam s).
  destruct m as [| | | |dir]; cbn [Camera_MoveTick moved_pos].
  - exact (tick_shape_eq (fun cam curr =>
      PFM_Vec3_Add (pos cam)
        (PFM_Vec3_Scale (PFM_Vec3_Normal (PFM_Vec3_Cross (front cam) (up cam)))
                        (tdelta_speed cam curr))) cam s).
  - exact (tick_shape_eq (fun cam curr =>
      PFM_Vec3_Sub (pos cam)
        (PFM_Vec3_Scale (PFM_Vec3_Normal (PFM_Vec3_Cross (front cam) (up cam)))
                        (tdelta_speed cam curr))) cam s).
  - exact (tick_shape_eq (fun cam curr =>
      PFM_Vec3_Add (pos cam) (PFM_Vec3_Scale (front cam) (tdelta_speed cam curr))) cam s).
  - exact (tick_shape_eq (fun cam curr =>
      PFM_Vec3_Sub (pos cam) (PFM_Vec3_Scale (front cam) (tdelta_speed cam curr))) cam s).
  - cbn [gets_to_move] in Hm. apply negb_true_iff in Hm.
    pose proof (tick_shape_eq (fun cam curr =>
      PFM_Vec3_Add (pos cam)
        (PFM_Vec3_Scale (PFM_Vec3_Normal dir) (tdelta_speed cam curr))) cam s) as Hs.
    unfold Camera_MoveDirectionTick. rewrite Hm. exact Hs.
Qed.

(** [Camera_MoveDirectionTick] with a direction of zero magnitude. *)
Lemma Camera_MoveDirectionTick_zero_eq cam dir s :
  F32.eqb (magnitude dir) F32.zero = true ->
  Camera_MoveDirectionTick cam dir s
  = Some (tick_start cam s,
          mk_sdl (readings s) (if prev_frame_ts cam =? 0 then S (calls s) else calls s)).
Proof.
  intros Hmag. unfold Camera_MoveDirectionTick, bind, init_prev_frame_ts, tick_start.
  destruct (prev_frame_ts cam =? 0) eqn:E; cbn; rewrite Hmag; cbn.
  - reflexivity.
  - destruct cam, s; reflexivity.
Qed.

Context {trig : Trig} {pfmat : PFMat} {config : Config}.

Lemma Camera_TickFinishPerspective_eq cam g s :
  Camera_TickFinishPerspective cam g s
  = Some ((set_prev_frame_ts cam (uint32 (readings s (calls s))),
           mk_gl (viewport g)
                 (rendered g
                  ++ [R_GL_SetViewMatAndPos (Camera_MakeViewMat cam) (pos cam);
                      R_GL_SetProj
                        (PFM_Mat4x4_MakePerspective (DEG_TO_RAD (F32.of_Z 45))
                           (aspect_ratio g) CAM_Z_NEAR_DIST CONFIG_DRAWDIST)])),
          mk_sdl (readings s) (S (calls s))).
Proof.
  unfold Camera_TickFinishPerspective, bind, SDL_GetTicks, ret, render. cbn.
  rewrite <- app_assoc. reflexivity.
Qed.

Lemma Camera_TickFinishOrthographic_eq cam bot_left top_right g s :
  Camera_TickFinishOrthographic cam bot_left top_right g s
  = Some ((set_prev_frame_ts cam (uint32 (readings s (calls s))),
           mk_gl (viewport g)
                 (rendered g
                  ++ [R_GL_SetViewMatAndPos (Camera_MakeViewMat cam) (pos cam);
                      R_GL_SetProj
                        (PFM_Mat4x4_MakeOrthographic (raw_0 bot_left) (raw_0 top_right)
                           (raw_1 bot_left) (raw_1 top_right)
                           CAM_Z_NEAR_DIST CONFIG_DRAWDIST)])),
          mk_sdl (readings s) (S (calls s))).
Proof.
  unfold Camera_TickFinishOrthographic, bind, SDL_GetTicks, ret, render. cbn.
  rewrite <- app_assoc. reflexivity.
Qed.

End CameraShapes.

(** * More on camera.c *)
Section CameraProperties.
Import Camera.
Local Open Scope cam_scope.

(** X1. The invariant that the comment on the field [bounded] states,
    that the position of a bounded camera is in its box, holds of a new
    camera and is kept by the functions that write the camera. From a
    camera that satisfies it every tick function returns, a direction of
    zero magnitude included, and so does [Camera_UnrestrictPos], with the
    invariant holding again; [Camera_SetPos] and
    [Camera_RestrictPosWithBox] establish it whenever they return;
    [Camera_SetSpeed] and [Camera_SetSens] do not touch it. *)
Theorem bounds_invariant_kept `{PFMath} `{Pow} :
  bounds_invariant Camera_New = true
  /\ (forall m : move, keeps_bounds_invariant (Camera_MoveTick m))
  /\ keeps_bounds_invariant Camera_UnrestrictPos
  /\ (forall cam p s cam' s',
        Camera_SetPos cam p s = Some (cam', s') -> bounds_invariant cam' = true)
  /\ (forall cam box s cam' s',
        Camera_RestrictPosWithBox cam box s = Some (cam', s') ->
        bounds_invariant cam' = true)
  /\ (forall cam v,
        bounds_invariant (Camera_SetSpeed cam v) = bounds_invariant cam
        /\ bounds_invariant (Camera_SetSens cam v) = bounds_invariant cam).
Proof.
  split; [reflexivity|]. split; [|split; [|split; [|split]]].
  - intros m cam s Hinv.
    destruct (gets_to_move m) eqn:Hm.
    + rewrite (Camera_MoveTick_eq m cam s Hm), clamp_and_check_eq.
      set (c := set_pos _ _). change (bounded c) with (bounded cam).
      unfold bounds_invariant in Hinv.
      destruct (bounded cam) eqn:Hb.
      * cbn in Hinv. apply in_bounds_box_nonempty in Hinv.
        change (bounds cam) with (bounds c) in Hinv.
        rewrite (camera_move_within_bounds_in_bounds c Hinv).
        eexists _, _. split; [reflexivity|]. unfold bounds_invariant.
        change (bounded (camera_move_within_bounds c)) with (bounded cam). rewrite Hb. cbn.
        now apply camera_move_within_bounds_in_bounds.
      * eexists _, _. split; [reflexivity|]. unfold bounds_invariant.
        change (bounded c) with (bounded cam). now rewrite Hb.
    + destruct m as [| | | |dir]; try discriminate Hm. cbn in Hm.
      apply negb_false_iff in Hm. cbn [Camera_MoveTick].
      rewrite (Camera_MoveDirectionTick_zero_eq cam dir s Hm).
      eexists _, _. split; [reflexivity|]. exact Hinv.
  - intros cam s _. eexists _, _. split; reflexivity.
  - intros cam p s cam' s'. unfold Camera_SetPos, bind, assert, ret.
    fold (bounds_invariant (set_pos cam p)).
    destruct (bounds_invariant (set_pos cam p)) eqn:E; [|discriminate].
    now intros [= <- _].
  - intros cam box s cam' s'. unfold Camera_RestrictPosWithBox, bind, assert, ret.
    fold (bounds_invariant (set_bounds cam true box)).
    destruct (bounds_invariant (set_bounds cam true box)) eqn:E; [|discriminate].
    now intros [= <- _].
  - intros cam v. split; reflexivity.
Qed.

(** The camera at (5, 0, 5) in the box [0, 10] x [0, 10] moves along x
    and stays in the box. *)
Lemma bounds_invariant_kept_witness :
  bounds_invariant cam_inside = true
  /\ exists cam' s',
       Camera_MoveTick (pfm := pf_math_ref) (pw := pow_square)
         (MoveDirection dir_x) cam_inside sdl_7 = Some (cam', s')
       /\ bounds_invariant cam' = true.
Proof.
  split; [vm_compute; reflexivity|].
  destruct (@bounds_invariant_kept pf_math_ref pow_square) as (_ & Hmove & _).
  apply (Hmove (MoveDirection dir_x) cam_inside sdl_7). vm_compute. reflexivity.
Defined.

(** X2. On a bounded camera a tick function that gets to move returns
    exactly when the box is not empty, that is when
    bounds.x - bounds.w <= bounds.x and bounds.z <= bounds.z + bounds.h
    hold in float arithmetic: whether the closing assertion holds is
    decided by the box alone, not by the position, the clock or what the
    vector helpers return. A box with a NaN field is empty. *)
Theorem tick_returns_iff_box_nonempty `{PFMath} `{Pow} :
  (forall (m : move) (cam : camera) (s : sdl),
     bounded cam = true -> gets_to_move m = true ->
     (is_Some (Camera_MoveTick m cam s) <-> box_nonempty (bounds cam) = true))
  /\ (forall b : bound_box,
        bx b = S754_nan \/ bz b = S754_nan \/ bw b = S754_nan \/ bh b = S754_nan ->
        box_nonempty b = false).
Proof.
  split.
  - intros m cam s Hb Hm. rewrite (Camera_MoveTick_eq m cam s Hm), clamp_and_check_eq.
    set (c := set_pos _ _).
    change (bounded c) with (bounded cam). rewrite Hb.
    change (bounds cam) with (bounds (camera_move_within_bounds c)).
    destruct (camera_pos_in_bounds (camera_move_within_bounds c)) eqn:E.
    + split; [intros _|intros _; eexists; reflexivity].
      now apply in_bounds_box_nonempty.
    + split; [intros [r Hr]; discriminate Hr|].
      intros Hne. rewrite (camera_move_within_bounds_in_bounds c Hne) in E. discriminate E.
  - intros [bx bz bw bh] [Hn|[Hn|[Hn|Hn]]]; cbn in Hn; subst; unfold box_nonempty;
      cbn [Camera.bx Camera.bz Camera.bw Camera.bh].
    + reflexivity.
    + apply andb_false_intro2. reflexivity.
    + rewrite F32_sub_nan_r. reflexivity.
    + rewrite F32_add_nan_r. apply andb_false_intro2. unfold F32.leb. apply SFleb_nan_r.
Qed.

(** The box [0, 10] x [0, 10] is not empty, and the camera outside of it
    returns from a move along x; with the width NaN the box is empty. *)
Lemma tick_returns_iff_box_nonempty_witness :
  bounded cam_outside = true
  /\ gets_to_move (pw := pow_square) (MoveDirection dir_x) = true
  /\ is_Some (Camera_MoveTick (pfm := pf_math_ref) (pw := pow_square)
                (MoveDirection dir_x) cam_outside sdl_7)
  /\ box_nonempty (mk_box (F32.of_Z 10) F32.zero S754_nan (F32.of_Z 10)) = false.
Proof.
  destruct (@tick_returns_iff_box_nonempty pf_math_ref pow_square) as [Hiff Hnan].
  split; [reflexivity|]. split; [vm_compute; reflexivity|]. split.
  - apply (Hiff (MoveDirection dir_x) cam_outside sdl_7);
      [reflexivity | vm_compute; reflexivity | vm_compute; reflexivity].
  - apply Hnan. right. right. left. reflexivity.
Defined.

(** X3. The clamp saturates. It writes nothing but pos.x and pos.z, and
    clamping twice is clamping once, whatever the floats are. On a
    box that is not empty a coordinate inside its range is kept (exactly
    when strictly inside, up to float equality on the boundary); an x
    above its range, or NaN, becomes the upper bound bounds.x, and an x
    below becomes bounds.x - bounds.w; a z below its range, or NaN,
    becomes the lower bound bounds.z, and a z above becomes
    bounds.z + bounds.h. *)
Theorem camera_move_within_bounds_saturates :
  forall cam : camera,
    (y (pos (camera_move_within_bounds cam)) = y (pos cam)
     /\ set_pos (camera_move_within_bounds cam) (pos cam) = cam
     /\ camera_move_within_bounds (camera_move_within_bounds cam)
        = camera_move_within_bounds cam)
    /\ (box_nonempty (bounds cam) = true ->
        let lo := F32.sub (bx (bounds cam)) (bw (bounds cam)) in
        let hi := F32.add (bz (bounds cam)) (bh (bounds cam)) in
        let x' := x (pos (camera_move_within_bounds cam)) in
        let z' := z (pos (camera_move_within_bounds cam)) in
        ((F32.leb lo (x (pos cam)) = true -> F32.leb (x (pos cam)) (bx (bounds cam)) = true ->
          F32.eqb x' (x (pos cam)) = true)
         /\ (F32.ltb lo (x (pos cam)) = true -> F32.ltb (x (pos cam)) (bx (bounds cam)) = true ->
             x' = x (pos cam))
         /\ (F32.leb (x (pos cam)) (bx (bounds cam)) = false ->
             F32.eqb x' (bx (bounds cam)) = true)
         /\ (F32.leb (x (pos cam)) (bx (bounds cam)) = true ->
             F32.leb lo (x (pos cam)) = false -> x' = lo))
        /\ ((F32.leb (bz (bounds cam)) (z (pos cam)) = true -> F32.leb (z (pos cam)) hi = true ->
             F32.eqb z' (z (pos cam)) = true)
            /\ (F32.ltb (bz (bounds cam)) (z (pos cam)) = true ->
                F32.ltb (z (pos cam)) hi = true -> z' = z (pos cam))
            /\ (F32.leb (bz (bounds cam)) (z (pos cam)) = false ->
                F32.eqb z' (bz (bounds cam)) = true)
            /\ (F32.leb (bz (bounds cam)) (z (pos cam)) = true ->
                F32.leb (z (pos cam)) hi = false -> z' = hi))).
Proof.
  intros cam. split.
  - split; [reflexivity|]. split.
    + destruct cam as [? ? [? ? ?] ? ? ? ? ? ? ?]. reflexivity.
    + rewrite (camera_move_within_bounds_eq (camera_move_within_bounds cam)).
      rewrite (camera_move_within_bounds_eq cam).
      cbn [pos bounds set_pos x y z].
      rewrite clamp_hi_lo_idem, clamp_lo_hi_idem.
      destruct cam. reflexivity.
  - unfold box_nonempty. intros [Hx Hz]%andb_prop. cbv zeta.
    split.
    + exact (clamp_hi_lo (x (pos cam)) _ _ Hx).
    + exact (clamp_lo_hi (z (pos cam)) _ _ Hz).
Qed.

(** The camera at x = 100, z = 5 and the box [0, 10] x [0, 10]: x becomes
    the upper bound 10, and z, strictly inside, stays 5. *)
Lemma camera_move_within_bounds_saturates_witness :
  box_nonempty (bounds cam_outside) = true
  /\ F32.leb (x (pos cam_outside)) (bx (bounds cam_outside)) = false
  /\ F32.eqb (x (pos (camera_move_within_bounds cam_outside))) (F32.of_Z 10) = true
  /\ z (pos (camera_move_within_bounds cam_outside)) = F32.of_Z 5.
Proof.
  assert (Hne : box_nonempty (bounds cam_outside) = true) by (vm_compute; reflexivity).
  destruct (camera_move_within_bounds_saturates cam_outside) as [_ Hsat].
  destruct (Hsat Hne) as [(_ & _ & Habove & _) (_ & Hin & _)].
  split; [exact Hne|]. split; [vm_compute; reflexivity|]. split.
  - apply Habove. vm_compute. reflexivity.
  - apply Hin; vm_compute; reflexivity.
Defined.

(** X4. The tick functions write nothing but [pos] and, when it is zero,
    [prev_frame_ts], which then takes the first clock reading: they never
    advance a time stamp that is set. They read the clock once to move,
    and once more before that if the time stamp was zero. *)
Theorem tick_moves_frame `{PFMath} `{Pow} :
  forall (m : move) (cam : camera) (s : sdl) (cam' : camera) (s' : sdl),
    Camera_MoveTick m cam s = Some (cam', s') ->
    (front cam' = front cam /\ up cam' = up cam
     /\ pitch cam' = pitch cam /\ yaw cam' = yaw cam
     /\ speed cam' = speed cam /\ sensitivity cam' = sensitivity cam
     /\ bounded cam' = bounded cam /\ bounds cam' = bounds cam)
    /\ prev_frame_ts cam'
       = (if prev_frame_ts cam =? 0 then uint32 (readings s (calls s))
          else prev_frame_ts cam)
    /\ readings s' = readings s
    /\ calls s' = ((if (prev_frame_ts cam =? 0)%Z then 1 else 0)
                   + (if gets_to_move m then 1 else 0) + calls s)%nat.
Proof.
  intros m cam s cam' s' Hrun.
  destruct (gets_to_move m) eqn:Hm.
  - rewrite (Camera_MoveTick_eq m cam s Hm) in Hrun.
    apply clamp_and_check_frame in Hrun as [-> Hcam].
    set (c := set_pos (tick_start cam s) _) in Hcam.
    assert (Hc : cam' = set_pos (tick_start cam s) (pos cam')).
    { transitivity (set_pos (set_pos cam' (pos c)) (pos cam')).
      - destruct cam' as [? ? [? ? ?] ? ? ? ? ? ? ?]. reflexivity.
      - rewrite Hcam. reflexivity. }
    clearbody c.
    rewrite Hc. cbn. unfold tick_clock. cbn.
    repeat split. destruct (prev_frame_ts cam =? 0); reflexivity.
  - destruct m as [| | | |dir]; try discriminate Hm. cbn in Hm.
    apply negb_false_iff in Hm. cbn [Camera_MoveTick] in Hrun.
    rewrite (Camera_MoveDirectionTick_zero_eq cam dir s Hm) in Hrun.
    injection Hrun as <- <-.
    cbn. repeat split. destruct (prev_frame_ts cam =? 0); reflexivity.
Qed.

(** A move to the front on the camera whose time stamp is zero: the time
    stamp becomes the first reading, 7, and the clock was read twice. *)
Lemma tick_moves_frame_witness :
  exists cam' s',
    Camera_MoveTick (pfm := pf_math_ref) (pw := pow_square) MoveFront cam_outside sdl_7
    = Some (cam', s')
    /\ front cam' = front cam_outside /\ bounds cam' = bounds cam_outside
    /\ prev_frame_ts cam' = 7 /\ calls s' = 2%nat.
Proof.
  destruct (Camera_MoveTick (pfm := pf_math_ref) (pw := pow_square)
              MoveFront cam_outside sdl_7) as [[cam' s']|] eqn:Hrun;
    [|vm_compute in Hrun; discriminate Hrun].
  exists cam', s'. split; [reflexivity|].
  destruct (@tick_moves_frame pf_math_ref pow_square MoveFront cam_outside sdl_7 cam' s' Hrun)
    as ((Hf & _ & _ & _ & _ & _ & _ & Hb) & Hts & _ & Hcalls).
  split; [exact Hf|]. split; [exact Hb|]. split; [exact Hts | exact Hcalls].
Defined.

(** X5. What a tick function that gets to move computes. The time it
    measures is the number of milliseconds between the clock reading that
    the time stamp holds and the current one, also when the 32-bit
    counter has wrapped around in between; on a camera whose time stamp
    is zero it is the time between the function's own two readings. An
    unbounded camera takes the moved position as it is (no assertion can
    fail); a bounded one with a box that is not empty takes its clamp. *)
Theorem tick_displacement `{PFMath} `{Pow} :
  forall (m : move) (cam : camera) (s : sdl) (t0 elapsed : Z),
    gets_to_move m = true ->
    0 <= elapsed < 2 ^ 32 ->
    (prev_frame_ts cam <> 0 /\ prev_frame_ts cam = uint32 t0
     /\ readings s (calls s) = t0 + elapsed
     \/ prev_frame_ts cam = 0 /\ readings s (calls s) = t0
        /\ readings s (S (calls s)) = t0 + elapsed) ->
    exists s1,
      (bounded cam = false ->
       Camera_MoveTick m cam s
       = Some (set_pos (set_prev_frame_ts cam (uint32 t0)) (moved_pos m cam elapsed), s1))
      /\ (bounded cam = true -> box_nonempty (bounds cam) = true ->
          Camera_MoveTick m cam s
          = Some (camera_move_within_bounds
                    (set_pos (set_prev_frame_ts cam (uint32 t0)) (moved_pos m cam elapsed)),
                  s1)).
Proof.
  intros m cam s t0 elapsed Hm He Hclock. exists (tick_clock cam s).
  rewrite (Camera_MoveTick_eq m cam s Hm), clamp_and_check_eq.
  destruct (tick_elapsed cam s t0 elapsed He Hclock) as [Hts Hd]. rewrite Hd, Hts.
  set (c := set_pos _ _). change (bounded c) with (bounded cam).
  split.
  - intros ->. reflexivity.
  - intros -> Hne. change (bounds cam) with (bounds c) in Hne.
    now rewrite (camera_move_within_bounds_in_bounds c Hne).
Qed.

(** The unbounded camera was stamped at 2^32 - 1, and the clock, having
    wrapped around, reads 2^32 + 1: the move is by 2 milliseconds. *)
Lemma tick_displacement_witness :
  gets_to_move (pw := pow_square) MoveFront = true
  /\ prev_frame_ts cam_free = uint32 (2 ^ 32 - 1)
  /\ readings sdl_wrapped (calls sdl_wrapped) = (2 ^ 32 - 1) + 2
  /\ exists s1,
       Camera_MoveTick (pfm := pf_math_ref) (pw := pow_square) MoveFront cam_free sdl_wrapped
       = Some (set_pos cam_free (moved_pos (pfm := pf_math_ref) MoveFront cam_free 2), s1).
Proof.
  split; [reflexivity|]. split; [reflexivity|]. split; [reflexivity|].
  destruct (@tick_displacement pf_math_ref pow_square MoveFront cam_free sdl_wrapped
              (2 ^ 32 - 1) 2 eq_refl ltac:(lia)) as [s1 [Hfree _]].
  - left. split; [discriminate|]. split; reflexivity.
  - exists s1. exact (Hfree eq_refl).
Defined.

(** X6. [Camera_ChangeDirection] is [Camera_SetPitchAndYaw] at the yaw
    yaw + dx * sensitivity and at the pitch pitch - dy * sensitivity
    saturated to [-89, 89]: kept when strictly between the two, -89 when
    not above -89, and 89 when not below 89, which is where a NaN pitch
    ends up. [Camera_GetPitch] and [Camera_GetYaw] read back what
    [Camera_SetPitchAndYaw] was given. Neither function writes pos,
    speed, sensitivity, the time stamp or the bounds, so the invariant on
    the bounds is untouched, and front and up are functions of the pitch
    and the yaw alone. *)
Theorem Camera_ChangeDirection_as_SetPitchAndYaw `{PFMath} `{Trig} :
  forall (cam : camera) (dx dy : Z),
    let p := F32.sub (pitch cam) (F32.mul (F32.of_Z dy) (sensitivity cam)) in
    let yw := F32.add (yaw cam) (F32.mul (F32.of_Z dx) (sensitivity cam)) in
    Camera_ChangeDirection cam dx dy
    = Camera_SetPitchAndYaw cam
        (if F32.ltb p (F32.of_Z 89)
         then if F32.gtb p (F32.of_Z (-89)) then p else F32.of_Z (-89)
         else F32.of_Z 89)
        yw
    /\ pitch (Camera_ChangeDirection (set_pitch cam S754_nan) dx dy) = F32.of_Z 89
    /\ (forall p' yw',
          let cam' := Camera_SetPitchAndYaw cam p' yw' in
          Camera_GetPitch cam' = p' /\ Camera_GetYaw cam' = yw'
          /\ pos cam' = pos cam /\ speed cam' = speed cam
          /\ sensitivity cam' = sensitivity cam
          /\ prev_frame_ts cam' = prev_frame_ts cam
          /\ bounded cam' = bounded cam /\ bounds cam' = bounds cam
          /\ bounds_invariant cam' = bounds_invariant cam)
    /\ (forall (other : camera) p' yw',
          front (Camera_SetPitchAndYaw cam p' yw')
          = front (Camera_SetPitchAndYaw other p' yw')
          /\ up (Camera_SetPitchAndYaw cam p' yw')
             = up (Camera_SetPitchAndYaw other p' yw')).
Proof.
  intros cam dx dy p yw. split; [|split; [|split]].
  - unfold Camera_ChangeDirection, Camera_SetPitchAndYaw. cbv zeta.
    cbn [pitch yaw sensitivity set_yaw set_pitch]. fold p yw.
    destruct (F32.ltb p (F32.of_Z 89)) eqn:E1.
    + destruct (F32.gtb p (F32.of_Z (-89))); reflexivity.
    + reflexivity.
  - reflexivity.
  - intros p' yw'. repeat split.
  - intros other p' yw'. split; reflexivity.
Qed.

(** X7. The two functions that finish a frame always return. They write
    nothing of the camera but the time stamp, which takes the clock
    reading, so the invariant on the bounds is untouched; they hand the
    renderer the view matrix that [Camera_MakeViewMat] computes, with the
    position, and then a projection, and leave the viewport alone. The
    projection of [Camera_TickFinishPerspective] is the one of
    [Camera_MakeProjMat] when CAM_FOV_RAD is DEG_TO_RAD(45.0f) and
    CAM_Z_NEAR_DIST is 0.1f, the values [Camera_MakeProjMat] has in their
    place. *)
Theorem TickFinish_stamps_and_renders `{PFMath} `{Trig} `{PFMat} `{Config} :
  forall (cam : camera) (g : gl) (s : sdl),
    let cam' := set_prev_frame_ts cam (uint32 (readings s (calls s))) in
    let s' := mk_sdl (readings s) (S (calls s)) in
    (exists proj,
       Camera_TickFinishPerspective cam g s
       = Some ((cam', mk_gl (viewport g)
                        (rendered g
                         ++ [R_GL_SetViewMatAndPos (Camera_MakeViewMat cam) (pos cam);
                             R_GL_SetProj proj])), s')
       /\ (CAM_FOV_RAD = DEG_TO_RAD (F32.of_Z 45) -> CAM_Z_NEAR_DIST = f_0_1 ->
           proj = Camera_MakeProjMat cam g))
    /\ (forall bot_left top_right, exists proj,
          Camera_TickFinishOrthographic cam bot_left top_right g s
          = Some ((cam', mk_gl (viewport g)
                           (rendered g
                            ++ [R_GL_SetViewMatAndPos (Camera_MakeViewMat cam) (pos cam);
                                R_GL_SetProj proj])), s'))
    /\ bounds_invariant cam' = bounds_invariant cam.
Proof.
  intros cam g s cam' s'. split; [|split].
  - eexists. split; [apply Camera_TickFinishPerspective_eq|].
    intros Hfov Hnear. unfold Camera_MakeProjMat. rewrite Hfov, Hnear. reflexivity.
  - intros bot_left top_right. eexists. apply Camera_TickFinishOrthographic_eq.
  - reflexivity.
Qed.

(** With the constants of [config_ref] the projection that finishes a
    perspective frame is the one [Camera_MakeProjMat] computes. *)
Lemma TickFinish_stamps_and_renders_witness :
  CAM_FOV_RAD (Config := config_ref) = DEG_TO_RAD (Trig := trig_ref) (F32.of_Z 45)
  /\ CAM_Z_NEAR_DIST (Config := config_ref) = f_0_1
  /\ exists s',
       Camera_TickFinishPerspective (pfm := pf_math_ref) (trig := trig_ref)
         (config := config_ref) cam_inside gl_640_480 sdl_7
       = Some ((set_prev_frame_ts cam_inside 7,
                mk_gl (viewport gl_640_480)
                      [R_GL_SetViewMatAndPos
                         (Camera_MakeViewMat (pfm := pf_math_ref) cam_inside)
                         (pos cam_inside);
                       R_GL_SetProj
                         (Camera_MakeProjMat (config := config_ref) cam_inside gl_640_480)]),
               s').
Proof.
  split; [reflexivity|]. split; [reflexivity|].
  destruct (@TickFinish_stamps_and_renders pf_math_ref trig_ref pf_mat_ref config_ref
              cam_inside gl_640_480 sdl_7) as [(proj & Hrun & Hproj) _].
  rewrite (Hproj eq_refl eq_refl) in Hrun.
  eexists. exact Hrun.
Defined.

(** X8. A frame and the move after it. After a frame was finished at the
    time t0, a tick function that gets to move measures the time since
    t0, unless the clock read zero at t0 (modulo 2^32): the time stamp
    zero means that none is set, and the tick function then takes its own
    first reading t1 as the time stamp and measures the time between its
    two readings. *)
Theorem finish_then_tick `{PFMath} `{Trig} `{Pow} `{PFMat} `{Config} :
  forall (m : move) (cam : camera) (g : gl) (s : sdl) (t0 t1 elapsed : Z),
    gets_to_move m = true ->
    bounded cam = false ->
    0 <= elapsed < 2 ^ 32 ->
    readings s (calls s) = t0 ->
    (uint32 t0 <> 0 /\ t1 = t0 /\ readings s (S (calls s)) = t0 + elapsed
     \/ uint32 t0 = 0 /\ readings s (S (calls s)) = t1
        /\ readings s (S (S (calls s))) = t1 + elapsed) ->
    exists s',
      (let* r := Camera_TickFinishPerspective cam g in Camera_MoveTick m (fst r)) s
      = Some (set_pos (set_prev_frame_ts cam (uint32 t1)) (moved_pos m cam elapsed), s')
      /\ forall bot_left top_right,
           (let* r := Camera_TickFinishOrthographic cam bot_left top_right g in
            Camera_MoveTick m (fst r)) s
           = Some (set_pos (set_prev_frame_ts cam (uint32 t1)) (moved_pos m cam elapsed), s').
Proof.
  intros m cam g s t0 t1 elapsed Hm Hb He Hr0 Hclock.
  set (cam1 := set_prev_frame_ts cam (uint32 (readings s (calls s)))).
  set (s1 := mk_sdl (readings s) (S (calls s))).
  assert (Hstep : Camera_MoveTick m cam1 s1
    = Some (set_pos (set_prev_frame_ts cam (uint32 t1)) (moved_pos m cam elapsed),
            tick_clock cam1 s1)).
  { rewrite (Camera_MoveTick_eq m cam1 s1 Hm), clamp_and_check_eq.
    destruct (tick_elapsed cam1 s1 t1 elapsed He) as [Hts Hd].
    - subst cam1 s1. cbn [prev_frame_ts set_prev_frame_ts readings calls]. rewrite Hr0.
      destruct Hclock as [(Hnz & -> & Hr1)|(Hz & Hr1 & Hr2)].
      + left. repeat split; assumption.
      + right. repeat split; assumption.
    - rewrite Hd, Hts. subst cam1. cbn [bounded set_pos set_prev_frame_ts]. rewrite Hb.
      rewrite (moved_pos_prev_frame_ts m cam). destruct cam; reflexivity. }
  exists (tick_clock cam1 s1). split; [|intros bot_left top_right].
  - unfold bind. rewrite Camera_TickFinishPerspective_eq. exact Hstep.
  - unfold bind. rewrite Camera_TickFinishOrthographic_eq. exact Hstep.
Qed.

(** The frame of the unbounded camera is finished at the time 7 and the
    camera moves to the front at the time 8: by 1 millisecond. *)
Lemma finish_then_tick_witness :
  gets_to_move (pw := pow_square) MoveFront = true
  /\ bounded cam_free = false
  /\ uint32 (readings sdl_7 (calls sdl_7)) <> 0
  /\ exists s',
       (let* r := Camera_TickFinishPerspective (pfm := pf_math_ref) (trig := trig_ref)
                    (config := config_ref) cam_free gl_640_480 in
        Camera_MoveTick (pfm := pf_math_ref) (pw := pow_square) MoveFront (fst r)) sdl_7
       = Some (set_pos (set_prev_frame_ts cam_free 7)
                       (moved_pos (pfm := pf_math_ref) MoveFront cam_free 1), s').
Proof.
  split; [reflexivity|]. split; [reflexivity|]. split; [discriminate|].
  destruct (@finish_then_tick pf_math_ref trig_ref pow_square pf_mat_ref config_ref
              MoveFront cam_free gl_640_480 sdl_7 7 7 1 eq_refl eq_refl ltac:(lia) eq_refl)
    as [s' [Hrun _]].
  - left. split; [discriminate|]. split; reflexivity.
  - exists s'. exact Hrun.
Defined.

(** X9. Setting and reading the position and the restriction.
    [Camera_SetPos] returns exactly when the camera is unbounded or the
    new position lies in the box, which a position with a NaN x or z
    never does; the position is then read back by [Camera_GetPos], and
    its y by [Camera_GetHeight]. [Camera_RestrictPosWithBox] returns
    exactly when the position the camera has lies in the new box; the
    camera is then restricted to that box, and stays where it was.
    [Camera_UnrestrictPos] always returns; it lifts the restriction and
    keeps the box. A new camera is not restricted. *)
Theorem position_and_restriction :
  forall (cam : camera) (s : sdl),
    (forall p,
       (is_Some (Camera_SetPos cam p s)
        <-> bounded cam = false \/ camera_pos_in_bounds (set_pos cam p) = true)
       /\ (bounded cam = true -> x p = S754_nan \/ z p = S754_nan ->
           Camera_SetPos cam p s = None)
       /\ (forall cam' s', Camera_SetPos cam p s = Some (cam', s') ->
             s' = s /\ cam' = set_pos cam p
             /\ Camera_GetPos cam' = p /\ Camera_GetHeight cam' = y p))
    /\ (forall box,
          (is_Some (Camera_RestrictPosWithBox cam box s)
           <-> camera_pos_in_bounds (set_bounds cam true box) = true)
          /\ (forall cam' s', Camera_RestrictPosWithBox cam box s = Some (cam', s') ->
                s' = s /\ Camera_PosIsRestricted cam' = true /\ bounds cam' = box
                /\ Camera_GetPos cam' = Camera_GetPos cam
                /\ Camera_UnrestrictPos cam' s = Some (set_bounds cam false box, s)))
    /\ Camera_UnrestrictPos cam s = Some (set_bounds cam false (bounds cam), s)
    /\ Camera_PosIsRestricted Camera_New = false.
Proof.
  intros cam s. split; [|split; [|split]].
  - intros p. unfold Camera_SetPos, bind, assert, ret.
    change (bounded (set_pos cam p)) with (bounded cam). split; [|split].
    + destruct (bounded cam); cbn [negb orb].
      * destruct (camera_pos_in_bounds (set_pos cam p)).
        -- split; [now right|intros _; eexists; reflexivity].
        -- split; [intros [r Hr]; discriminate Hr|intros [Hf|Hf]; discriminate Hf].
      * split; [now left|intros _; eexists; reflexivity].
    + intros -> Hnan. cbn [negb orb].
      assert (Hout : camera_pos_in_bounds (set_pos cam p) = false).
      { unfold camera_pos_in_bounds. cbn [pos set_pos bounds].
        destruct Hnan as [-> | ->].
        - reflexivity.
        - apply andb_false_intro2. unfold F32.geb. now rewrite SFleb_nan_r. }
      rewrite Hout. reflexivity.
    + intros cam' s'.
      destruct (negb (bounded cam) || camera_pos_in_bounds (set_pos cam p)); [|discriminate].
      intros [= <- <-]. repeat split.
  - intros box. unfold Camera_RestrictPosWithBox, bind, assert, ret.
    change (bounded (set_bounds cam true box)) with true. cbn [negb orb]. split.
    + destruct (camera_pos_in_bounds (set_bounds cam true box)).
      * split; [reflexivity|intros _; eexists; reflexivity].
      * split; [intros [r Hr]; discriminate Hr|discriminate].
    + intros cam' s'.
      destruct (camera_pos_in_bounds (set_bounds cam true box)); [|discriminate].
      intros [= <- <-]. repeat split.
  - reflexivity.
  - reflexivity.
Qed.

(** The camera in the box [0, 10] x [0, 10] refuses a position whose x is
    NaN and takes the position (1, 2, 3). *)
Lemma position_and_restriction_witness :
  bounded cam_inside = true
  /\ Camera_SetPos cam_inside (mk_vec3 S754_nan F32.zero F32.zero) sdl_7 = None
  /\ exists cam',
       Camera_SetPos cam_inside (mk_vec3 (F32.of_Z 1) (F32.of_Z 2) (F32.of_Z 3)) sdl_7
       = Some (cam', sdl_7)
       /\ Camera_GetHeight cam' = F32.of_Z 2.
Proof.
  split; [reflexivity|].
  destruct (position_and_restriction cam_inside sdl_7) as [Hset _]. split.
  - destruct (Hset (mk_vec3 S754_nan F32.zero F32.zero)) as (_ & Hnan & _).
    apply Hnan; [reflexivity|]. left. reflexivity.
  - destruct (Hset (mk_vec3 (F32.of_Z 1) (F32.of_Z 2) (F32.of_Z 3))) as (Hiff & _ & Hget).
    destruct (proj2 Hiff) as [[cam' s'] Hrun]; [right; vm_compute; reflexivity|].
    destruct (Hget cam' s' Hrun) as (-> & _ & _ & Hh).
    exists cam'. split; [exact Hrun | exact Hh].
Defined.

(** X10. With a box whose corner (bounds.x, bounds.z) is finite and whose
    extents bounds.w and bounds.h are not negative (zero, positive or
    +infinity), the box is not empty in float arithmetic, and so, wherever
    the position was before the call, every tick function that gets to
    move returns on a bounded camera, with
    bounds.x - bounds.w <= pos.x <= bounds.x and
    bounds.z <= pos.z <= bounds.z + bounds.h, and with the box it had. *)
Theorem ticks_return_in_nonnegative_box `{PFMath} `{Pow} :
  forall (m : move) (cam : camera) (s : sdl),
    bounded cam = true ->
    box_finite_nonneg (bounds cam) = true ->
    gets_to_move m = true ->
    box_nonempty (bounds cam) = true
    /\ exists cam' s',
         Camera_MoveTick m cam s = Some (cam', s')
         /\ bounds cam' = bounds cam
         /\ F32.leb (F32.sub (bx (bounds cam)) (bw (bounds cam))) (x (pos cam')) = true
         /\ F32.leb (x (pos cam')) (bx (bounds cam)) = true
         /\ F32.leb (bz (bounds cam)) (z (pos cam')) = true
         /\ F32.leb (z (pos cam')) (F32.add (bz (bounds cam)) (bh (bounds cam))) = true.
Proof.
  intros m cam s Hb Hbox Hm.
  pose proof (box_finite_nonneg_nonempty _ Hbox) as Hne. split; [exact Hne|].
  rewrite (Camera_MoveTick_eq m cam s Hm), clamp_and_check_eq.
  set (c := set_pos _ _). change (bounded c) with (bounded cam). rewrite Hb.
  change (bounds cam) with (bounds c) in Hne.
  rewrite (camera_move_within_bounds_in_bounds c Hne).
  eexists _, _. split; [reflexivity|]. split; [reflexivity|].
  apply (in_bounds_unfold (camera_move_within_bounds c)).
  now apply camera_move_within_bounds_in_bounds.
Qed.

(** The box [0, 10] x [0, 10] has a finite corner and the extents 10; the
    camera at x = 100 returns from a move along x with x at most 10. *)
Lemma ticks_return_in_nonnegative_box_witness :
  bounded cam_outside = true
  /\ box_finite_nonneg (bounds cam_outside) = true
  /\ gets_to_move (pw := pow_square) (MoveDirection dir_x) = true
  /\ exists cam' s',
       Camera_MoveTick (pfm := pf_math_ref) (pw := pow_square)
         (MoveDirection dir_x) cam_outside sdl_7 = Some (cam', s')
       /\ F32.leb (x (pos cam')) (F32.of_Z 10) = true.
Proof.
  assert (Hbox : box_finite_nonneg (bounds cam_outside) = true) by (vm_compute; reflexivity).
  assert (Hm : gets_to_move (pw := pow_square) (MoveDirection dir_x) = true)
    by (vm_compute; reflexivity).
  split; [reflexivity|]. split; [exact Hbox|]. split; [exact Hm|].
  destruct (@ticks_return_in_nonnegative_box pf_math_ref pow_square
              (MoveDirection dir_x) cam_outside sdl_7 eq_refl Hbox Hm)
    as (_ & cam' & s' & Hrun & _ & _ & Hhi & _).
  exists cam', s'. split; [exact Hrun | exact Hhi].
Defined.

End CameraProperties.

Section Sqrt2Facts.
Import Sqrt2.

Lemma sqrt2_sq : (sqrt 2 * sqrt 2 = 2)%R.
Proof. apply sqrt_sqrt. lra. Qed.

Lemma sqrt2_pos : (0 < sqrt 2)%R.
Proof. apply sqrt_lt_R0. lra. Qed.

(** sqrt 2 is irrational: p * p = 2 * q * q has only the zero solution. *)
Lemma sq_eq_2sq_zero (p q : Z) : p * p = 2 * (q * q) -> p = 0 /\ q = 0.
Proof.
  assert (Hn : forall n : nat, forall p q : Z,
             Z.abs p < Z.of_nat n -> p * p = 2 * (q * q) -> p = 0 /\ q = 0).
  { induction n as [|n IH]; intros p' q' Hlt Heq; [lia|].
    destruct (Z.eq_dec p' 0) as [->|Hp]; [split; [reflexivity|nia]|].
    assert (Hev : exists k, p' = 2 * k).
    { destruct (Z.Even_or_Odd p') as [[k Hk]|[k Hk]]; [eauto|].
      exfalso. subst p'. lia. }
    destruct Hev as [k ->].
    assert (Hq : q' * q' = 2 * (k * k)) by lia.
    assert (Hq0 : q' <> 0) by nia.
    assert (Hlt' : Z.abs q' < Z.of_nat n) by nia.
    destruct (IH q' k Hlt' Hq) as [Hq' _]. contradiction. }
  intros Heq. apply (Hn (S (Z.to_nat (Z.abs p))) p q); [lia|exact Heq].
Qed.

Lemma sq_sqrt2 (q : R) : ((q * sqrt 2) * (q * sqrt 2) = 2 * (q * q))%R.
Proof. pose proof sqrt2_sq. nra. Qed.

Lemma Rsq_le (a b : R) : (0 <= a)%R -> (a <= b)%R -> (a * a <= b * b)%R.
Proof. intros. nra. Qed.

Lemma Rsq_le_inv (a b : R) : (0 <= b)%R -> (a * a <= b * b)%R -> (a <= b)%R.
Proof. intros. nra. Qed.

Lemma sqrt2_nonneg_spec a : nonneg a = true <-> (0 <= to_R a)%R.
Proof.
  destruct a as [p q]. unfold nonneg, to_R; cbn [rat irr].
  pose proof sqrt2_pos as Hp.
  destruct (Z.leb_spec 0 p) as [Hp0|Hp0]; destruct (Z.leb_spec 0 q) as [Hq0|Hq0].
  - split; [intros _|reflexivity].
    apply IZR_le in Hp0, Hq0. nra.
  - rewrite Z.leb_le. apply IZR_le in Hp0. apply IZR_lt in Hq0.
    assert (Hneg : (0 <= - IZR q * sqrt 2)%R) by nra.
    pose proof (sq_sqrt2 (- IZR q)) as Hsq.
    split.
    + intros H. apply IZR_le in H. rewrite !mult_IZR in H.
      assert (- IZR q * sqrt 2 <= IZR p)%R; [|lra].
      apply Rsq_le_inv; [assumption|]. rewrite Hsq. lra.
    + intros H. apply le_IZR. rewrite !mult_IZR.
      assert (Hle : (- IZR q * sqrt 2 <= IZR p)%R) by lra.
      pose proof (Rsq_le _ _ Hneg Hle) as Hs2. rewrite Hsq in Hs2. lra.
  - rewrite Z.leb_le. apply IZR_lt in Hp0. apply IZR_le in Hq0.
    assert (Hneg : (0 <= IZR q * sqrt 2)%R) by nra.
    pose proof (sq_sqrt2 (IZR q)) as Hsq.
    split.
    + intros H. apply IZR_le in H. rewrite !mult_IZR in H.
      assert (- IZR p <= IZR q * sqrt 2)%R; [|lra].
      apply Rsq_le_inv; [assumption|]. rewrite Hsq. lra.
    + intros H. apply le_IZR. rewrite !mult_IZR.
      assert (Hle : (- IZR p <= IZR q * sqrt 2)%R) by lra.
      assert (Hnp : (0 <= - IZR p)%R) by lra.
      pose proof (Rsq_le _ _ Hnp Hle) as Hs2. rewrite Hsq in Hs2. lra.
  - split; [discriminate|]. intros H. exfalso.
    apply IZR_lt in Hp0, Hq0. nra.
Qed.

Lemma sqrt2_to_R_add a b : to_R (add a b) = (to_R a + to_R b)%R.
Proof. unfold to_R, add; cbn [rat irr]. rewrite !plus_IZR. lra. Qed.

Lemma sqrt2_to_R_sub a b : to_R (sub a b) = (to_R a - to_R b)%R.
Proof. unfold to_R, sub; cbn [rat irr]. rewrite !minus_IZR. lra. Qed.

Lemma sqrt2_to_R_zero : to_R zero = 0%R.
Proof. unfold to_R, zero; cbn. lra. Qed.

Lemma sqrt2_leb_spec a b : leb a b = true <-> (to_R a <= to_R b)%R.
Proof. unfold leb. rewrite sqrt2_nonneg_spec, sqrt2_to_R_sub. lra. Qed.

(** The representation is unique: equal values have equal coefficients. *)
Lemma sqrt2_to_R_inj a b : to_R a = to_R b -> a = b.
Proof.
  destruct a as [p1 q1], b as [p2 q2]. unfold to_R; cbn [rat irr]. intros H.
  assert (Hd : (IZR (p1 - p2) = - IZR (q1 - q2) * sqrt 2)%R).
  { rewrite !minus_IZR. lra. }
  assert (Hsq : (p1 - p2) * (p1 - p2) = 2 * ((q1 - q2) * (q1 - q2))).
  { apply eq_IZR. rewrite !mult_IZR. rewrite Hd at 1 2.
    rewrite sq_sqrt2. lra. }
  apply sq_eq_2sq_zero in Hsq. destruct Hsq. f_equal; lia.
Qed.

Lemma sqrt2_eqb_spec a b : eqb a b = true <-> a = b.
Proof.
  destruct a, b. unfold eqb; cbn [rat irr].
  rewrite andb_true_iff, !Z.eqb_eq. split; [intros []; congruence|].
  intros [= -> ->]. split; reflexivity.
Qed.

Lemma sqrt2_ltb_spec a b : ltb a b = true <-> (to_R a < to_R b)%R.
Proof.
  unfold ltb. rewrite andb_true_iff, sqrt2_leb_spec, negb_true_iff.
  split.
  - intros [Hle Hne]. destruct Hle as [Hlt|Heq]; [exact Hlt|].
    apply sqrt2_to_R_inj in Heq. subst b.
    assert (eqb a a = true) by (now apply sqrt2_eqb_spec). congruence.
  - intros Hlt. split; [lra|].
    destruct (eqb a b) eqn:E; [|reflexivity].
    apply sqrt2_eqb_spec in E. subst b. lra.
Qed.

Lemma sqrt2_ltb_false_leb a b : ltb a b = false -> leb b a = true.
Proof.
  intros H. apply sqrt2_leb_spec. destruct (Rle_lt_dec (to_R b) (to_R a)) as [|Hlt]; [assumption|].
  apply sqrt2_ltb_spec in Hlt. congruence.
Qed.
End Sqrt2Facts.

(** * Facts on the solver *)
Section GridFacts.
Import Nav.
Implicit Types (g : CostGrid) (c a b t : cell) (d : direction) (w : wavefront).

Lemma elem_of_cells g c : c ∈ cells g ↔ in_grid g c = true.
Proof.
  unfold cells, in_grid. rewrite list_elem_of_bind. destruct c as [r k]; cbn [fst snd].
  split.
  - intros (r' & Hc & Hr). apply list_elem_of_fmap in Hc as (k' & [= -> ->] & Hk).
    apply elem_of_seqZ in Hr, Hk.
    rewrite !andb_true_iff, !Z.leb_le, !Z.ltb_lt. lia.
  - rewrite !andb_true_iff, !Z.leb_le, !Z.ltb_lt. intros [[[? ?] ?] ?].
    exists r. split; [|apply elem_of_seqZ; lia].
    apply list_elem_of_fmap. exists k. split; [done|]. apply elem_of_seqZ; lia.
Qed.

Lemma NoDup_cells g : NoDup (cells g).
Proof.
  unfold cells. apply NoDup_bind.
  - intros r1 r2 c Hr1 Hr2 H1 H2.
    apply list_elem_of_fmap in H1 as (? & -> & _).
    apply list_elem_of_fmap in H2 as (? & [= -> _] & _). done.
  - intros r _. apply NoDup_fmap_2; [|apply NoDup_seqZ]. intros ? ? [=]. done.
  - apply NoDup_seqZ.
Qed.

Lemma passable_in_grid g c k : passable g c = Some k → in_grid g c = true.
Proof. unfold passable. by destruct (in_grid g c). Qed.

Lemma passable_cost g c k : passable g c = Some k → cost g c.1 c.2 = Cost k.
Proof.
  unfold passable. destruct (in_grid g c); [|done].
  destruct (cost g c.1 c.2); naive_solver.
Qed.

Lemma passable_range g c k : grid_ok g = true → passable g c = Some k → 1 ≤ k ≤ 254.
Proof.
  unfold grid_ok. rewrite forallb_forall. intros Hok Hp.
  pose proof (passable_in_grid _ _ _ Hp) as Hin.
  apply elem_of_cells, list_elem_of_In in Hin. specialize (Hok _ Hin).
  rewrite (passable_cost _ _ _ Hp) in Hok. cbn in Hok.
  apply andb_true_iff in Hok as [?%Z.leb_le ?%Z.leb_le]. lia.
Qed.

Lemma step_cost_inv g a d k :
  step_cost g a d = Some k →
  ∃ ca cb, passable g a = Some ca ∧ passable g (neighbour a d) = Some cb
           ∧ k = (if diagonal d then Sqrt2.mk 0 (ca + cb) else Sqrt2.mk (ca + cb) 0).
Proof.
  unfold step_cost. destruct (passable g a) as [ca|]; [|done].
  destruct (passable g (neighbour a d)) as [cb|]; [|done].
  intros [= <-]. eauto.
Qed.

Lemma step_cost_in_grid g a d k :
  step_cost g a d = Some k → in_grid g a = true ∧ in_grid g (neighbour a d) = true.
Proof.
  intros (ca & cb & Ha & Hb & _)%step_cost_inv. eauto using passable_in_grid.
Qed.

(** A step costs at least 1. *)
Lemma step_cost_pos g a d k :
  grid_ok g = true → step_cost g a d = Some k → (1 <= Sqrt2.to_R k)%R.
Proof.
  intros Hok (ca & cb & Ha & Hb & ->)%step_cost_inv.
  apply (passable_range _ _ _ Hok) in Ha, Hb.
  assert (H2 : (2 <= IZR (ca + cb))%R) by (apply IZR_le; lia).
  pose proof sqrt2_pos. pose proof sqrt2_sq.
  assert (1 <= sqrt 2)%R by nra.
  destruct (diagonal d); unfold Sqrt2.to_R; cbn [Sqrt2.rat Sqrt2.irr]; nra.
Qed.

Lemma sqrt2_le_refl x : Sqrt2.le x x.
Proof. unfold Sqrt2.le. lra. Qed.
Lemma sqrt2_le_trans x y z : Sqrt2.le x y → Sqrt2.le y z → Sqrt2.le x z.
Proof. unfold Sqrt2.le. lra. Qed.
Lemma sqrt2_le_antisym x y : Sqrt2.le x y → Sqrt2.le y x → x = y.
Proof. unfold Sqrt2.le. intros. apply sqrt2_to_R_inj. lra. Qed.
Lemma sqrt2_le_total x y : Sqrt2.le x y ∨ Sqrt2.le y x.
Proof. unfold Sqrt2.le. lra. Qed.

Lemma walk_in_grid g t c v : walk g t c v → in_grid g c = true.
Proof. destruct 1; [done|]. by eapply step_cost_in_grid. Qed.

Lemma walk_nonneg g t c v : grid_ok g = true → walk g t c v → (0 <= Sqrt2.to_R v)%R.
Proof.
  intros Hok. induction 1 as [|t b d k v _ IH Hk].
  - rewrite sqrt2_to_R_zero. lra.
  - rewrite sqrt2_to_R_add. pose proof (step_cost_pos _ _ _ _ Hok Hk). lra.
Qed.

Lemma all_directions d : d ∈ directions.
Proof. unfold directions. destruct d; set_solver. Qed.

Lemma neighbour_ne c d : neighbour c d ≠ c.
Proof. destruct c as [r k]. destruct d; unfold neighbour; cbn; intros [=]; lia. Qed.

(** ** The least entry of a list *)
Lemma foldl_min_entry {K} (l : list (K * Sqrt2.t)) init :
  match foldl min_entry init l with
  | None => init = None ∧ l = []
  | Some e =>
      (init = Some e ∨ e ∈ l)
      ∧ (∀ x, x ∈ l → Sqrt2.le e.2 x.2)
      ∧ (∀ i, init = Some i → Sqrt2.le e.2 i.2)
  end.
Proof.
  revert init. induction l as [|x l IH]; intros init; cbn [foldl].
  - destruct init as [i|]; [|done].
    split; [by left|]. split; [by intros ? ?%elem_of_nil|].
    intros ? [= <-]. apply sqrt2_le_refl.
  - specialize (IH (min_entry init x)).
    destruct (foldl min_entry (min_entry init x) l) as [e|].
    + destruct IH as (Hin & Hall & Hinit).
      assert (Hx : Sqrt2.le e.2 x.2 ∧ ∀ i, init = Some i → Sqrt2.le e.2 i.2).
      { unfold min_entry in Hinit. destruct init as [i|].
        - destruct (Sqrt2.ltb x.2 i.2) eqn:E.
          + apply sqrt2_ltb_spec in E. specialize (Hinit _ eq_refl).
            split; [done|]. intros ? [= <-]. unfold Sqrt2.le in *. lra.
          + apply sqrt2_ltb_false_leb, sqrt2_leb_spec in E. specialize (Hinit _ eq_refl).
            split; [unfold Sqrt2.le in *; lra|]. by intros ? [= <-].
        - split; [by apply Hinit|done]. }
      destruct Hx as [Hx Hi]. split; [|split].
      * destruct Hin as [Hin|Hin]; [|right; by apply elem_of_cons; right].
        unfold min_entry in Hin. destruct init as [i|].
        -- destruct (Sqrt2.ltb x.2 i.2); [|by left].
           injection Hin as <-. right. by apply elem_of_cons; left.
        -- injection Hin as <-. right. by apply elem_of_cons; left.
      * intros y [->|Hy]%elem_of_cons; [done|by apply Hall].
      * done.
    + destruct IH as [Hnone _]. unfold min_entry in Hnone.
      destruct init as [i|]; [by destruct (Sqrt2.ltb x.2 i.2)|done].
Qed.

Lemma elem_of_frontier g w c v :
  (c, v) ∈ frontier g w ↔ in_grid g c = true ∧ (c ∉ expanded w) ∧ integ w !! c = Some v.
Proof.
  unfold frontier. rewrite list_elem_of_omap. split.
  - intros (c' & Hc & H). apply elem_of_cells in Hc.
    case_bool_decide; [done|].
    destruct (integ w !! c') as [v'|] eqn:E; [|done]. by injection H as <- <-.
  - intros (Hin & Hne & Hv). exists c. split; [by apply elem_of_cells|].
    rewrite bool_decide_false by done. by rewrite Hv.
Qed.

Lemma pick_min_Some g w a :
  pick_min g w = Some a →
  ∃ va, integ w !! a = Some va ∧ (a ∉ expanded w) ∧ in_grid g a = true
        ∧ ∀ b vb, in_grid g b = true → b ∉ expanded w → integ w !! b = Some vb → Sqrt2.le va vb.
Proof.
  unfold pick_min. pose proof (foldl_min_entry (frontier g w) None) as H.
  destruct (foldl min_entry None (frontier g w)) as [[a' va]|]; [|done].
  intros [= <-]. destruct H as ([?|Hin] & Hall & _); [done|].
  apply elem_of_frontier in Hin as (? & ? & ?). exists va. repeat split; try done.
  intros b vb ? ? ?. apply (Hall (b, vb)). by apply elem_of_frontier.
Qed.

Lemma pick_min_None g w b vb :
  pick_min g w = None → in_grid g b = true → integ w !! b = Some vb → b ∈ expanded w.
Proof.
  unfold pick_min. pose proof (foldl_min_entry (frontier g w) None) as H.
  destruct (foldl min_entry None (frontier g w)) as [e|]; [done|].
  intros _ Hin Hv. destruct H as [_ Hnil].
  destruct (decide (b ∈ expanded w)) as [|Hne]; [done|].
  assert (Hf : (b, vb) ∈ frontier g w) by by apply elem_of_frontier.
  rewrite Hnil in Hf. by apply elem_of_nil in Hf.
Qed.
End GridFacts.

Section Wavefront.
Import Nav.
Context (g : CostGrid) (targets : list cell).
Hypothesis Hok : grid_ok g = true.
Implicit Types (c a b t : cell) (d : direction) (w : wavefront).
Local Abbreviation Inv := (Nav.Inv g targets).

Lemma seed_lookup c v :
  integ (seed g targets) !! c = Some v ↔ c ∈ targets ∧ in_grid g c = true ∧ v = Sqrt2.zero.
Proof.
  unfold seed; cbn [integ]. induction targets as [|t ts IH]; cbn [foldr].
  - rewrite lookup_empty. split; [done|]. by intros [?%elem_of_nil _].
  - destruct (in_grid g t) eqn:E.
    + destruct (decide (t = c)) as [->|Hne].
      * rewrite lookup_insert_eq. split.
        -- intros [= <-]. split; [by left|done].
        -- intros (_ & _ & ->). done.
      * rewrite lookup_insert_ne by done. rewrite IH, elem_of_cons. naive_solver.
    + rewrite IH, elem_of_cons. split; [naive_solver|].
      intros ([->|?] & ? & ?); [congruence|done].
Qed.

Lemma Inv_seed : Inv (seed g targets).
Proof.
  split.
  - intros t Ht Hin. by apply seed_lookup.
  - intros c v (Hc & Hin & ->)%seed_lookup. exists c. split; [done|by constructor].
  - intros a Ha. by apply elem_of_nil in Ha.
  - constructor.
  - intros a b va vb Ha. by apply elem_of_nil in Ha.
  - intros a d k va Ha. by apply elem_of_nil in Ha.
  - intros i j a b va vb _ Hi. done.
  - intros c v (Hc & Hin & ->)%seed_lookup. by left.
Qed.

(** ** One expansion *)
Section Expand.
Context (w0 : wavefront) (a : cell) (va : Sqrt2.t).
Hypothesis Hinv : Inv w0.
Hypothesis Hva : integ w0 !! a = Some va.
Hypothesis Hnew : a ∉ expanded w0.
Hypothesis Hmin : ∀ b vb, in_grid g b = true → b ∉ expanded w0 →
                          integ w0 !! b = Some vb → Sqrt2.le va vb.
Local Abbreviation Mid := (Nav.Mid g w0 a va).

Lemma Mid_nil : Mid [] (mk_wave (integ w0) (expanded w0 ++ [a])).
Proof.
  split; cbn [integ expanded].
  - done.
  - done.
  - intros c v ?. by left.
  - intros c v0 ?. exists v0. split; [done|apply sqrt2_le_refl].
  - intros d k Hd. by apply elem_of_nil in Hd.
Qed.

Lemma Mid_relax ds w d : Mid ds w → Mid (ds ++ [d]) (relax g a va w d).
Proof.
  intros HM.
  (* the state is unchanged *)
  assert (Hsame : (∀ k, step_cost g a d = Some k → neighbour a d ∉ expanded w →
                     ∃ vb, integ w !! neighbour a d = Some vb ∧ Sqrt2.le vb (Sqrt2.add va k)) →
                  Mid (ds ++ [d]) w).
  { intros Hd. destruct HM. split; try done.
    - intros c v Hv. destruct (mid_new0 _ _ Hv) as [?|(d' & k & ? & ?)]; [by left|].
      right. exists d', k. rewrite elem_of_app. naive_solver.
    - intros d' k [?| ->%list_elem_of_singleton]%elem_of_app; eauto. }
  (* the neighbour gets the value va + k *)
  assert (Hset : ∀ k, step_cost g a d = Some k → neighbour a d ∉ expanded w →
            (∀ old, integ w !! neighbour a d = Some old → Sqrt2.lt (Sqrt2.add va k) old) →
            Mid (ds ++ [d])
                (mk_wave (<[neighbour a d := Sqrt2.add va k]> (integ w)) (expanded w))).
  { intros k Hk Hne Hold. destruct HM. split; cbn [integ expanded].
    - done.
    - intros c Hc. rewrite lookup_insert_ne by (intros <-; done). by apply mid_frozen0.
    - intros c v. destruct (decide (neighbour a d = c)) as [<-|Hc].
      + rewrite lookup_insert_eq. intros [= <-]. right. exists d, k.
        rewrite elem_of_app, list_elem_of_singleton. naive_solver.
      + rewrite lookup_insert_ne by done. intros Hv.
        destruct (mid_new0 _ _ Hv) as [?|(d' & k' & ? & ?)]; [by left|].
        right. exists d', k'. rewrite elem_of_app. naive_solver.
    - intros c v0 Hc. destruct (mid_decrease0 _ _ Hc) as (v & Hv & Hle).
      destruct (decide (neighbour a d = c)) as [<-|Hne'].
      + rewrite lookup_insert_eq. eexists. split; [done|].
        specialize (Hold _ Hv). unfold Sqrt2.le, Sqrt2.lt in *. lra.
      + rewrite lookup_insert_ne by done. eauto.
    - intros d' k' Hd' Hk' Hne'.
      destruct (decide (neighbour a d = neighbour a d')) as [Heq|Hneq].
      + rewrite <- Heq, lookup_insert_eq. eexists. split; [done|].
        apply elem_of_app in Hd' as [Hd'| ->%list_elem_of_singleton].
        * destruct (mid_offered0 _ _ Hd' Hk' Hne') as (vb & Hvb & Hle).
          rewrite <- Heq in Hvb. specialize (Hold _ Hvb). unfold Sqrt2.le, Sqrt2.lt in *. lra.
        * rewrite Hk in Hk'. injection Hk' as <-. apply sqrt2_le_refl.
      + rewrite lookup_insert_ne by done.
        apply elem_of_app in Hd' as [Hd'| ->%list_elem_of_singleton]; [eauto|done]. }
  unfold relax. destruct (step_cost g a d) as [k|] eqn:Hk; [|by apply Hsame].
  case_bool_decide as Hexp; [by apply Hsame; intros ? _ ?|].
  destruct (integ w !! neighbour a d) as [old|] eqn:Hold.
  - destruct (Sqrt2.ltb (Sqrt2.add va k) old) eqn:Hlt.
    + apply (Hset k); [done..|]. intros ? [= <-]. by apply sqrt2_ltb_spec.
    + apply Hsame. intros ? [= <-] _. exists old. split; [done|].
      by apply sqrt2_leb_spec, sqrt2_ltb_false_leb.
  - apply (Hset k); [done..|]. by intros ? [=].
Qed.

Lemma Mid_foldl ds : Mid ds (foldl (relax g a va) (mk_wave (integ w0) (expanded w0 ++ [a])) ds).
Proof.
  induction ds as [|d ds IH] using rev_ind; [apply Mid_nil|].
  rewrite foldl_app. cbn [foldl]. by apply Mid_relax.
Qed.

Lemma expand_eq : expand g w0 a = foldl (relax g a va) (mk_wave (integ w0) (expanded w0 ++ [a])) directions.
Proof. unfold expand. by rewrite Hva. Qed.

Lemma Inv_expand : Inv (expand g w0 a).
Proof.
  rewrite expand_eq. pose proof (Mid_foldl directions) as HM.
  set (w := foldl _ _ _) in *. destruct HM as [Hexp Hfrozen Hnewv Hdec Hoff].
  pose proof (inv_sound _ Hinv _ _ Hva) as (ta & Hta & Hwalk_a).
  assert (Hva_nonneg : (0 <= Sqrt2.to_R va)%R) by by eapply walk_nonneg.
  assert (Hin_exp : ∀ c, c ∈ expanded w ↔ c ∈ expanded w0 ∨ c = a).
  { intros c. rewrite Hexp, elem_of_app, list_elem_of_singleton. done. }
  assert (Ha_w : integ w !! a = Some va).
  { rewrite Hfrozen; [done|]. apply Hin_exp. by right. }
  (* a value in the new state is at least va unless its cell was expanded before *)
  assert (Hge : ∀ c v, integ w !! c = Some v → c ∉ expanded w0 → Sqrt2.le va v).
  { intros c v Hv Hne. destruct (Hnewv _ _ Hv) as [Hold|(d & k & _ & _ & Hk & -> & _)].
    - apply (Hmin c); [|done..]. destruct (inv_sound _ Hinv _ _ Hold) as (? & _ & ?).
      by eapply walk_in_grid.
    - pose proof (step_cost_pos _ _ _ _ Hok Hk). unfold Sqrt2.le. rewrite sqrt2_to_R_add. lra. }
  split.
  - (* seeds *)
    intros t Ht Hin. pose proof (inv_seed _ Hinv _ Ht Hin) as Hs.
    destruct (Hdec _ _ Hs) as (v & Hv & Hle).
    rewrite Hv. f_equal. apply sqrt2_le_antisym; [done|].
    destruct (Hnewv _ _ Hv) as [Hold|(d & k & _ & _ & Hk & -> & _)].
    + rewrite Hs in Hold. injection Hold as <-. apply sqrt2_le_refl.
    + pose proof (step_cost_pos _ _ _ _ Hok Hk). unfold Sqrt2.le.
      rewrite sqrt2_to_R_add, sqrt2_to_R_zero. lra.
  - (* sound *)
    intros c v Hv. destruct (Hnewv _ _ Hv) as [Hold|(d & k & _ & <- & Hk & -> & _)].
    + by apply (inv_sound _ Hinv).
    + exists ta. split; [done|]. by econstructor.
  - (* valued *)
    intros c [Hc| ->]%Hin_exp; [|by rewrite Ha_w].
    rewrite Hfrozen by (apply Hin_exp; by left). by apply (inv_valued _ Hinv).
  - (* nodup *)
    rewrite Hexp. apply NoDup_app. split; [apply (inv_nodup _ Hinv)|].
    split; [|apply NoDup_singleton].
    intros c Hc ->%list_elem_of_singleton. done.
  - (* order *)
    intros x b vx vb Hx Hb Hvx Hvb.
    assert (Hb0 : b ∉ expanded w0) by (intros ?; apply Hb, Hin_exp; by left).
    pose proof (Hge _ _ Hvb Hb0) as Hvab.
    apply Hin_exp in Hx as [Hx| ->].
    + rewrite Hfrozen in Hvx by (apply Hin_exp; by left).
      eapply sqrt2_le_trans; [|exact Hvab].
      by apply (inv_order _ Hinv x a).
    + rewrite Ha_w in Hvx. by injection Hvx as <-.
  - (* relaxed *)
    intros x d k vx Hx Hvx Hk.
    pose proof (step_cost_pos _ _ _ _ Hok Hk) as Hkpos.
    rewrite Hfrozen in Hvx by done.
    apply Hin_exp in Hx as [Hx| ->].
    + destruct (inv_relaxed _ Hinv _ _ _ _ Hx Hvx Hk) as (vb & Hvb & Hle).
      destruct (Hdec _ _ Hvb) as (v & Hv & Hle').
      exists v. split; [done|]. by eapply sqrt2_le_trans.
    + rewrite Hva in Hvx. injection Hvx as <-.
      destruct (decide (neighbour a d ∈ expanded w)) as [Hn|Hn].
      * rewrite (Hfrozen _ Hn). apply Hin_exp in Hn as [Hn|Hn];
          [|by destruct (neighbour_ne a d)].
        destruct (inv_valued _ Hinv _ Hn) as [vn Hvn].
        exists vn. split; [done|].
        pose proof (inv_order _ Hinv _ _ _ _ Hn Hnew Hvn Hva) as Hle.
        unfold Sqrt2.le in *. rewrite sqrt2_to_R_add. lra.
      * apply Hoff; [apply all_directions|done..].
  - (* sorted *)
    intros i j x b vx vb Hij Hi Hj Hvx Hvb.
    assert (Hxe : x ∈ expanded w) by by eapply list_elem_of_lookup_2.
    assert (Hbe : b ∈ expanded w) by by eapply list_elem_of_lookup_2.
    rewrite Hfrozen in Hvx, Hvb by done.
    rewrite Hexp in Hi, Hj.
    destruct (decide (j < length (expanded w0))%nat) as [Hjl|Hjl].
    + rewrite lookup_app_l in Hi, Hj by lia.
      by apply (inv_sorted _ Hinv i j x b).
    + rewrite lookup_app_r in Hj by lia.
      apply list_lookup_singleton_Some in Hj as [_ <-].
      rewrite Hva in Hvb. injection Hvb as <-.
      destruct (decide (i < length (expanded w0))%nat) as [Hil|Hil].
      * rewrite lookup_app_l in Hi by lia.
        apply (inv_order _ Hinv x a); [by eapply list_elem_of_lookup_2|done..].
      * rewrite lookup_app_r in Hi by lia.
        apply list_lookup_singleton_Some in Hi as [_ <-].
        rewrite Hva in Hvx. injection Hvx as <-. apply sqrt2_le_refl.
  - (* parent *)
    intros c v Hv. destruct (Hnewv _ _ Hv) as [Hold|(d & k & _ & <- & Hk & -> & _)].
    + destruct (inv_parent _ Hinv _ _ Hold) as [?|(x & d & k & vx & Hx & ? & ? & Hvx & ?)];
        [by left|].
      right. exists x, d, k, vx. split; [apply Hin_exp; by left|].
      repeat split; try done. rewrite Hfrozen; [done|]. apply Hin_exp. by left.
    + right. exists a, d, k, va. split; [apply Hin_exp; by right|done].
Qed.

Lemma expand_expanded : expanded (expand g w0 a) = expanded w0 ++ [a].
Proof. rewrite expand_eq. apply (mid_expanded _ _ (Mid_foldl directions)). Qed.
End Expand.

(** ** The whole expansion *)
Lemma Inv_in_grid w c v : Inv w → integ w !! c = Some v → in_grid g c = true.
Proof.
  intros Hinv Hv. destruct (inv_sound _ Hinv _ _ Hv) as (t & _ & Hw).
  by eapply walk_in_grid.
Qed.

Lemma Inv_step w a : Inv w → pick_min g w = Some a → Inv (expand g w a).
Proof.
  intros Hinv (va & Hva & Hnew & _ & Hmin)%pick_min_Some.
  by eapply Inv_expand.
Qed.

Lemma run_Inv n w : Inv w → Inv (run n g w).
Proof.
  revert w. induction n as [|n IH]; intros w Hinv; cbn [run]; [done|].
  destruct (pick_min g w) as [a|] eqn:Hp; [|done].
  apply IH. by apply Inv_step.
Qed.

Lemma expanded_length w : Inv w → (length (expanded w) ≤ length (cells g))%nat.
Proof.
  intros Hinv. apply submseteq_length, NoDup_submseteq; [apply (inv_nodup _ Hinv)|].
  intros c Hc. apply elem_of_cells.
  destruct (inv_valued _ Hinv _ Hc) as [v Hv]. by eapply Inv_in_grid.
Qed.

Lemma all_expanded_done w :
  Inv w → (length (cells g) ≤ length (expanded w))%nat → pick_min g w = None.
Proof.
  intros Hinv Hlen.
  assert (Hperm : expanded w ≡ₚ cells g).
  { apply submseteq_length_Permutation; [|done].
    apply NoDup_submseteq; [apply (inv_nodup _ Hinv)|].
    intros c Hc. apply elem_of_cells.
    destruct (inv_valued _ Hinv _ Hc) as [v Hv]. by eapply Inv_in_grid. }
  destruct (pick_min g w) as [a|] eqn:Hp; [|done].
  apply pick_min_Some in Hp as (va & _ & Hnew & Hin & _).
  destruct Hnew. rewrite Hperm. by apply elem_of_cells.
Qed.

(** The budget is enough: the expansion stops with an empty front. *)
Lemma run_done n w :
  Inv w → (length (cells g) ≤ length (expanded w) + n)%nat →
  pick_min g (run n g w) = None.
Proof.
  revert w. induction n as [|n IH]; intros w Hinv Hlen; cbn [run].
  - apply all_expanded_done; [done|lia].
  - destruct (pick_min g w) as [a|] eqn:Hp; [|done].
    pose proof Hp as (va & Hva & Hnew & _ & Hmin)%pick_min_Some.
    apply IH; [by apply Inv_step|].
    rewrite (expand_expanded w a va) by done. rewrite length_app. cbn. lia.
Qed.

Lemma solve_Inv : Inv (solve_wavefront g targets).
Proof. apply run_Inv, Inv_seed. Qed.

Lemma solve_done : pick_min g (solve_wavefront g targets) = None.
Proof. apply run_done; [apply Inv_seed|]. unfold budget. cbn. lia. Qed.

(** Every cell a walk from a target reaches has a value, and the value is
    at most the cost of the walk. *)
Lemma solve_least t c v :
  t ∈ targets → walk g t c v →
  ∃ v', integ (solve_wavefront g targets) !! c = Some v' ∧ Sqrt2.le v' v.
Proof.
  intros Ht. pose proof solve_Inv as Hinv. pose proof solve_done as Hdone.
  induction 1 as [t Hin|t b d k v Hw IH Hk].
  - exists Sqrt2.zero. split; [by apply (inv_seed _ Hinv)|apply sqrt2_le_refl].
  - destruct (IH Ht) as (vb & Hvb & Hle).
    assert (Hb : b ∈ expanded (solve_wavefront g targets)).
    { eapply pick_min_None; [done| |done]. by eapply walk_in_grid. }
    destruct (inv_relaxed _ Hinv _ _ _ _ Hb Hvb Hk) as (vn & Hvn & Hle').
    exists vn. split; [done|]. unfold Sqrt2.le in *. rewrite sqrt2_to_R_add in *. lra.
Qed.

(** The value of a cell is the cost of a walk from a target. *)
Lemma solve_sound c v :
  integ (solve_wavefront g targets) !! c = Some v → ∃ t, t ∈ targets ∧ walk g t c v.
Proof. apply (inv_sound _ solve_Inv). Qed.
End Wavefront.

Section SolveFacts.
Import Nav.
Implicit Types (g : CostGrid) (c a b : cell) (d : direction).

Lemma field_at_tabulate {A} g (f : cell → A) c :
  field_at (tabulate g f) c = if in_grid g c then Some (f c) else None.
Proof.
  unfold field_at, tabulate, in_grid. destruct c as [r k]; cbn [fst snd].
  destruct (Z.leb_spec 0 r) as [Hr|Hr]; [|done].
  destruct (Z.leb_spec 0 k) as [Hk|Hk]; cbn [andb]; [|by rewrite andb_false_r].
  rewrite list_lookup_fmap.
  destruct (Z.ltb_spec r (rows g)) as [Hr'|Hr']; cbn [andb].
  - rewrite lookup_seqZ_lt by lia. cbn. rewrite list_lookup_fmap.
    destruct (Z.ltb_spec k (cols g)) as [Hk'|Hk'].
    + rewrite lookup_seqZ_lt by lia. cbn. do 3 f_equal; lia.
    + by rewrite lookup_seqZ_ge by lia.
  - by rewrite lookup_seqZ_ge by lia.
Qed.

Lemma Solve_integ g targets c :
  field_at (Solve g targets).1 c
  = if in_grid g c then Some (integ_value (integ (solve_wavefront g targets)) c) else None.
Proof. apply field_at_tabulate. Qed.

Lemma Solve_flow g targets c :
  field_at (Solve g targets).2 c
  = if in_grid g c then Some (flow_of (integ (solve_wavefront g targets)) c) else None.
Proof. apply field_at_tabulate. Qed.

Lemma Solve_Value g targets c v :
  grid_ok g = true →
  field_at (Solve g targets).1 c = Some (Value v)
  ↔ integ (solve_wavefront g targets) !! c = Some v.
Proof.
  intros Hok. rewrite Solve_integ. unfold integ_value. split.
  - destruct (in_grid g c); [|done].
    by destruct (integ (solve_wavefront g targets) !! c); intros [=]; subst.
  - intros Hv. rewrite (Inv_in_grid g targets _ c v (solve_Inv g targets Hok) Hv).
    by rewrite Hv.
Qed.

Lemma neighbour_opposite c d : neighbour (neighbour c d) (opposite d) = c.
Proof. destruct c as [r k]. destruct d; unfold neighbour; cbn; f_equal; lia. Qed.

(** A value is 0 exactly at the seeds. *)
Lemma walk_zero g t c v :
  grid_ok g = true → walk g t c v → v = Sqrt2.zero → c = t.
Proof.
  intros Hok Hw. destruct Hw as [|t b d k v Hw Hk]; [done|].
  intros Hz. exfalso. pose proof (walk_nonneg _ _ _ _ Hok Hw).
  pose proof (step_cost_pos _ _ _ _ Hok Hk).
  assert (Hr : Sqrt2.to_R (Sqrt2.add v k) = 0%R) by (rewrite Hz; apply sqrt2_to_R_zero).
  rewrite sqrt2_to_R_add in Hr. lra.
Qed.

(** ** Grids with the same contents *)
Lemma same_grid_in_grid g1 g2 c : same_grid g1 g2 → in_grid g1 c = in_grid g2 c.
Proof. intros (Hr & Hc & _). unfold in_grid. by rewrite Hr, Hc. Qed.

Lemma same_grid_passable g1 g2 c : same_grid g1 g2 → passable g1 c = passable g2 c.
Proof.
  intros Hs. unfold passable. rewrite <- (same_grid_in_grid g1 g2 c Hs).
  destruct (in_grid g1 c) eqn:E; [|done]. destruct Hs as (_ & _ & Hcost).
  by rewrite (Hcost c E).
Qed.

Lemma same_grid_step_cost g1 g2 a d :
  same_grid g1 g2 → step_cost g1 a d = step_cost g2 a d.
Proof.
  intros Hs. unfold step_cost. by rewrite !(same_grid_passable g1 g2 _ Hs).
Qed.

Lemma same_grid_cells g1 g2 : same_grid g1 g2 → cells g1 = cells g2.
Proof. intros (Hr & Hc & _). unfold cells. by rewrite Hr, Hc. Qed.

Lemma same_grid_ok g1 g2 : same_grid g1 g2 → grid_ok g1 = true → grid_ok g2 = true.
Proof.
  intros Hs. unfold grid_ok. rewrite <- (same_grid_cells g1 g2 Hs), !forallb_forall.
  intros H c Hc. destruct Hs as (_ & _ & Hcost).
  rewrite <- Hcost; [by apply H|]. by apply elem_of_cells, list_elem_of_In.
Qed.

Lemma same_grid_walk g1 g2 t c v : same_grid g1 g2 → walk g1 t c v → walk g2 t c v.
Proof.
  intros Hs. induction 1 as [t Hin|t b d k v _ IH Hk].
  - constructor. by rewrite <- (same_grid_in_grid g1 g2 t Hs).
  - econstructor; [done|]. by rewrite <- (same_grid_step_cost g1 g2 _ _ Hs).
Qed.

(** The integration values are the least walk costs, so they depend on
    the contents of the grid and on the set of targets only. *)
Lemma solve_least_unique g1 g2 t1 t2 c v :
  grid_ok g1 = true → grid_ok g2 = true →
  (∀ t c v, walk g1 t c v → walk g2 t c v) →
  (∀ t c v, walk g2 t c v → walk g1 t c v) →
  same_targets t1 t2 →
  integ (solve_wavefront g1 t1) !! c = Some v →
  integ (solve_wavefront g2 t2) !! c = Some v.
Proof.
  intros Hok1 Hok2 H12 H21 Ht Hv.
  destruct (solve_sound g1 t1 Hok1 c v Hv) as (t & Hin & Hw).
  destruct (solve_least g2 t2 Hok2 t c v) as (v' & Hv' & Hle);
    [by apply Ht|by apply H12|].
  destruct (solve_sound g2 t2 Hok2 c v' Hv') as (t' & Hin' & Hw').
  destruct (solve_least g1 t1 Hok1 t' c v') as (v'' & Hv'' & Hle');
    [by apply Ht|by apply H21|].
  rewrite Hv in Hv''. injection Hv'' as <-.
  rewrite Hv'. f_equal. by apply sqrt2_le_antisym.
Qed.

Lemma solve_integ_ext g1 g2 t1 t2 :
  grid_ok g1 = true → same_grid g1 g2 → same_targets t1 t2 →
  integ (solve_wavefront g1 t1) = integ (solve_wavefront g2 t2).
Proof.
  intros Hok1 Hs Ht.
  pose proof (same_grid_ok g1 g2 Hs Hok1) as Hok2.
  assert (Hs' : same_grid g2 g1).
  { destruct Hs as (Hr & Hc & Hcost). split; [done|]. split; [done|].
    intros c Hc'. symmetry. apply Hcost. unfold in_grid in *. by rewrite Hr, Hc. }
  apply map_eq. intros c.
  destruct (integ (solve_wavefront g1 t1) !! c) as [v|] eqn:E1.
  - symmetry. eapply (solve_least_unique g1 g2 t1 t2); eauto using same_grid_walk.
  - destruct (integ (solve_wavefront g2 t2) !! c) as [v|] eqn:E2; [|done].
    rewrite <- E1. eapply (solve_least_unique g2 g1 t2 t1); eauto using same_grid_walk.
    intros x. symmetry. apply Ht.
Qed.
End SolveFacts.

Section SolveClaims.
Import Nav.

Lemma tabulate_ext {A} g1 g2 (f : cell → A) :
  rows g1 = rows g2 → cols g1 = cols g2 → tabulate g1 f = tabulate g2 f.
Proof. intros Hr Hc. unfold tabulate. by rewrite Hr, Hc. Qed.

(** Solve is a function of the contents of the grid and of the set of
    target cells: two invocations on the same inputs return the same
    fields, and so do invocations on grids with the same costs and on
    target lists with the same cells, in whatever order and however often
    they are listed. *)
Lemma Solve_depends_on_contents :
  (∀ g targets r1 r2, r1 = Solve g targets → r2 = Solve g targets → r1 = r2)
  ∧ ∀ g1 g2 t1 t2,
      grid_ok g1 = true → same_grid g1 g2 → same_targets t1 t2 →
      Solve g1 t1 = Solve g2 t2.
Proof.
  split; [by intros g targets r1 r2 -> ->|].
  intros g1 g2 t1 t2 Hok Hs Ht. unfold Solve. cbv zeta.
  rewrite (solve_integ_ext g1 g2 t1 t2 Hok Hs Ht).
  destruct Hs as (Hr & Hc & _). by rewrite !(tabulate_ext g1 g2 _ Hr Hc).
Qed.

Lemma solve_parent g targets c v :
  grid_ok g = true →
  integ (solve_wavefront g targets) !! c = Some v →
  (c ∈ targets ∧ v = Sqrt2.zero)
  ∨ ∃ a d k va, neighbour a d = c ∧ step_cost g a d = Some k
                ∧ integ (solve_wavefront g targets) !! a = Some va
                ∧ v = Sqrt2.add va k ∧ Sqrt2.lt va v.
Proof.
  intros Hok Hv.
  destruct (inv_parent _ (solve_Inv g targets Hok) _ _ Hv)
    as [?|(a & d & k & va & _ & Hn & Hk & Hva & ->)]; [by left|].
  right. exists a, d, k, va. repeat split; try done.
  pose proof (step_cost_pos _ _ _ _ Hok Hk). unfold Sqrt2.lt. rewrite sqrt2_to_R_add. lra.
Qed.


(** C2. In the Integration Field of Solve every cell connected to the
    target region has a value; the value of a reached cell that is not a
    seed is not smaller than the least value among its passable
    neighbours closer to the target, one of which is the cell it was
    expanded from, whose value is not larger; and the cells were expanded
    in the order of non-decreasing value. *)
Theorem integration_monotone g targets :
  grid_ok g = true →
  (∀ c, connected g targets c → ∃ v, field_at (Solve g targets).1 c = Some (Value v))
  ∧ (∀ c v, field_at (Solve g targets).1 c = Some (Value v) →
       (c ∈ targets ∧ v = Sqrt2.zero)
       ∨ ((∃ m, min_closer g (Solve g targets).1 c v = Some m ∧ Sqrt2.le m v)
          ∧ ∃ a d k va,
              neighbour a d = c ∧ step_cost g a d = Some k
              ∧ field_at (Solve g targets).1 a = Some (Value va)
              ∧ v = Sqrt2.add va k ∧ Sqrt2.le va v))
  ∧ (∀ (i j : nat) a b,
       (i ≤ j)%nat →
       expanded (solve_wavefront g targets) !! i = Some a →
       expanded (solve_wavefront g targets) !! j = Some b →
       ∃ va vb, field_at (Solve g targets).1 a = Some (Value va)
                ∧ field_at (Solve g targets).1 b = Some (Value vb) ∧ Sqrt2.le va vb).
Proof.
  intros Hok. pose proof (solve_Inv g targets Hok) as Hinv. split; [|split].
  - intros c (t & v & Ht & Hw).
    destruct (solve_least g targets Hok t c v Ht Hw) as (v' & Hv' & _).
    exists v'. by apply Solve_Value.
  - intros c v Hv%Solve_Value; [|done].
    destruct (solve_parent g targets c v Hok Hv)
      as [?|(a & d & k & va & Hn & Hk & Hva & -> & Hlt)]; [by left|].
    right. split.
    + pose proof Hk as (ca & cb & Hpa & _)%step_cost_inv.
      assert (Hmem : (a, va) ∈ closer_neighbours g (Solve g targets).1 c (Sqrt2.add va k)).
      { unfold closer_neighbours. apply list_elem_of_omap. exists (opposite d).
        split; [apply all_directions|]. cbv zeta.
        rewrite <- Hn, neighbour_opposite, Hpa.
        rewrite (proj2 (Solve_Value g targets a va Hok) Hva).
        by rewrite (proj2 (sqrt2_ltb_spec _ _) Hlt). }
      unfold min_closer.
      pose proof (foldl_min_entry
                    (closer_neighbours g (Solve g targets).1 c (Sqrt2.add va k)) None) as Hm.
      destruct (foldl min_entry None _) as [e|].
      * destruct Hm as (_ & Hall & _). exists e.2. split; [done|].
        specialize (Hall _ Hmem). unfold Sqrt2.le, Sqrt2.lt in *. cbn in Hall. lra.
      * destruct Hm as [_ Hnil]. rewrite Hnil in Hmem. by apply elem_of_nil in Hmem.
    + exists a, d, k, va. repeat split; try done; [by apply Solve_Value|].
      unfold Sqrt2.le, Sqrt2.lt in *. lra.
  - intros i j a b Hij Hi Hj.
    destruct (inv_valued _ Hinv a) as [va Hva]; [by eapply list_elem_of_lookup_2|].
    destruct (inv_valued _ Hinv b) as [vb Hvb]; [by eapply list_elem_of_lookup_2|].
    exists va, vb. split; [by apply Solve_Value|]. split; [by apply Solve_Value|].
    by apply (inv_sorted _ Hinv i j a b).
Qed.




Lemma best_neighbour_None i c :
  (∀ d, i !! neighbour c d = None) → best_neighbour i c = None.
Proof.
  intros Hn. unfold best_neighbour.
  assert (H : ∀ ds, foldl (min_dir i c) None ds = None).
  { induction ds as [|d ds IH]; [done|]. cbn [foldl]. unfold min_dir at 2.
    by rewrite Hn. }
  by rewrite H.
Qed.

(** The cells the wavefront never reaches are those that are not connected
    to the target region; they hold the unreachable sentinel and the zero
    vector. *)
Lemma unreached_fields g targets c :
  grid_ok g = true → in_grid g c = true →
  (¬ connected g targets c
   ↔ field_at (Solve g targets).1 c = Some UNREACHABLE)
  ∧ (field_at (Solve g targets).1 c = Some UNREACHABLE →
     field_at (Solve g targets).2 c = Some no_path).
Proof.
  intros Hok Hin. rewrite Solve_integ, Solve_flow, Hin.
  unfold integ_value, flow_of. split; [split|].
  - intros Hnc.
    destruct (integ (solve_wavefront g targets) !! c) as [v|] eqn:Hv; [|done].
    destruct Hnc. destruct (solve_sound g targets Hok c v Hv) as (t & Ht & Hw).
    by exists t, v.
  - intros Hu (t & v & Ht & Hw).
    destruct (solve_least g targets Hok t c v Ht Hw) as (v' & Hv' & _).
    by rewrite Hv' in Hu.
  - by destruct (integ (solve_wavefront g targets) !! c).
Qed.
(** On the 5 x 5 grid with the target (4, 4) the cell (0, 0) has the value
    (8 + 4 sqrt 2) / 2; it is no seed, and has a closer passable
    neighbour. *)
Lemma integration_monotone_witness :
  grid_ok grid_5x5 = true
  ∧ field_at (Solve grid_5x5 [(4, 4)]).1 (0, 0) = Some (Value (Sqrt2.mk 8 4))
  ∧ ∃ m, min_closer grid_5x5 (Solve grid_5x5 [(4, 4)]).1 (0, 0) (Sqrt2.mk 8 4) = Some m
         ∧ Sqrt2.le m (Sqrt2.mk 8 4).
Proof.
  assert (Hok : grid_ok grid_5x5 = true) by (vm_compute; reflexivity).
  assert (Hv : field_at (Solve grid_5x5 [(4, 4)]).1 (0, 0) = Some (Value (Sqrt2.mk 8 4)))
    by (vm_compute; reflexivity).
  split; [exact Hok|]. split; [exact Hv|].
  destruct (integration_monotone grid_5x5 [(4, 4)] Hok) as (_ & Hmono & _).
  destruct (Hmono (0, 0) (Sqrt2.mk 8 4) Hv) as [[Ht _]|[Hm _]].
  - exfalso. apply list_elem_of_singleton in Ht. discriminate Ht.
  - exact Hm.
Defined.

End SolveClaims.

Section PortalFacts.
Import Nav Portals.
Implicit Types (bd pre : list (option Z)) (cur : option run) (s w i j : nat).

Lemma open_at_lt bd j : open_at bd j → (j < length bd)%nat.
Proof. intros [k Hk]. by eapply lookup_lt_Some. Qed.

Lemma open_at_app_l pre bd j : (j < length pre)%nat → open_at (pre ++ bd) j ↔ open_at pre j.
Proof. intros Hj. unfold open_at. by rewrite lookup_app_l. Qed.

Lemma open_at_app_here pre x bd : open_at (pre ++ x :: bd) (length pre) ↔ is_Some x.
Proof.
  unfold open_at. rewrite list_lookup_middle by done. split.
  - intros [k [= ->]]. by eexists.
  - intros [k ->]. by eexists.
Qed.

(** A maximal run that ends where the scan stands is the open run. *)
Lemma run_ending_here pre bd cur s w :
  cur_ok pre cur →
  maximal_run (pre ++ bd) s w → (s + w = length pre)%nat →
  ∃ sum, cur = Some (s, w, sum).
Proof.
  intros Hcur (Hw & Hall & Hleft & _) Hend.
  assert (Hlast : open_at pre (length pre - 1)).
  { apply (open_at_app_l pre bd); [lia|]. apply Hall. lia. }
  destruct cur as [[[s0 w0] sum]|]; cbn in Hcur.
  - destruct Hcur as (Hw0 & Hend0 & Hall0 & Hleft0). exists sum.
    assert (s = s0); [|do 3 f_equal; lia].
    destruct (Nat.lt_trichotomy s s0) as [Hlt|[Heq|Hgt]]; [|done|].
    + destruct Hleft0 as [->|Hn]; [lia|]. destruct Hn.
      apply (open_at_app_l pre bd); [lia|]. apply Hall. lia.
    + destruct Hleft as [->|Hn]; [lia|]. destruct Hn.
      apply open_at_app_l; [lia|]. apply Hall0. lia.
  - exfalso. destruct Hcur as [->|[pre' ->]].
    + apply open_at_lt in Hlast. cbn in Hlast. lia.
    + destruct Hlast as [k Hk]. rewrite length_app in Hk. cbn in Hk.
      replace (length pre' + 1 - 1)%nat with (length pre') in Hk by lia.
      by rewrite list_lookup_middle in Hk.
Qed.

Lemma maximal_run_end bd s w : maximal_run bd s w → (s + w ≤ length bd)%nat.
Proof.
  intros (Hw & Hall & _). assert (H : open_at bd (s + w - 1)) by (apply Hall; lia).
  apply open_at_lt in H. lia.
Qed.

(** The open run is maximal once the boundary ends or a pair is closed. *)
Lemma cur_maximal pre bd s w sum :
  cur_ok pre (Some (s, w, sum)) → (bd = [] ∨ ∃ bd', bd = None :: bd') →
  maximal_run (pre ++ bd) s w.
Proof.
  intros (Hw & Hend & Hall & Hleft) Hbd. split; [done|]. split; [|split].
  - intros j Hj. apply open_at_app_l; [lia|]. by apply Hall.
  - destruct Hleft as [?|Hn]; [by left|]. right. intros Ho. apply Hn.
    eapply open_at_app_l; [|done]. lia.
  - rewrite Hend. destruct Hbd as [->|[bd' ->]].
    + intros Ho%open_at_lt. rewrite length_app in Ho. cbn in Ho. lia.
    + rewrite open_at_app_here. by intros [? [=]].
Qed.

(** The scan returns the maximal runs that end at or after the place it
    started from. *)
Lemma scan_spec bd : ∀ pre cur s w,
  cur_ok pre cur →
  (∃ sum, (s, w, sum) ∈ scan (length pre) cur bd)
  ↔ maximal_run (pre ++ bd) s w ∧ (length pre ≤ s + w)%nat.
Proof.
  induction bd as [|x bd IH]; intros pre cur s w Hcur.
  - cbn [scan]. split.
    + intros [sum Hin]. destruct cur as [r|]; [|by apply elem_of_nil in Hin].
      apply list_elem_of_singleton in Hin as <-.
      split; [eapply cur_maximal; [done|by left]|].
      destruct Hcur as (_ & ? & _). lia.
    + intros [Hrun Hge]. pose proof (maximal_run_end _ _ _ Hrun) as Hle.
      rewrite app_nil_r in Hle.
      destruct (run_ending_here pre [] cur s w Hcur Hrun) as [sum ->]; [lia|].
      exists sum. by apply list_elem_of_singleton.
  - assert (Happ : pre ++ x :: bd = (pre ++ [x]) ++ bd) by by rewrite <- app_assoc.
    assert (Hlen : length (pre ++ [x]) = S (length pre)) by (rewrite length_app; cbn; lia).
    destruct x as [k|]; cbn [scan].
    + (* a passable pair: the run goes on *)
      assert (Hcur' : cur_ok (pre ++ [Some k]) (Some (extend cur (length pre) k))).
      { destruct cur as [[[s0 w0] sum]|]; cbn [extend cur_ok].
        - destruct Hcur as (Hw0 & Hend0 & Hall0 & Hleft0).
          split; [lia|]. split; [lia|]. split.
          + intros j Hj. destruct (decide (j < length pre)%nat).
            * apply open_at_app_l; [done|]. apply Hall0. lia.
            * replace j with (length pre) by lia.
              apply (open_at_app_here pre (Some k) []). by eexists.
          + destruct Hleft0 as [?|Hn]; [by left|]. right. intros Ho. apply Hn.
            eapply open_at_app_l; [|done]. lia.
        - split; [lia|]. split; [lia|]. split.
          + intros j Hj. replace j with (length pre) by lia.
            apply (open_at_app_here pre (Some k) []). by eexists.
          + destruct Hcur as [->|[pre' ->]]; [by left|]. right.
            rewrite length_app. cbn.
            replace (length pre' + 1 - 1)%nat with (length pre') by lia.
            rewrite <- app_assoc. cbn. rewrite open_at_app_here. by intros [? [=]]. }
      rewrite <- Hlen, (IH _ _ s w Hcur'), Happ, Hlen. split.
      * intros [? ?]. split; [done|lia].
      * intros [Hrun Hge]. split; [done|].
        destruct (decide (s + w = length pre)%nat) as [Heq|]; [|lia].
        destruct Hrun as (_ & _ & _ & Hn). destruct Hn.
        rewrite Heq, <- Happ. apply open_at_app_here. by eexists.
    + (* a closed pair: the open run ends *)
      assert (Hcur' : cur_ok (pre ++ [None]) None) by (right; by eexists).
      split.
      * intros [sum [Hin|Hin]%elem_of_app].
        -- destruct cur as [[[s0 w0] sum0]|]; [|by apply elem_of_nil in Hin].
           apply list_elem_of_singleton in Hin as [= -> -> ->].
           split; [eapply cur_maximal; [done|right; by eexists]|].
           destruct Hcur as (_ & ? & _). lia.
        -- rewrite <- Hlen in Hin.
           destruct (proj1 (IH _ _ s w Hcur') (ex_intro _ sum Hin)) as [Hrun Hge].
           rewrite Happ. split; [done|lia].
      * intros [Hrun Hge].
        destruct (decide (s + w = length pre)%nat) as [Heq|Hne].
        -- destruct (run_ending_here pre (None :: bd) cur s w Hcur Hrun Heq) as [sum ->].
           exists sum. apply elem_of_app. left. by apply list_elem_of_singleton.
        -- rewrite Happ in Hrun.
           destruct (proj2 (IH (pre ++ [None]) None s w Hcur')) as [sum Hin];
             [split; [done|lia]|].
           exists sum. apply elem_of_app. right. by rewrite <- Hlen.
Qed.

(** No run is returned twice: the starts of the runs returned are
    pairwise different. *)
Lemma scan_NoDup bd : ∀ pre cur,
  cur_ok pre cur → NoDup ((λ r : run, r.1.1) <$> scan (length pre) cur bd).
Proof.
  induction bd as [|x bd IH]; intros pre cur Hcur.
  - cbn [scan]. destruct cur; cbn; [apply NoDup_singleton|constructor].
  - assert (Hlen : length (pre ++ [x]) = S (length pre)) by (rewrite length_app; cbn; lia).
    destruct x as [k|]; cbn [scan].
    + rewrite <- Hlen. apply IH.
      destruct cur as [[[s0 w0] sum]|]; cbn [extend cur_ok].
      * destruct Hcur as (Hw0 & Hend0 & Hall0 & Hleft0).
        split; [lia|]. split; [lia|]. split.
        -- intros j Hj. destruct (decide (j < length pre)%nat).
           ++ apply open_at_app_l; [done|]. apply Hall0. lia.
           ++ replace j with (length pre) by lia.
              apply (open_at_app_here pre (Some k) []). by eexists.
        -- destruct Hleft0 as [?|Hn]; [by left|]. right. intros Ho. apply Hn.
           eapply open_at_app_l; [|done]. lia.
      * split; [lia|]. split; [lia|]. split.
        -- intros j Hj. replace j with (length pre) by lia.
           apply (open_at_app_here pre (Some k) []). by eexists.
        -- destruct Hcur as [->|[pre' ->]]; [by left|]. right.
           rewrite length_app. cbn.
           replace (length pre' + 1 - 1)%nat with (length pre') by lia.
           rewrite <- app_assoc. cbn. rewrite open_at_app_here. by intros [? [=]].
    + assert (Hcur' : cur_ok (pre ++ [None]) None) by (right; by eexists).
      rewrite fmap_app. apply NoDup_app. split; [|split].
      * destruct cur; cbn; [apply NoDup_singleton|constructor].
      * intros s Hs Hs'.
        destruct cur as [[[s0 w0] sum0]|]; [|by apply elem_of_nil in Hs].
        apply list_elem_of_singleton in Hs. cbn in Hs. subst s.
        apply list_elem_of_fmap in Hs' as ([[s1 w1] sum1] & Hs1 & Hin).
        cbn in Hs1. subst s1. rewrite <- Hlen in Hin.
        destruct (proj1 (scan_spec bd _ _ s0 w1 Hcur') (ex_intro _ sum1 Hin))
          as [(_ & Hall & _) Hge].
        rewrite Hlen in Hge. destruct Hcur as (Hw0 & Hend0 & _).
        assert (Ho : open_at ((pre ++ [None]) ++ bd) (length pre)) by (apply Hall; lia).
        rewrite <- app_assoc in Ho. cbn in Ho.
        apply open_at_app_here in Ho. by destruct Ho.
      * rewrite <- Hlen. by apply IH.
Qed.
End PortalFacts.

Section PortalClaims.
Import Nav Portals.

Lemma elem_of_BuildPortals a b d p :
  adjacency a b = Some d →
  p ∈ BuildPortals (Some a) (Some b)
  ↔ ∃ s w sum, (s, w, sum) ∈ scan 0 None (shared_boundary a b d)
               ∧ p = portal_of_run a b d (s, w, sum).
Proof.
  intros Hadj. unfold BuildPortals. rewrite Hadj, list_elem_of_fmap. split.
  - intros ([[s w] sum] & -> & Hin). by exists s, w, sum.
  - intros (s & w & sum & Hin & ->). by exists (s, w, sum).
Qed.

Lemma passable_boundary g d i :
  is_Some (passable g (boundary_cell g d i)) → 0 ≤ i < boundary_length g d.
Proof.
  intros [k Hk]. apply passable_in_grid in Hk. unfold in_grid in Hk.
  destruct d; cbn [boundary_cell boundary_length fst snd] in *; lia.
Qed.

Lemma boundary_length_opposite g d :
  boundary_length g (opposite d) = boundary_length g d.
Proof. by destruct d. Qed.

(** The list the scan runs over has a passable pair exactly where the
    two grids are passable. *)
Lemma open_at_shared_boundary a b d j :
  open_at (shared_boundary a b d) j ↔ passable_pair a b d j.
Proof.
  unfold open_at, shared_boundary, passable_pair. rewrite list_lookup_fmap. split.
  - intros [k Hk].
    destruct (seqZ 0 _ !! j) as [i|] eqn:Hi; [|done]. cbn in Hk.
    apply lookup_seqZ in Hi as [-> _]. rewrite Z.add_0_l in Hk.
    unfold crossing in Hk.
    destruct (passable a _) as [ca|]; [|done].
    destruct (passable b _) as [cb|]; [|done]. by split.
  - intros [Ha Hb].
    pose proof (passable_boundary _ _ _ Ha) as Hla.
    pose proof (passable_boundary _ _ _ Hb) as Hlb.
    rewrite boundary_length_opposite in Hlb.
    rewrite (lookup_seqZ_lt 0 _ j) by lia. cbn. rewrite Z.add_0_l.
    unfold crossing. destruct Ha as [ca ->], Hb as [cb ->]. by eexists.
Qed.

Lemma maximal_run_passable a b d s w :
  maximal_run (shared_boundary a b d) s w ↔ maximal_passable_run a b d s w.
Proof.
  unfold maximal_run, maximal_passable_run.
  rewrite !open_at_shared_boundary.
  split; intros (Hw & Hall & Hl & Hr); (split; [done|]); (split; [|done]);
    intros j Hj; by apply open_at_shared_boundary, Hall.
Qed.

(** C5. For two adjacent chunks whose grids exist, BuildPortals returns
    one portal for each maximal contiguous run of boundary cells that are
    passable on both sides, and no other: the portals have pairwise
    different first cells, and a range is that of a portal exactly when
    its pairs of facing cells are passable in both grids and the pairs
    just before and just after it are not. Without one of the grids there
    is no portal. In particular two 4 x 4 chunks whose boundary has a run
    of length 1 and a run of length 2, in either order, get exactly 2
    portals, whether the runs are cut by the cells of the first chunk, by
    the cells of the second, or by both; and a chunk whose side is
    IMPASSABLE throughout gets none. *)
Theorem BuildPortals_maximal_runs :
  (∀ a b d,
     adjacency a b = Some d →
     NoDup (first <$> BuildPortals (Some a) (Some b))
     ∧ (∀ s w,
          (∃ p, p ∈ BuildPortals (Some a) (Some b) ∧ first p = s ∧ width p = w)
          ↔ maximal_passable_run a b d s w)
     ∧ (∀ p, p ∈ BuildPortals (Some a) (Some b) →
             from_chunk p = chunk_id a ∧ to_chunk p = chunk_id b ∧ side p = d))
  ∧ (∀ a b, BuildPortals None b = [] ∧ BuildPortals a None = [])
  ∧ ((λ p, (first p, width p)) <$> BuildPortals (Some chunk_west_1_2) (Some chunk_east)
     = [(0, 1); (2, 2)]%nat)
  ∧ ((λ p, (first p, width p)) <$> BuildPortals (Some chunk_west_2_1) (Some chunk_east)
     = [(0, 2); (3, 1)]%nat)
  ∧ ((λ p, (first p, width p)) <$> BuildPortals (Some chunk_west_open) (Some chunk_east_1_2)
     = [(0, 1); (2, 2)]%nat)
  ∧ ((λ p, (first p, width p)) <$> BuildPortals (Some chunk_west_2_1) (Some chunk_east_1_2)
     = [(0, 1); (3, 1)]%nat)
  ∧ BuildPortals (Some chunk_west_open) (Some chunk_east_shut) = [].
Proof.
  split; [|split; [|split; [|split; [|split; [|split]]]]].
  - intros a b d Hadj. split; [|split].
    + unfold BuildPortals. rewrite Hadj, <- list_fmap_compose.
      pose proof (scan_NoDup (shared_boundary a b d) [] None (or_introl eq_refl)) as Hnd.
      cbn [length] in Hnd.
      erewrite list_fmap_ext; [exact Hnd|]. by intros ? [[s w] sum].
    + intros s w. rewrite <- maximal_run_passable.
      pose proof (scan_spec (shared_boundary a b d) [] None s w (or_introl eq_refl))
        as Hspec.
      cbn [length app] in Hspec. split.
      * intros (p & (s' & w' & sum & Hin & ->)%(elem_of_BuildPortals a b d) & <- & <-);
          [|done].
        cbn. apply Hspec. by exists sum.
      * intros Hrun. destruct (proj2 Hspec) as [sum Hin]; [split; [done|lia]|].
        exists (portal_of_run a b d (s, w, sum)).
        split; [|done]. apply (elem_of_BuildPortals a b d); [done|]. by exists s, w, sum.
    + intros p (s & w & sum & _ & ->)%(elem_of_BuildPortals a b d); done.
  - intros a b. split; [done|by destruct a].
  - by vm_compute.
  - by vm_compute.
  - by vm_compute.
  - by vm_compute.
  - by vm_compute.
Qed.

(** The chunk at (0, 1) lies east of the chunk at (0, 0). The first has
    its row 2 IMPASSABLE on the boundary and the second its row 1: the
    row 3 alone is a portal, a maximal run of pairs passable on both
    sides, and the rows 1 and 2, each passable on one side, are in no
    portal. *)
Lemma BuildPortals_maximal_runs_witness :
  adjacency chunk_west_2_1 chunk_east_1_2 = Some East
  ∧ passable chunk_west_2_1 (2, 3) = None ∧ passable chunk_east_1_2 (2, 0) = Some 1
  ∧ passable chunk_west_2_1 (1, 3) = Some 1 ∧ passable chunk_east_1_2 (1, 0) = None
  ∧ (∃ p, p ∈ BuildPortals (Some chunk_west_2_1) (Some chunk_east_1_2)
          ∧ first p = 3%nat ∧ width p = 1%nat)
  ∧ maximal_passable_run chunk_west_2_1 chunk_east_1_2 East 3 1
  ∧ ¬ ∃ p, p ∈ BuildPortals (Some chunk_west_2_1) (Some chunk_east_1_2)
           ∧ first p = 1%nat ∧ width p = 1%nat.
Proof.
  split; [reflexivity|]. do 4 (split; [reflexivity|]).
  destruct BuildPortals_maximal_runs as [Hgen _].
  destruct (Hgen chunk_west_2_1 chunk_east_1_2 East eq_refl) as (_ & Hruns & _).
  assert (Hp : ∃ p, p ∈ BuildPortals (Some chunk_west_2_1) (Some chunk_east_1_2)
                    ∧ first p = 3%nat ∧ width p = 1%nat).
  { eexists (mk_portal _ _ _ _ _ _). split; [|split; reflexivity].
    vm_compute. apply list_elem_of_further, list_elem_of_here. }
  split; [exact Hp|]. split; [by apply (proj1 (Hruns 3%nat 1%nat))|].
  intros (_ & Hall & _)%(proj1 (Hruns 1%nat 1%nat)).
  destruct (Hall 1%nat ltac:(lia)) as [_ [k Hk]]. vm_compute in Hk. discriminate Hk.
Defined.
End PortalClaims.

Section JoinFacts.
Import Nav Portals.
Implicit Types (g a b : CostGrid) (c s p : cell) (d : direction).

Lemma sqrt2_add_assoc (x y z : Sqrt2.t) :
  Sqrt2.add x (Sqrt2.add y z) = Sqrt2.add (Sqrt2.add x y) z.
Proof. unfold Sqrt2.add; cbn. f_equal; lia. Qed.

Lemma sqrt2_add_zero_l (x : Sqrt2.t) : Sqrt2.add Sqrt2.zero x = x.
Proof. destruct x. unfold Sqrt2.add; cbn. done. Qed.

Lemma grid_ok_spec g :
  grid_ok g = true ↔ ∀ c, in_grid g c = true → cost_ok (cost g c.1 c.2) = true.
Proof.
  unfold grid_ok. rewrite forallb_forall. split.
  - intros H c Hc. by apply H, list_elem_of_In, elem_of_cells.
  - intros H c Hc. by apply H, elem_of_cells, list_elem_of_In.
Qed.

Lemma walk_trans g t m c v v' :
  walk g t m v → walk g m c v' → walk g t c (Sqrt2.add v v').
Proof.
  intros Hw. induction 1 as [m Hin|m x d k v' _ IH Hk].
  - replace (Sqrt2.add v Sqrt2.zero) with v; [done|].
    destruct v. unfold Sqrt2.add; cbn. f_equal; lia.
  - rewrite sqrt2_add_assoc. econstructor; [by apply IH|done].
Qed.

Lemma neighbour_shift off c d : neighbour (shift off c) d = shift off (neighbour c d).
Proof. unfold neighbour, shift; cbn. f_equal; lia. Qed.

Lemma embeds_passable g g' off c k :
  embeds g g' off → passable g c = Some k → passable g' (shift off c) = Some k.
Proof.
  intros He Hp. pose proof (passable_in_grid _ _ _ Hp) as Hin.
  destruct (He c Hin) as [Hin' Hcost].
  unfold passable. rewrite Hin', Hcost. by rewrite (passable_cost _ _ _ Hp).
Qed.

Lemma embeds_step g g' off c d k :
  embeds g g' off → step_cost g c d = Some k → step_cost g' (shift off c) d = Some k.
Proof.
  intros He (ca & cb & Ha & Hb & ->)%step_cost_inv. unfold step_cost.
  rewrite neighbour_shift.
  by rewrite (embeds_passable _ _ _ _ _ He Ha), (embeds_passable _ _ _ _ _ He Hb).
Qed.

Lemma embeds_walk g g' off t c v :
  embeds g g' off → walk g t c v → walk g' (shift off t) (shift off c) v.
Proof.
  intros He. induction 1 as [t Hin|t b d k v _ IH Hk].
  - constructor. by apply He.
  - rewrite <- neighbour_shift. econstructor; [done|]. by eapply embeds_step.
Qed.

Ltac in_grid_solve :=
  unfold in_grid, shift, offset_a, offset_b, join, same_size in *; cbn in *;
  rewrite ?andb_true_iff, ?Z.leb_le, ?Z.ltb_lt in *; cbn in *; lia.

Lemma cardinal_of_adjacency a b d :
  adjacency a b = Some d → d = East ∨ d = West ∨ d = South ∨ d = North.
Proof.
  unfold adjacency. destruct (chunk_id a), (chunk_id b).
  repeat case_match; naive_solver.
Qed.

Lemma join_embeds_a a b d :
  same_size a b → adjacency a b = Some d → embeds a (join a b d) (offset_a a b d).
Proof.
  intros Hsz Hadj c Hin. destruct c as [r k].
  destruct (cardinal_of_adjacency a b d Hadj) as [->|[->|[->| ->]]].
  - split; [in_grid_solve|]. cbn. rewrite !Z.add_0_r.
    destruct (Z.ltb_spec k (cols a)); [done|in_grid_solve].
  - split; [in_grid_solve|]. cbn. rewrite !Z.add_0_r.
    destruct (Z.ltb_spec (k + cols b) (cols b)); [in_grid_solve|].
    f_equal. lia.
  - split; [in_grid_solve|]. cbn. rewrite !Z.add_0_r.
    destruct (Z.ltb_spec r (rows a)); [done|in_grid_solve].
  - split; [in_grid_solve|]. cbn. rewrite !Z.add_0_r.
    destruct (Z.ltb_spec (r + rows b) (rows b)); [in_grid_solve|].
    f_equal. lia.
Qed.

Lemma join_embeds_b a b d :
  same_size a b → adjacency a b = Some d → embeds b (join a b d) (offset_b a b d).
Proof.
  intros Hsz Hadj c Hin. destruct c as [r k].
  destruct (cardinal_of_adjacency a b d Hadj) as [->|[->|[->| ->]]].
  - split; [in_grid_solve|]. cbn. rewrite !Z.add_0_r.
    destruct (Z.ltb_spec (k + cols a) (cols a)); [in_grid_solve|].
    f_equal. lia.
  - split; [in_grid_solve|]. cbn. rewrite !Z.add_0_r.
    destruct (Z.ltb_spec k (cols b)); [done|in_grid_solve].
  - split; [in_grid_solve|]. cbn. rewrite !Z.add_0_r.
    destruct (Z.ltb_spec (r + rows a) (rows a)); [in_grid_solve|].
    f_equal. lia.
  - split; [in_grid_solve|]. cbn. rewrite !Z.add_0_r.
    destruct (Z.ltb_spec r (rows b)); [done|in_grid_solve].
Qed.

Lemma join_ok a b d :
  same_size a b → adjacency a b = Some d →
  grid_ok a = true → grid_ok b = true → grid_ok (join a b d) = true.
Proof.
  intros Hsz Hadj Ha Hb. rewrite grid_ok_spec in *. intros [r k] Hin.
  destruct (cardinal_of_adjacency a b d Hadj) as [->|[->|[->| ->]]]; cbn.
  - destruct (Z.ltb_spec k (cols a)).
    + apply (Ha (r, k)). in_grid_solve.
    + apply (Hb (r, k - cols a)). in_grid_solve.
  - destruct (Z.ltb_spec k (cols b)).
    + apply (Hb (r, k)). in_grid_solve.
    + apply (Ha (r, k - cols b)). in_grid_solve.
  - destruct (Z.ltb_spec r (rows a)).
    + apply (Ha (r, k)). in_grid_solve.
    + apply (Hb (r - rows a, k)). in_grid_solve.
  - destruct (Z.ltb_spec r (rows b)).
    + apply (Hb (r, k)). in_grid_solve.
    + apply (Ha (r - rows b, k)). in_grid_solve.
Qed.

(** The two cells of a boundary pair are neighbours in the joined grid. *)
Lemma join_facing a b d i :
  adjacency a b = Some d →
  neighbour (shift (offset_b a b d) (boundary_cell b (opposite d) i)) (opposite d)
  = shift (offset_a a b d) (boundary_cell a d i).
Proof.
  intros Hadj.
  destruct (cardinal_of_adjacency a b d Hadj) as [->|[->|[->| ->]]];
    unfold neighbour, shift; cbn; f_equal; lia.
Qed.

Lemma join_crossing a b d i k :
  same_size a b → adjacency a b = Some d → crossing a b d i = Some k →
  step_cost (join a b d) (shift (offset_b a b d) (boundary_cell b (opposite d) i))
            (opposite d)
  = Some (Sqrt2.mk k 0).
Proof.
  intros Hsz Hadj Hc. unfold crossing in Hc.
  destruct (passable a (boundary_cell a d i)) as [ca|] eqn:Ha; [|done].
  destruct (passable b (boundary_cell b (opposite d) i)) as [cb|] eqn:Hb; [|done].
  injection Hc as <-. unfold step_cost. rewrite (join_facing a b d i Hadj).
  rewrite (embeds_passable _ _ _ _ _ (join_embeds_a a b d Hsz Hadj) Ha).
  rewrite (embeds_passable _ _ _ _ _ (join_embeds_b a b d Hsz Hadj) Hb).
  destruct (cardinal_of_adjacency a b d Hadj) as [->|[->|[->| ->]]]; cbn;
    do 2 f_equal; lia.
Qed.

(** A route that crosses at the [i]-th boundary cell is a walk of the
    joined grid, so the joined grid's integration value is at most its
    cost. *)
Lemma route_cost_bound a b d i s dst rc :
  grid_ok a = true → grid_ok b = true → same_size a b → adjacency a b = Some d →
  route_cost a b d i s dst = Some rc →
  ∃ v, field_at (Solve (join a b d) [shift (offset_b a b d) dst]).1
                (shift (offset_a a b d) s) = Some (Value v)
       ∧ Sqrt2.le v rc.
Proof.
  intros Hoka Hokb Hsz Hadj Hrc. unfold route_cost in Hrc.
  destruct (field_at (Solve a [boundary_cell a d i]).1 s) as [[va|]|] eqn:Hva; try done.
  destruct (crossing a b d i) as [k|] eqn:Hk; [|done].
  destruct (field_at (Solve b [dst]).1 (boundary_cell b (opposite d) i))
    as [[vb|]|] eqn:Hvb; try done.
  injection Hrc as <-.
  apply Solve_Value in Hva, Hvb; try done.
  destruct (solve_sound a _ Hoka _ _ Hva) as (p & ->%list_elem_of_singleton & Hwa).
  destruct (solve_sound b _ Hokb _ _ Hvb) as (t & ->%list_elem_of_singleton & Hwb).
  pose proof (join_ok a b d Hsz Hadj Hoka Hokb) as Hok.
  apply (embeds_walk _ _ _ _ _ _ (join_embeds_a a b d Hsz Hadj)) in Hwa.
  apply (embeds_walk _ _ _ _ _ _ (join_embeds_b a b d Hsz Hadj)) in Hwb.
  pose proof (walk_step _ _ _ _ _ _ Hwb (join_crossing a b d i k Hsz Hadj Hk)) as Hstep.
  rewrite (join_facing a b d i Hadj) in Hstep.
  pose proof (walk_trans _ _ _ _ _ _ Hstep Hwa) as Hw.
  destruct (solve_least (join a b d) [shift (offset_b a b d) dst] Hok _ _ _
              (list_elem_of_here _ _) Hw) as (v & Hv & Hle).
  exists v. split; [by apply Solve_Value|].
  unfold Sqrt2.le in *. rewrite !sqrt2_to_R_add in *. lra.
Qed.
End JoinFacts.

Section RouteFacts.
Import Nav Portals.

Lemma coarse_route_side a b d p :
  adjacency a b = Some d → coarse_route a b = Some p →
  side p = d ∧ p ∈ BuildPortals (Some a) (Some b).
Proof.
  intros Hadj. unfold coarse_route, build_graph; cbn [edges].
  assert (H : ∀ l best,
    (∀ q, best = Some q → side q = d ∧ q ∈ BuildPortals (Some a) (Some b)) →
    (∀ q, q ∈ l → q ∈ BuildPortals (Some a) (Some b)) →
    foldl (lighter a) best l = Some p →
    side p = d ∧ p ∈ BuildPortals (Some a) (Some b)).
  { induction l as [|q l IH]; intros best Hbest Hl; cbn [foldl]; [by apply Hbest|].
    apply IH.
    - intros q' Hq'. unfold lighter in Hq'.
      assert (Hq : side q = d ∧ q ∈ BuildPortals (Some a) (Some b)).
      { assert (Hin : q ∈ BuildPortals (Some a) (Some b)) by (apply Hl; by left).
        split; [|done].
        by apply (elem_of_BuildPortals a b d) in Hin as (? & ? & ? & _ & ->). }
      destruct best as [q0|]; [|by injection Hq' as <-].
      destruct (Qle_bool _ _); [by apply Hbest|by injection Hq' as <-].
    - intros q' Hq'. apply Hl. by right. }
  apply H; [done|by intros].
Qed.

(** Route costs read leg by leg. For two adjacent chunks of one size and
    a cell in each: the cost of a route assembled from the field of the
    first chunk toward the crossing cell, the step across the boundary and
    the field of the second chunk toward the destination is at least the
    integration value of the two grids joined into one, which is the
    least cost of a walk between the two cells; this holds for every
    crossing cell, and so for the portal the coarse search picks. *)
Lemma route_legs_over_approximate a b d :
  grid_ok a = true → grid_ok b = true → same_size a b → adjacency a b = Some d →
  (∀ i s dst rc,
     route_cost a b d i s dst = Some rc →
     ∃ v, field_at (Solve (join a b d) [shift (offset_b a b d) dst]).1
                   (shift (offset_a a b d) s) = Some (Value v)
          ∧ Sqrt2.le v rc
          ∧ (∀ w, walk (join a b d) (shift (offset_b a b d) dst)
                       (shift (offset_a a b d) s) w → Sqrt2.le v w))
  ∧ (∀ p s dst rc,
       coarse_route a b = Some p →
       concatenated_cost a b p s dst = Some rc →
       ∃ v, field_at (Solve (join a b d) [shift (offset_b a b d) dst]).1
                     (shift (offset_a a b d) s) = Some (Value v)
            ∧ Sqrt2.le v rc).
Proof.
  intros Hoka Hokb Hsz Hadj.
  assert (Hgen : ∀ i s dst rc,
     route_cost a b d i s dst = Some rc →
     ∃ v, field_at (Solve (join a b d) [shift (offset_b a b d) dst]).1
                   (shift (offset_a a b d) s) = Some (Value v)
          ∧ Sqrt2.le v rc
          ∧ (∀ w, walk (join a b d) (shift (offset_b a b d) dst)
                       (shift (offset_a a b d) s) w → Sqrt2.le v w)).
  { intros i s dst rc Hrc.
    destruct (route_cost_bound a b d i s dst rc Hoka Hokb Hsz Hadj Hrc) as (v & Hv & Hle).
    exists v. split; [done|]. split; [done|]. intros w Hw.
    pose proof (join_ok a b d Hsz Hadj Hoka Hokb) as Hok.
    destruct (solve_least (join a b d) [shift (offset_b a b d) dst] Hok _ _ _
                (list_elem_of_here _ _) Hw) as (v' & Hv' & Hle').
    apply Solve_Value in Hv; [|done]. congruence. }
  split; [exact Hgen|].
  intros p s dst rc Hroute Hcost.
  destruct (coarse_route_side a b d p Hadj Hroute) as [Hside _].
  unfold concatenated_cost in Hcost. rewrite Hside in Hcost.
  destruct (nearest_crossing a p s) as [i|]; [|done].
  destruct (Hgen i s dst rc Hcost) as (v & Hv & Hle & _). by exists v.
Qed.
(** Route costs read as the edge weights of the coarse search. Between
    the chunks [chunk_west_1_2] and [chunk_east] the coarse search crosses
    by the portal at row 0, an edge of weight 4 * 1 = 4; the least cost of
    a walk from the cell (3, 0) of the first to the cell (3, 3) of the
    second is 14 / 2 = 7. *)
Lemma edge_weight_under_approximates :
  (∃ p, coarse_route chunk_west_1_2 chunk_east = Some p
        ∧ first p = 0%nat ∧ width p = 1%nat
        ∧ Qeq_bool (edge_weight chunk_west_1_2 p) (4 # 1) = true)
  ∧ field_at (Solve (join chunk_west_1_2 chunk_east East)
                    [shift (offset_b chunk_west_1_2 chunk_east East) (3, 3)]).1
             (shift (offset_a chunk_west_1_2 chunk_east East) (3, 0))
    = Some (Value (Sqrt2.mk 14 0))
  ∧ concatenated_cost chunk_west_1_2 chunk_east
      (mk_portal (0, 0) (0, 1) East 0 1 (2 # 2)) (3, 0) (3, 3)
    = Some (Sqrt2.mk 2 12).
Proof.
  split; [|split].
  - eexists. split; [vm_compute; reflexivity|]. repeat split.
  - vm_compute. reflexivity.
  - vm_compute. reflexivity.
Qed.
End RouteFacts.
